(** * ASCπ Engine 9.0: a shallow embedding of the field evolution loop

    Source: [prior-art/SEMANTIC_FIELD_THEORY/SFT Release 9.0/ascpi_engine_v9.py].

    Numbers.  Python floats are modelled as real numbers ([R]): arithmetic is
    exact, there is no rounding, no NaN and no infinity (the one infinite
    value the source uses, the guardian's initial [_L_prev], has a type of
    its own).  Python ints are [Z] or [nat]; code points are binary naturals.
    Three float operations differ from the exact ones in kind and not by a
    rounding error: [math.exp] and [**] raise OverflowError and [*] returns
    infinity beyond the largest float, and [%] on a negative operand ends in
    a rounded addition that can return the modulus itself.  Statements that
    reach those ranges carry them as hypotheses ([float_safe], [κ_MIN]);
    [float_mod] and [_enforce_rounded] make the rounding of [%] explicit.

    Effects.  Operations of the source that can raise ([math.log],
    [math.sqrt], true division, indexing, reading an unbound local) return an
    [outcome]; the engine's [process] runs in a state-and-exception monad
    whose state is the engine object together with the module-global
    [KERNEL] dictionary that every kernel instance aliases. *)

From Stdlib Require Import Reals Lra Lia ZArith NArith List String Ascii Bool.
Import ListNotations.
Open Scope R_scope.

(** ** Python values *)

Abbreviation codepoint := BinNums.N.

(** A Python [str] is a sequence of code points. *)
Definition str := list codepoint.

(** ASCII literal of the source as a [str]. *)
Definition lit (s : string) : str := map N_of_ascii (list_ascii_of_string s).

Inductive exn :=
| ZeroDivisionError
| ValueError
| IndexError
| UnboundLocalError
| FuelExhausted.

Inductive outcome (A : Type) :=
| Ok (a : A)
| Raise (e : exn).
Arguments Ok {A} a.
Arguments Raise {A} e.

Definition obind {A B} (c : outcome A) (k : A -> outcome B) : outcome B :=
  match c with
  | Ok a => k a
  | Raise e => Raise e
  end.

Declare Scope outcome_scope.
Delimit Scope outcome_scope with outcome.
Notation "x <- c ;; k" := (obind c (fun x => k))
  (at level 61, c at next level, right associativity) : outcome_scope.
Notation "' p <- c ;; k" := (obind c (fun p => k))
  (at level 61, p pattern, c at next level, right associativity) : outcome_scope.

(** [a / b] on floats: raises on a zero divisor. *)
Definition pydiv (a b : R) : outcome R :=
  if Req_dec_T b 0 then Raise ZeroDivisionError else Ok (a / b).

(** [math.log x]: raises outside the positive reals. *)
Definition pylog (x : R) : outcome R :=
  if Rlt_dec 0 x then Ok (ln x) else Raise ValueError.

(** [math.sqrt x]: raises on a negative argument. *)
Definition pysqrt (x : R) : outcome R :=
  if Rle_dec 0 x then Ok (sqrt x) else Raise ValueError.

(** [x % m] on floats, for a positive modulus: [x - m * floor (x / m)]. *)
Definition pymod (x m : R) : R := x - m * IZR (Int_part (x / m)).

(** C's [fmod x m] for a positive modulus: the remainder with the sign of
    [x].  It is exact on floats. *)
Definition fmod (x m : R) : R :=
  if Rle_dec 0 x then pymod x m else - pymod (- x) m.

(** [x % m] on floats with its rounding explicit, for a positive modulus.
    CPython's [float_rem] takes [fmod x m]; a zero remainder gives zero, a
    negative one gets [m] added, and that addition is a float addition:
    [rnd] is its rounding.  A remainder that is not negative is returned as
    it is.  With exact rounding this is [pymod]. *)
Definition float_mod (rnd : R -> R) (x m : R) : R :=
  let r := fmod x m in
  if Req_dec_T r 0 then 0
  else if Rlt_dec r 0 then rnd (r + m) else r.

(** A magnitude well below the square root of the largest float (about
    1.3e154): squares and products of numbers up to it do not overflow. *)
Definition float_safe : R := 1e150.

(** [math.atan2 y x], with values in (-π, π]. *)
Definition atan2 (y x : R) : R :=
  if Rlt_dec 0 x then atan (y / x)
  else if Rlt_dec x 0 then
         (if Rle_dec 0 y then atan (y / x) + PI else atan (y / x) - PI)
  else if Rlt_dec 0 y then PI / 2
  else if Rlt_dec y 0 then - (PI / 2)
  else 0.

(** [math.copysign a b]. *)
Definition copysign (a b : R) : R :=
  if Rle_dec 0 b then Rabs a else - Rabs a.

(** [sum l]: left to right from 0. *)
Definition pysum (l : list R) : R := fold_left Rplus l 0.

(** [max l] on a non-empty list (the first element seeds the fold). *)
Definition pymax_list (l : list R) : R :=
  match l with
  | [] => 0
  | x :: l' => fold_left Rmax l' x
  end.

(** [collections.deque(maxlen=n).append]: the oldest entry falls out when
    the buffer is full. *)
Definition deque_append {A} (maxlen : nat) (d : list A) (x : A) : list A :=
  let d' := d ++ [x] in
  if (maxlen <? List.length d')%nat then tl d' else d'.

(** [d[0]] and [d[-1]] on a buffer known to be non-empty. *)
Definition first_of (d : list R) : R := hd 0 d.
Definition last_of (d : list R) : R := last d 0.

(** [list(d)[-n:]]. *)
Definition last_n {A} (n : nat) (l : list A) : list A :=
  skipn (List.length l - n) l.

Definition Rltb (a b : R) : bool := if Rlt_dec a b then true else false.
Definition Rleb (a b : R) : bool := if Rle_dec a b then true else false.

(** ** §0 Constants *)

Definition φ : R := (1 + sqrt 5) / 2.
Definition π : R := PI.
Definition τ : R := 2 * π.
Definition ε : R := 1e-12.

Definition κ_MIN : R := 0.01.
Definition κ_MAX : R := 10.0.
Definition PHASE_MAX : R := π / 2.
Definition ENERGY_δ : R := 0.2.

(** The [KERNEL] dictionary. *)
Record KernelParams := mkKernel {
  α : R;
  β : R;
  γ : R;
  η : R;
  K : R;
  λ : R
}.

Definition KERNEL : KernelParams :=
  {| α := 0.15; β := 0.12; γ := 0.18; η := 0.25; K := 0.5; λ := 0.02 |}.

Definition set_α (p : KernelParams) (a : R) : KernelParams :=
  {| α := a; β := β p; γ := γ p; η := η p; K := K p; λ := λ p |}.

(** ** §1 Field Ψ *)

Record Ψ := mkΨ {
  ΔΦ : R;
  κ : R;
  θ : R;
  N : R;
  C : R;
  t : Z;
  src : str
}.

(** [Ψ._enforce] *)
Definition _enforce (self : Ψ) : Ψ :=
  {| ΔΦ := ΔΦ self;
     κ := Rmax κ_MIN (Rmin κ_MAX (Rabs (κ self)));
     θ := pymod (θ self) τ;
     N := Rmax ε (N self);
     C := Rmax 0 (Rmin 1 (C self));
     t := t self;
     src := src self |}.

(** [Ψ._enforce] with the rounding of its [%] explicit; the other three
    assignments are exact on floats. *)
Definition _enforce_rounded (rnd : R -> R) (self : Ψ) : Ψ :=
  {| ΔΦ := ΔΦ self;
     κ := Rmax κ_MIN (Rmin κ_MAX (Rabs (κ self)));
     θ := float_mod rnd (θ self) τ;
     N := Rmax ε (N self);
     C := Rmax 0 (Rmin 1 (C self));
     t := t self;
     src := src self |}.

(** [Ψ(...)]: the dataclass constructor followed by [__post_init__]. *)
Definition new_Ψ (dphi kappa theta n c : R) (step : Z) (s : str) : Ψ :=
  _enforce (mkΨ dphi kappa theta n c step s).

(** The dataclass defaults. *)
Definition default_ΔΦ : R := 0.0.
Definition default_κ : R := 1.0.
Definition default_θ : R := 0.0.
Definition default_N : R := 1.0.
Definition default_C : R := 0.5.
Definition default_t : Z := 0%Z.
Definition default_src : str := [936%N].

(** [Ψ(src=s)] *)
Definition default_Ψ (s : str) : Ψ :=
  new_Ψ default_ΔΦ default_κ default_θ default_N default_C default_t s.

Definition vec (self : Ψ) : R * R * R * R * R :=
  (ΔΦ self, κ self, θ self, N self, C self).

(** [Ψ.dist].  On floats the square of the tension difference raises
    OverflowError beyond about 1.3e154; the reals have no such bound. *)
Definition dist (self o : Ψ) : outcome R :=
  (let dφ := (ΔΦ self - ΔΦ o) ^ 2 in
   lk1 <- pylog (κ self + ε) ;;
   lk2 <- pylog (κ o + ε) ;;
   let dk := (lk1 - lk2) ^ 2 in
   let dθ := Rmin (Rabs (θ self - θ o)) (τ - Rabs (θ self - θ o)) ^ 2 / π ^ 2 in
   ln1 <- pylog (N self + ε) ;;
   ln2 <- pylog (N o + ε) ;;
   let dN := (ln1 - ln2) ^ 2 in
   pysqrt (dφ + dk + dθ + dN))%outcome.

(** [Ψ.inner].  On floats the product of the energies is infinite beyond
    the largest float; the reals have no such bound. *)
Definition inner (self o : Ψ) : outcome R :=
  (let phase := cos (θ self - θ o) in
   q <- pydiv (Rabs (κ self - κ o)) (Rmax (Rmax (κ self) (κ o)) ε) ;;
   let kappa := 1 - q in
   r <- pysqrt (N self * N o) ;;
   Ok (phase * kappa * r))%outcome.

(** [Ψ.blend] *)
Definition blend (self o : Ψ) (a : R) : Ψ :=
  let b := 1 - a in
  let sin_θ := a * sin (θ self) + b * sin (θ o) in
  let cos_θ := a * cos (θ self) + b * cos (θ o) in
  _enforce
    (new_Ψ (a * ΔΦ self + b * ΔΦ o)
           (a * κ self + b * κ o)
           (pymod (atan2 sin_θ cos_θ) τ)
           (a * N self + b * N o)
           (Rmax (C self) (C o))
           (Z.max (t self) (t o) + 1)
           (firstn 8 (src self ++ [8853%N] ++ src o))).

(** [Ψ.copy] *)
Definition copy (self : Ψ) : Ψ :=
  new_Ψ (ΔΦ self) (κ self) (θ self) (N self) (C self) (t self) (src self).

(** Field assignments on a [Ψ] object. *)
Definition set_ΔΦ (s : Ψ) (x : R) : Ψ := mkΨ x (κ s) (θ s) (N s) (C s) (t s) (src s).
Definition set_κ (s : Ψ) (x : R) : Ψ := mkΨ (ΔΦ s) x (θ s) (N s) (C s) (t s) (src s).
Definition set_θ (s : Ψ) (x : R) : Ψ := mkΨ (ΔΦ s) (κ s) x (N s) (C s) (t s) (src s).
Definition set_N (s : Ψ) (x : R) : Ψ := mkΨ (ΔΦ s) (κ s) (θ s) x (C s) (t s) (src s).
Definition set_C (s : Ψ) (x : R) : Ψ := mkΨ (ΔΦ s) (κ s) (θ s) (N s) x (t s) (src s).

(** ** Library functions outside the repository

    The Unicode tables, Python's [round] and the SHA-256 digest are not code
    of the engine; they are taken as an interface. *)
Class Platform := {
  (** [c.isspace()] on a single character *)
  isspace : codepoint -> bool;
  (** [unicodedata.category(c)] *)
  category : codepoint -> string;
  (** [round(x, ndigits)] *)
  round : R -> Z -> R;
  (** [hashlib.sha256(str(v).encode()).hexdigest()[:8]] on a 5-tuple *)
  sha256_hex8_vec : R * R * R * R * R -> str;
  (** the same digest on the string form of one float *)
  sha256_hex8_float : R -> str
}.

(** ** §2 Awareness field *)

Module AwarenessField.

Record obj := mk {
  field : Ψ;
  _C : list R;
  _κ : list R;
  _div : list R;
  _align : list R
}.

Definition __init__ : obj :=
  {| field := new_Ψ 0.05 0.2 0 0.1 0.1 default_t [936; 95; 97]%N;
     _C := []; _κ := []; _div := []; _align := [] |}.

Definition b2n (b : bool) : nat := if b then 1%nat else 0%nat.

(** [AwarenessField.evolve]: the awareness field after the call and the
    phase-stabilized copy of [ψ] that is returned. *)
Definition evolve (self : obj) (ψ M_inf : Ψ) (W : option Ψ) : outcome (Ψ * obj) :=
  (let bC := deque_append 20 (_C self) (C ψ) in
   let bκ := deque_append 20 (_κ self) (κ ψ) in
   d <- dist ψ M_inf ;;
   let bdiv := deque_append 20 (_div self) d in
   a <- inner ψ M_inf ;;
   let balign := deque_append 20 (_align self) a in
   let n := List.length bC in
   let trend (b : list R) : R :=
     if (3 <=? n)%nat then (last_of b - first_of b) / INR n else 0.0 in
   let C_trend := trend bC in
   let κ_trend := trend bκ in
   let div_trend := trend bdiv in
   let align_trend := trend balign in
   let drift := Rltb 0.01 div_trend in
   let f := field self in
   let f := set_ΔΦ f (0.9 * ΔΦ f + 0.1 * (if drift then 0.5 else -0.2)) in
   let f := set_ΔΦ f (Rmax (-1) (Rmin 1 (ΔΦ f))) in
   let stability :=
     (b2n (Rleb 0 C_trend) + b2n (Rleb κ_trend 0) + b2n (Rleb div_trend 0))%nat in
   let f := set_κ f (κ f * (if (2 <=? stability)%nat then 0.95 else 1.02)) in
   let Δθ := θ ψ - θ f in
   let Δθ := if Rlt_dec π (Rabs Δθ) then Δθ - copysign τ Δθ else Δθ in
   let f := set_θ f (pymod (θ f + 0.3 * Δθ) τ) in
   let criteria_met :=
     (b2n (Rleb (-0.01) C_trend) + b2n (Rleb κ_trend 0.01)
      + b2n (Rleb div_trend 0.01) + b2n (Rleb (-0.01) align_trend))%nat in
   let f :=
     if (3 <=? criteria_met)%nat then
       let f := set_N f (Rmin 1.0 (N f * 1.02 + 0.01)) in
       set_C f (Rmin 1.0 (C f + 0.015))
     else if (criteria_met <=? 1)%nat then
       let f := set_N f (Rmax 0.01 (N f * 0.98)) in
       set_C f (Rmax 0.01 (C f - 0.005))
     else f in
   let f := match W with Some w => blend f w 0.9 | None => f end in
   let f := _enforce f in
   let stabilized := copy ψ in
   let stabilized :=
     if Rlt_dec 0.3 (C f) then
       let phase_correction := 0.1 * C f * sin (θ M_inf - θ ψ) in
       set_θ stabilized (pymod (θ stabilized + phase_correction) τ)
     else stabilized in
   Ok (stabilized,
       {| field := f; _C := bC; _κ := bκ; _div := bdiv; _align := balign |}))%outcome.

(** [AwarenessField.level] *)
Definition level (self : obj) : str :=
  let c := C (field self) in
  if Rlt_dec c 0.2 then lit "dormant"
  else if Rlt_dec c 0.4 then lit "emerging"
  else if Rlt_dec c 0.6 then lit "aware"
  else if Rlt_dec c 0.8 then lit "conscious"
  else lit "fully_conscious".

End AwarenessField.

(** ** §3 Memory field *)

Module MemoryField.

Record obj := mk {
  M_inf : Ψ;
  _history : list Ψ;
  _C_floor : R;
  _limit_cycle : option Ψ
}.

Definition __init__ : obj :=
  {| M_inf := new_Ψ 0.0 0.5 0 0.5 0.5 default_t [77; 8734]%N;
     _history := [];
     _C_floor := 0.0;
     _limit_cycle := None |}.

(** [abs(θs[i+1] - θs[i])] for consecutive entries. *)
Fixpoint deltas (θs : list R) : list R :=
  match θs with
  | a :: (b :: _) as rest => Rabs (b - a) :: deltas rest
  | _ => []
  end.

(** [MemoryField._detect_limit_cycle]: the new value of [_limit_cycle]. *)
Definition _detect_limit_cycle (history : list Ψ) (lc : option Ψ) : option Ψ :=
  if (List.length history <? 10)%nat then lc
  else
    let recent := last_n 10 history in
    let θs := map θ recent in
    if forallb (fun d => Rltb d 0.3) (deltas θs) then
      let sin_s := pysum (map (fun h => sin (θ h)) recent) in
      let cos_s := pysum (map (fun h => cos (θ h)) recent) in
      let avg_θ := pymod (atan2 sin_s cos_s) τ in
      let len := INR (List.length recent) in
      let avg_κ := pysum (map κ recent) / len in
      Some (new_Ψ (pysum (map ΔΦ recent) / len)
                  avg_κ
                  avg_θ
                  (pysum (map N recent) / len)
                  (pymax_list (map C recent))
                  default_t
                  (lit "cycle"))
    else lc.

(** [MemoryField.absorb] *)
Definition absorb (self : obj) (ψ : Ψ) (rate : R) : obj :=
  let weight := tanh (C ψ * 2) * rate in
  let M := M_inf self in
  let sin_b := (1 - weight) * sin (θ M) + weight * sin (θ ψ) in
  let cos_b := (1 - weight) * cos (θ M) + weight * cos (θ ψ) in
  let M := set_ΔΦ M ((1 - weight) * ΔΦ M + weight * ΔΦ ψ * 0.9) in
  let M := set_κ M ((1 - weight) * κ M + weight * κ ψ * 0.95) in
  let M := set_θ M (pymod (atan2 sin_b cos_b) τ) in
  let M := set_N M ((1 - weight) * N M + weight * N ψ) in
  let history := deque_append 100 (_history self) (copy M) in
  let '(floor, M) :=
    if (3 <=? List.length history)%nat then
      let phases := map θ history in
      let sin_s := pysum (map sin phases) in
      let cos_s := pysum (map cos phases) in
      let r := sqrt (sin_s ^ 2 + cos_s ^ 2) / INR (List.length phases) in
      let floor := Rmax (_C_floor self - 0.001) (r - 0.05) in
      (floor, set_C M (Rmax (Rmax r floor) (C M * 0.99)))
    else (_C_floor self, M) in
  let lc := _detect_limit_cycle history (_limit_cycle self) in
  {| M_inf := _enforce M;
     _history := history;
     _C_floor := floor;
     _limit_cycle := lc |}.

(** The softmax weights on inverse curvature shared by [fuse],
    [CoherenceForce.compute] and [MultimodalProjector.project].  On floats
    [math.exp] raises OverflowError for a curvature below about 0.0014;
    enforced states have curvature at least [κ_MIN]. *)
Definition softmax_inv_κ (κs : list R) : list R :=
  let inv_κ := map (fun k => 1.0 / Rmax k ε) κs in
  let exp_w := map exp inv_κ in
  let total := pysum exp_w in
  map (fun w => w / total) exp_w.

(** [MemoryField.fuse] *)
Definition fuse (self : obj) (sources : list Ψ) : obj :=
  match sources with
  | [] => self
  | _ =>
    let weights := softmax_inv_κ (map κ sources) in
    fold_left (fun m ws => absorb m (snd ws) (fst ws * 0.3))
              (combine weights sources) self
  end.

(** [MemoryField.attractor] *)
Definition attractor (self : obj) : Ψ :=
  match _limit_cycle self with
  | Some lc => if Rlt_dec (C (M_inf self)) (C lc) then copy lc else copy (M_inf self)
  | None => copy (M_inf self)
  end.

End MemoryField.

(** ** §4 Unified tensor kernel *)

Module UnifiedTensorKernel.

(** The instance state; [self.p] aliases the global [KERNEL] dictionary and
    is passed in by the caller. *)
Record obj := mk { n_calls : Z }.

Definition __init__ : obj := {| n_calls := 0 |}.

(** [UnifiedTensorKernel.__call__] *)
Definition __call__ (self : obj) (p : KernelParams)
    (ψ A M_inf : Ψ) (W : option Ψ) (grad_C : R) : Ψ * obj :=
  let self := {| n_calls := n_calls self + 1 |} in
  let target := blend A M_inf 0.6 in
  let target := match W with Some w => blend target w 0.85 | None => target end in
  let new_κ := κ ψ - α p * (κ ψ - κ target) in
  let new_N := N ψ + β p * C ψ in
  let new_ΔΦ := if Rlt_dec 0.6 (C ψ) then ΔΦ ψ * (1 - γ p * C ψ ^ 2) else ΔΦ ψ in
  let new_ΔΦ := new_ΔΦ + η p * (ΔΦ M_inf - new_ΔΦ) in
  let new_κ := new_κ + η p * (κ M_inf - new_κ) in
  let new_N := new_N + η p * (N M_inf - new_N) in
  let Δθ := θ target - θ ψ in
  let Δθ := if Rlt_dec π Δθ then Δθ - τ
            else if Rlt_dec Δθ (- π) then Δθ + τ else Δθ in
  let phase_shift := K p * sin Δθ in
  let phase_shift := Rmax (- PHASE_MAX) (Rmin PHASE_MAX phase_shift) in
  let new_θ := pymod (θ ψ + phase_shift) τ in
  let new_κ := new_κ - grad_C * 0.15 in
  let new_ΔΦ := new_ΔΦ - grad_C * 0.08 in
  let merge_rate := 0.1 * C target in
  let new_ΔΦ := (1 - merge_rate) * new_ΔΦ + merge_rate * ΔΦ target in
  let new_κ := (1 - merge_rate) * new_κ + merge_rate * κ target in
  (_enforce
     (new_Ψ new_ΔΦ
            (Rmax κ_MIN (Rmin κ_MAX new_κ))
            new_θ
            (Rmax ε new_N)
            (C ψ)
            (t ψ + 1)
            (src ψ)),
   self).

End UnifiedTensorKernel.

(** ** §5 Coherence force *)

Module CoherenceForce.

Record obj := mk { _C_prev : R }.

Definition __init__ : obj := {| _C_prev := 0.5 |}.

(** [CoherenceForce.compute]: [(grad_C, C_fused)] and the updated object.
    [coherences] lists the dictionary's items [(name, (C, κ))] in insertion
    order. *)
Definition compute (self : obj) (coherences : list (str * (R * R))) : (R * R) * obj :=
  match coherences with
  | [] => ((0.0, _C_prev self), self)
  | items =>
    let weights := MemoryField.softmax_inv_κ (map (fun it => snd (snd it)) items) in
    let C_fused :=
      pysum (map (fun wi => fst wi * fst (snd (snd wi))) (combine weights items)) in
    let grad_C := C_fused - _C_prev self in
    ((grad_C, C_fused), {| _C_prev := C_fused |})
  end.

End CoherenceForce.

(** ** §6 World curvature *)

Module WorldCurvature.

Record obj := mk {
  sources : list (str * Ψ);
  field : option Ψ
}.

Definition __init__ : obj := {| sources := []; field := None |}.

Definition str_eqb (a b : str) : bool :=
  if list_eq_dec N.eq_dec a b then true else false.

(** [d[k] = v] on an insertion-ordered dictionary. *)
Fixpoint dict_set {V} (d : list (str * V)) (k : str) (v : V) : list (str * V) :=
  match d with
  | [] => [(k, v)]
  | (k', v') :: d' =>
    if str_eqb k k' then (k', v) :: d' else (k', v') :: dict_set d' k v
  end.

(** [WorldCurvature._update]: the new value of [self.field]. *)
Definition _update (srcs : list (str * Ψ)) : option Ψ :=
  match srcs with
  | [] => None
  | _ =>
    let fields := map snd srcs in
    let n := INR (List.length fields) in
    let sin_s := pysum (map (fun f => sin (θ f)) fields) in
    let cos_s := pysum (map (fun f => cos (θ f)) fields) in
    Some (new_Ψ (pysum (map ΔΦ fields) / n)
                (pysum (map κ fields) / n)
                (pymod (atan2 sin_s cos_s) τ)
                (pysum (map N fields))
                (sqrt (sin_s ^ 2 + cos_s ^ 2) / n)
                default_t
                (lit "W"))
  end.

(** [WorldCurvature.add] *)
Definition add (self : obj) (sid : str) (ψ : Ψ) : obj :=
  let srcs := dict_set (sources self) sid ψ in
  {| sources := srcs; field := _update srcs |}.

End WorldCurvature.

(** ** §7 Encoder *)

Module Encoder.

Definition _ZWJ : codepoint := 8205%N.
Definition _RI : codepoint * codepoint := (127462%N, 127487%N).

Definition in_RI (cp : codepoint) : bool :=
  (fst _RI <=? cp)%N && (cp <=? snd _RI)%N.

(** [_κ_MAP.get(cat, default)] *)
Definition _κ_MAP_get (cat : ascii) (default : R) : R :=
  if Ascii.eqb cat "L" then 0.3
  else if Ascii.eqb cat "M" then 0.1
  else if Ascii.eqb cat "N" then 0.4
  else if Ascii.eqb cat "P" then 0.5
  else if Ascii.eqb cat "S" then 0.6
  else if Ascii.eqb cat "Z" then 0.05
  else if Ascii.eqb cat "C" then 0.02
  else default.

(** [sum(cps)] on code points. *)
Definition sum_cps (cps : str) : codepoint := fold_left N.add cps 0%N.

Definition NR (n : codepoint) : R := IZR (Z.of_N n).

Section WithPlatform.
Context {P : Platform}.

(** [unicodedata.category(nc) in {'Mn', 'Mc', 'Me'}] *)
Definition is_mark (nc : codepoint) : bool :=
  let k := category nc in
  String.eqb k "Mn" || String.eqb k "Mc" || String.eqb k "Me".

(** The inner [while] of [graphemes], on [rest = chars[i:]]: the completed
    cluster and the characters left. *)
Fixpoint extend_cluster (current rest : str) : str * str :=
  match rest with
  | [] => (current, [])
  | nc :: rest1 =>
    if (nc =? _ZWJ)%N then
      match rest1 with
      | [] => (current ++ [nc], [])
      | x :: rest2 => extend_cluster (current ++ [nc; x]) rest2
      end
    else
      let cp := match current with c0 :: _ => c0 | [] => 0%N end in
      if in_RI cp && in_RI nc && (List.length current =? 1)%nat then
        (current ++ [nc], rest1)
      else if is_mark nc then extend_cluster (current ++ [nc]) rest1
      else (current, rest)
  end.

(** The outer [while] of [graphemes]; [fuel] bounds its iterations. *)
Fixpoint clusters_loop (fuel : nat) (clusters : list str) (current rest : str)
  : outcome (list str) :=
  match rest with
  | [] =>
    Ok (match current with [] => clusters | _ => clusters ++ [current] end)
  | c :: rest1 =>
    match fuel with
    | O => Raise FuelExhausted
    | S fuel' =>
      if isspace c then
        match current with
        | [] => clusters_loop fuel' clusters current rest1
        | _ => clusters_loop fuel' (clusters ++ [current]) [] rest1
        end
      else
        let '(cluster, rest2) := extend_cluster (current ++ [c]) rest1 in
        clusters_loop fuel' (clusters ++ [cluster]) [] rest2
    end
  end.

(** [Encoder.graphemes] *)
Definition graphemes (text : str) : outcome (list str) :=
  match text with
  | [] => Ok []
  | _ => clusters_loop (List.length text) [] [] text
  end.

(** The running sums of the loop in [Encoder.text]. *)
Record sums := mkSums {
  ΔΦ_sum : R;
  κ_sum : R;
  N_sum : R;
  sin_s : R;
  cos_s : R
}.

(** One iteration of [for i, g in enumerate(glyphs)]. *)
Definition glyph_step (n i : nat) (g : str) (s : sums) : outcome sums :=
  (let cps := g in
   primary <- match cps with [] => Raise IndexError | c0 :: _ => Ok c0 end ;;
   let complexity := INR (List.length cps) in
   q <- pydiv (INR i) (INR n) ;;
   let θ_g :=
     pymod (NR (primary / 256) * φ + NR (primary mod 256) / 256 * τ + q * τ / 2) τ in
   let cat :=
     match g with
     | [] => "L"%char
     | g0 :: _ =>
       match category g0 with
       | EmptyString => "L"%char
       | String a _ => a
       end
     end in
   l1 <- pylog (1 + NR (sum_cps cps)) ;;
   l2 <- pylog (NR 1114111 + 1) ;;
   e <- pydiv l1 l2 ;;
   Ok {| ΔΦ_sum := ΔΦ_sum s + Rabs (NR primary - NR 19968) / NR 1114111;
         κ_sum := κ_sum s + _κ_MAP_get cat 0.3 * (1 + 0.15 * complexity);
         N_sum := N_sum s + e * (1 + 0.25 * complexity);
         sin_s := sin_s s + sin θ_g;
         cos_s := cos_s s + cos θ_g |})%outcome.

Fixpoint glyph_loop (n i : nat) (glyphs : list str) (s : sums) : outcome sums :=
  match glyphs with
  | [] => Ok s
  | g :: gs => obind (glyph_step n i g s) (glyph_loop n (S i) gs)
  end.

(** [Encoder.text] *)
Definition text (txt : str) (source : str) : outcome Ψ :=
  (glyphs <- graphemes txt ;;
   match glyphs with
   | [] => Ok (default_Ψ source)
   | _ =>
     let n := List.length glyphs in
     s <- glyph_loop n 0 glyphs (mkSums 0.0 0.0 0.0 0.0 0.0) ;;
     dphi <- pydiv (ΔΦ_sum s) (INR n) ;;
     kappa <- pydiv (κ_sum s) (INR n) ;;
     r <- pysqrt (sin_s s ^ 2 + cos_s s ^ 2) ;;
     c <- pydiv r (INR n) ;;
     Ok (new_Ψ dphi kappa (pymod (atan2 (sin_s s) (cos_s s)) τ) (N_sum s) c
               default_t source)
   end)%outcome.

Definition is_prefix (sub s : str) : bool :=
  WorldCurvature.str_eqb (firstn (List.length sub) s) sub.

(** [s.count(sub)]: non-overlapping occurrences, left to right; [skip]
    characters of the last match are still to be passed over. *)
Fixpoint count_from (sub s : str) (skip : nat) : Z :=
  match s with
  | [] => match sub with [] => 1%Z | _ => 0%Z end
  | _ :: s' =>
    match skip with
    | S k => count_from sub s' k
    | O =>
      if is_prefix sub s then (1 + count_from sub s' (List.length sub - 1))%Z
      else count_from sub s' 0
    end
  end.

Definition count (s sub : str) : Z := count_from sub s 0.

(** [Encoder.code] *)
Definition code (source_code : str) : outcome Ψ :=
  (ψ <- text source_code (lit "code") ;;
   let branches :=
     (count source_code (lit "if ") + count source_code (lit "elif ")
      + count source_code (lit "else:"))%Z in
   let loops := (count source_code (lit "for ") + count source_code (lit "while "))%Z in
   let defs := (count source_code (lit "def ") + count source_code (lit "class "))%Z in
   let imports := count source_code (lit "import ") in
   let complexity := 1 + 0.1 * IZR (branches + loops + defs) in
   let ψ1 := set_κ ψ (Rmin κ_MAX (κ ψ * complexity)) in
   let ψ2 := set_ΔΦ ψ1 (ΔΦ ψ1 + 0.05 * IZR imports) in
   c <- pydiv (C ψ2) complexity ;;
   let ψ3 := set_C ψ2 (Rmax 0.1 c) in
   Ok (_enforce ψ3))%outcome.

End WithPlatform.
End Encoder.

(** ** §8 Multimodal projector *)

Module MultimodalProjector.

Fixpoint traverse {A B} (f : A -> outcome B) (l : list A) : outcome (list B) :=
  match l with
  | [] => Ok []
  | x :: l' => obind (f x) (fun y => obind (traverse f l') (fun ys => Ok (y :: ys)))
  end.

(** [MultimodalProjector.project] *)
Definition project (fields : list Ψ) : outcome Ψ :=
  match fields with
  | [] => Ok (default_Ψ (lit "empty"))
  | [f] => Ok (copy f)
  | _ =>
    (let w := MemoryField.softmax_inv_κ (map κ fields) in
     let wf := combine w fields in
     let new_ΔΦ := pysum (map (fun p => fst p * ΔΦ (snd p)) wf) in
     logs <- traverse (fun p => obind (pylog (κ (snd p) + ε))
                                      (fun l => Ok (fst p * l))) wf ;;
     let log_κ := pysum logs in
     let new_κ := exp log_κ in
     let sin_s := pysum (map (fun p => fst p * sin (θ (snd p))) wf) in
     let cos_s := pysum (map (fun p => fst p * cos (θ (snd p))) wf) in
     let new_θ := pymod (atan2 sin_s cos_s) τ in
     let new_N := pysum (map (fun p => fst p * N (snd p)) wf) in
     let new_C := sqrt (sin_s ^ 2 + cos_s ^ 2) in
     Ok (new_Ψ new_ΔΦ new_κ new_θ new_N new_C default_t
               [936; 95; 109; 111; 100]%N))%outcome
  end.

End MultimodalProjector.

(** ** §9 Invariant guardian *)

(** A float that may be [float('inf')]. *)
Inductive xfloat :=
| fin (r : R)
| inf.

(** [L > prev * 1.3] *)
Definition exceeds (L : R) (prev : xfloat) : bool :=
  match prev with
  | fin l => Rltb (l * 1.3) L
  | inf => false
  end.

Module InvariantGuardian.

Record obj := mk {
  _C_floor : R;
  _L_prev : xfloat
}.

Definition __init__ : obj := {| _C_floor := 0.0; _L_prev := inf |}.

(** [InvariantGuardian.reset] *)
Definition reset (self : obj) : obj := {| _C_floor := 0.0; _L_prev := inf |}.

(** INV-3 of [enforce]: the energy of [result] after the conservation step. *)
Definition conserve_energy (ψ_before result : Ψ) : Ψ :=
  if Rlt_dec ε (N ψ_before) then
    let ratio := N result / N ψ_before in
    if Rlt_dec ENERGY_δ (Rabs (ratio - 1)) then
      set_N result (N ψ_before * (1 + ENERGY_δ * (if Rlt_dec 1 ratio then 1 else -1)))
    else result
  else result.

(** INV-4 of [enforce]: the phase of [result] after the continuity step. *)
Definition clip_phase (ψ_before result : Ψ) : Ψ :=
  let Δθ := Rabs (θ result - θ ψ_before) in
  let Δθ := if Rlt_dec π Δθ then τ - Δθ else Δθ in
  if Rlt_dec PHASE_MAX Δθ then
    let direction := if Rlt_dec (θ ψ_before) (θ result) then 1 else -1 in
    set_θ result (pymod (θ ψ_before + direction * PHASE_MAX) τ)
  else result.

(** [InvariantGuardian.enforce] *)
Definition enforce (self : obj) (ψ_before ψ_after : Ψ) (L : R) : Ψ * obj :=
  let result := copy ψ_after in
  let floor := Rmax (Rmax 0 (_C_floor self - 0.002)) (C ψ_before - 0.1) in
  let result := set_C result (Rmax (C result) floor) in
  let result := set_κ result (Rmax κ_MIN (Rmin κ_MAX (κ result))) in
  let result := conserve_energy ψ_before result in
  let result := clip_phase ψ_before result in
  let result := if exceeds L (_L_prev self) then blend ψ_before result 0.7 else result in
  (_enforce result, {| _C_floor := floor; _L_prev := fin L |}).

End InvariantGuardian.

(** ** §10 Ma'at functional *)

Definition KERNEL_λ : R := λ KERNEL.

Module MaatFunctional.

Record obj := mk { λ : R }.

Definition __init__ : obj := {| λ := KERNEL_λ |}.

(** [MaatFunctional.__call__] *)
Definition __call__ (self : obj) (ψ M_inf : Ψ) (laplacian_κ : R) : outcome R :=
  obind (dist ψ M_inf) (fun d => Ok (d + λ self * Rabs laplacian_κ)).

End MaatFunctional.

(** ** §11 Governor *)

Inductive Governor :=
| ALLOW
| REBUILD
| BLOCK.

(** [Governor.value] *)
Definition value (g : Governor) : str :=
  match g with
  | ALLOW => lit "allow"
  | REBUILD => lit "rebuild"
  | BLOCK => lit "block"
  end.

Module MaatGovernor.

Record obj := mk {
  threshold : R;
  current : R
}.

Definition __init__ : obj := {| threshold := 0.75; current := 0.5 |}.

(** [MaatGovernor.judge] *)
Definition judge (self : obj) (ψ_in ψ_out : Ψ) (W : option Ψ)
  : outcome ((Governor * R) * obj) :=
  (let scores := [0.5 + (C ψ_out - C ψ_in)] in
   let scores :=
     if Rlt_dec ε (κ ψ_in) then scores ++ [1 - Rmin (κ ψ_out / κ ψ_in) 1]
     else scores in
   scores <- match W with
             | Some w => obind (inner ψ_out w) (fun a => Ok (scores ++ [(a + 1) / 2]))
             | None => Ok scores
             end ;;
   let cur := pysum scores / INR (List.length scores) in
   let self := {| threshold := threshold self; current := cur |} in
   if Rlt_dec cur (threshold self) then Ok ((REBUILD, cur), self)
   else Ok ((ALLOW, cur), self))%outcome.

End MaatGovernor.

(** ** §12 Forensic logger *)

Module ForensicLogger.

(** One log entry, the dictionary with keys i, Ψ, t, L and a. *)
Record entry := mkEntry {
  e_i : Z;
  e_Ψ : R * R * R * R * R;
  e_t : Z;
  e_L : R;
  e_a : R
}.

Record obj := mk {
  max_entries : nat;
  entries : list entry;
  session : str;
  count : Z
}.

Section WithPlatform.
Context {P : Platform}.

(** [ForensicLogger.__init__]; [now] is the reading of [time.time()]. *)
Definition __init__ (now : R) : obj :=
  {| max_entries := 2000;
     entries := [];
     session := sha256_hex8_float now;
     count := 0 |}.

(** [ForensicLogger.log] *)
Definition log (self : obj) (ψ : Ψ) (L : R) (ψ_a : Ψ) : obj :=
  let cnt := (count self + 1)%Z in
  {| max_entries := max_entries self;
     entries := deque_append (max_entries self) (entries self)
                  (mkEntry cnt (vec ψ) (t ψ) (round L 4) (round (C ψ_a) 4));
     session := session self;
     count := cnt |}.

End WithPlatform.
End ForensicLogger.

(** ** §13 The engine *)

(** [Result] *)
Record Result := mkResult {
  output : Ψ;
  coherence : R;
  maat : R;
  awareness : R;
  awareness_level : str;
  governor : str;
  steps : Z;
  signature : str
}.

Module ASCPI.

Record obj := mk {
  kernel : UnifiedTensorKernel.obj;
  memory : MemoryField.obj;
  awareness : AwarenessField.obj;
  coherence : CoherenceForce.obj;
  world : WorldCurvature.obj;
  guardian : InvariantGuardian.obj;
  maat : MaatFunctional.obj;
  governor : MaatGovernor.obj;
  log : ForensicLogger.obj;
  agent_id : str;
  step : Z;
  current : option Ψ
}.

(** Attribute assignments on the engine. *)
Definition with_kernel (e : obj) x :=
  mk x (memory e) (awareness e) (coherence e) (world e) (guardian e) (maat e)
     (governor e) (log e) (agent_id e) (step e) (current e).
Definition with_memory (e : obj) x :=
  mk (kernel e) x (awareness e) (coherence e) (world e) (guardian e) (maat e)
     (governor e) (log e) (agent_id e) (step e) (current e).
Definition with_awareness (e : obj) x :=
  mk (kernel e) (memory e) x (coherence e) (world e) (guardian e) (maat e)
     (governor e) (log e) (agent_id e) (step e) (current e).
Definition with_coherence (e : obj) x :=
  mk (kernel e) (memory e) (awareness e) x (world e) (guardian e) (maat e)
     (governor e) (log e) (agent_id e) (step e) (current e).
Definition with_world (e : obj) x :=
  mk (kernel e) (memory e) (awareness e) (coherence e) x (guardian e) (maat e)
     (governor e) (log e) (agent_id e) (step e) (current e).
Definition with_guardian (e : obj) x :=
  mk (kernel e) (memory e) (awareness e) (coherence e) (world e) x (maat e)
     (governor e) (log e) (agent_id e) (step e) (current e).
Definition with_governor (e : obj) x :=
  mk (kernel e) (memory e) (awareness e) (coherence e) (world e) (guardian e) (maat e)
     x (log e) (agent_id e) (step e) (current e).
Definition with_log (e : obj) x :=
  mk (kernel e) (memory e) (awareness e) (coherence e) (world e) (guardian e) (maat e)
     (governor e) x (agent_id e) (step e) (current e).
Definition with_step (e : obj) x :=
  mk (kernel e) (memory e) (awareness e) (coherence e) (world e) (guardian e) (maat e)
     (governor e) (log e) (agent_id e) x (current e).
Definition with_current (e : obj) x :=
  mk (kernel e) (memory e) (awareness e) (coherence e) (world e) (guardian e) (maat e)
     (governor e) (log e) (agent_id e) (step e) x.

(** *** The state-and-exception monad of [process]

    The state is the engine object and the module-global [KERNEL]
    dictionary; it survives an exception. *)
Definition state := (obj * KernelParams)%type.
Definition M (A : Type) := state -> outcome A * state.

Definition ret {A} (a : A) : M A := fun s => (Ok a, s).
Definition bind {A B} (m : M A) (k : A -> M B) : M B :=
  fun s =>
    match m s with
    | (Ok a, s') => k a s'
    | (Raise e, s') => (Raise e, s')
    end.
Definition raise {A} (e : exn) : M A := fun s => (Raise e, s).
Definition lift {A} (o : outcome A) : M A := fun s => (o, s).
Definition gets {A} (f : obj -> A) : M A := fun s => (Ok (f (fst s)), s).
Definition modify (f : obj -> obj) : M unit := fun s => (Ok tt, (f (fst s), snd s)).
Definition get_KERNEL : M KernelParams := fun s => (Ok (snd s), s).
Definition put_KERNEL (p : KernelParams) : M unit := fun s => (Ok tt, (fst s, p)).

Declare Scope engine_scope.
Delimit Scope engine_scope with engine.
Notation "x <- c ;; k" := (bind c (fun x => k))
  (at level 61, c at next level, right associativity) : engine_scope.
Notation "' p <- c ;; k" := (bind c (fun p => k))
  (at level 61, p pattern, c at next level, right associativity) : engine_scope.
Notation "c ;; k" := (bind c (fun _ => k))
  (at level 61, right associativity) : engine_scope.

(** Reading a local variable that may not have been assigned yet. *)
Definition read_local {A} (v : option A) : M A :=
  match v with
  | Some a => ret a
  | None => raise UnboundLocalError
  end.

Fixpoint for_each {A} (l : list A) (body : A -> M unit) : M unit :=
  match l with
  | [] => ret tt
  | x :: l' => bind (body x) (fun _ => for_each l' body)
  end.

(** The locals of [process] that the loops carry. *)
Record locals := mkLocals {
  v_current : Ψ;
  v_trajectory : list R;
  v_coherences : option (list (str * (R * R)));
  v_attractor : option Ψ
}.

Definition opt_list {A} (o : option A) : list A :=
  match o with Some a => [a] | None => [] end.

Section WithPlatform.
Context {P : Platform}.

(** [ASCPI.__init__]; [now] is the clock reading the logger takes. *)
Definition __init__ (agent : str) (now : R) : obj :=
  {| kernel := UnifiedTensorKernel.__init__;
     memory := MemoryField.__init__;
     awareness := AwarenessField.__init__;
     coherence := CoherenceForce.__init__;
     world := WorldCurvature.__init__;
     guardian := InvariantGuardian.__init__;
     maat := MaatFunctional.__init__;
     governor := MaatGovernor.__init__;
     log := ForensicLogger.__init__ now;
     agent_id := agent;
     step := 0;
     current := None |}.

(** First half of an evolution iteration (source lines 904-922): snapshot,
    coherence force, kernel.  Returns [before] and the locals with
    [current] bound to the kernel's output. *)
Definition evolve_kernel (ψ_lang : Ψ) (ψ_code W : option Ψ) (v : locals)
  : M (Ψ * locals) :=
  (let before := copy (v_current v) in
   mem <- gets memory ;;
   aw <- gets awareness ;;
   let coherences :=
     [(lit "lang", (C ψ_lang, κ ψ_lang));
      (lit "mem", (C (MemoryField.M_inf mem), κ (MemoryField.M_inf mem)));
      (lit "aware", (C (AwarenessField.field aw), κ (AwarenessField.field aw)))]
     ++ map (fun c => (lit "code", (C c, κ c))) (opt_list ψ_code)
     ++ map (fun w => (lit "world", (C w, κ w))) (opt_list W) in
   cf <- gets coherence ;;
   let '((grad_C, C_fused), cf') := CoherenceForce.compute cf coherences in
   modify (fun e => with_coherence e cf') ;;
   mem <- gets memory ;;
   let attractor := MemoryField.attractor mem in
   p <- get_KERNEL ;;
   k <- gets kernel ;;
   let '(ψ', k') :=
     UnifiedTensorKernel.__call__ k p (v_current v) attractor
       (MemoryField.M_inf mem) W grad_C in
   modify (fun e => with_kernel e k') ;;
   ret (before,
        {| v_current := ψ';
           v_trajectory := v_trajectory v;
           v_coherences := Some coherences;
           v_attractor := Some attractor |}))%engine.

(** Memory coherence copied into [current], awareness, Ma'at and guardian
    (source lines 929-938 and 962-965). *)
Definition settle (W : option Ψ) (before current : Ψ) : M (Ψ * R) :=
  (mem <- gets memory ;;
   let current := set_C current (C (MemoryField.M_inf mem)) in
   aw <- gets awareness ;;
   '(current, aw') <- lift (AwarenessField.evolve aw current (MemoryField.M_inf mem) W) ;;
   modify (fun e => with_awareness e aw') ;;
   mt <- gets maat ;;
   L <- lift (MaatFunctional.__call__ mt current (MemoryField.M_inf mem) 0.0) ;;
   g <- gets guardian ;;
   let '(current, g') := InvariantGuardian.enforce g before current L in
   modify (fun e => with_guardian e g') ;;
   ret (current, L))%engine.

(** Second half of an evolution iteration (source lines 924-946).  The
    boolean is the [break] condition. *)
Definition evolve_settle (ψ_lang : Ψ) (ψ_code W : option Ψ) (before : Ψ) (v : locals)
  : M (locals * bool) :=
  (modify (fun e => with_memory e (MemoryField.absorb (memory e) (v_current v) 0.2)) ;;
   modify (fun e => with_memory e (MemoryField.fuse (memory e) ([ψ_lang] ++ opt_list ψ_code))) ;;
   '(current, L) <- settle W before (v_current v) ;;
   modify (fun e =>
     with_log e (ForensicLogger.log (log e) current L (AwarenessField.field (awareness e)))) ;;
   ret ({| v_current := current;
           v_trajectory := v_trajectory v ++ [C current];
           v_coherences := v_coherences v;
           v_attractor := v_attractor v |},
        Rltb 0.95 (C current)))%engine.

(** [for step in range(n)] of the evolution loop. *)
Fixpoint evolution_loop (n : nat) (ψ_lang : Ψ) (ψ_code W : option Ψ) (v : locals)
  : M locals :=
  match n with
  | O => ret v
  | S n' =>
    (' (before, v1) <- evolve_kernel ψ_lang ψ_code W v ;;
     ' (v2, stop) <- evolve_settle ψ_lang ψ_code W before v1 ;;
     if stop : bool then ret v2 else evolution_loop n' ψ_lang ψ_code W v2)%engine
  end.

(** One of the extra iterations of the rebuild (source lines 958-965). *)
Definition rebuild_step (W : option Ψ) (v : locals) : M locals :=
  (let before := copy (v_current v) in
   coherences <- read_local (v_coherences v) ;;
   cf <- gets coherence ;;
   let '((grad_C, _), cf') := CoherenceForce.compute cf coherences in
   modify (fun e => with_coherence e cf') ;;
   attractor <- read_local (v_attractor v) ;;
   mem <- gets memory ;;
   p <- get_KERNEL ;;
   k <- gets kernel ;;
   let '(ψ', k') :=
     UnifiedTensorKernel.__call__ k p (v_current v) attractor
       (MemoryField.M_inf mem) W grad_C in
   modify (fun e => with_kernel e k') ;;
   modify (fun e => with_memory e (MemoryField.absorb (memory e) ψ' 0.2)) ;;
   '(current, _) <- settle W before ψ' ;;
   ret {| v_current := current;
          v_trajectory := v_trajectory v;
          v_coherences := v_coherences v;
          v_attractor := v_attractor v |})%engine.

(** [for _ in range(n)] of the rebuild. *)
Fixpoint rebuild_loop (n : nat) (W : option Ψ) (v : locals) : M locals :=
  match n with
  | O => ret v
  | S n' => bind (rebuild_step W v) (rebuild_loop n' W)
  end.

(** The rebuild branch (source lines 953-966). *)
Definition rebuild (W : option Ψ) (v : locals) : M locals :=
  (p <- get_KERNEL ;;
   let old_α := α p in
   put_KERNEL (set_α p (α p * 1.5)) ;;
   v' <- rebuild_loop 10 W v ;;
   p' <- get_KERNEL ;;
   put_KERNEL (set_α p' old_α) ;;
   ret v')%engine.

(** [ASCPI.process] *)
Definition process (text : str) (code : option str)
    (world_arg : option (list (str * str))) (max_steps : Z) : M Result :=
  (modify (fun e => with_step e (step e + 1)%Z) ;;
   modify (fun e => with_guardian e (InvariantGuardian.reset (guardian e))) ;;
   ψ_lang <- lift (Encoder.text text (lit "lang")) ;;
   ψ_code <- match code with
             | Some ((_ :: _) as c) => bind (lift (Encoder.code c)) (fun x => ret (Some x))
             | _ => ret None
             end ;;
   match world_arg with
   | Some ((_ :: _) as items) =>
     for_each items (fun it =>
       bind (lift (Encoder.text (snd it) (lit "world"))) (fun ψ =>
         modify (fun e => with_world e (WorldCurvature.add (world e) (fst it) ψ))))
   | _ => ret tt
   end ;;
   W <- gets (fun e => WorldCurvature.field (world e)) ;;
   mem <- gets memory ;;
   aw <- gets awareness ;;
   let fields :=
     [ψ_lang; MemoryField.attractor mem; AwarenessField.field aw]
     ++ opt_list ψ_code ++ opt_list W in
   current <- lift (MultimodalProjector.project fields) ;;
   v <- evolution_loop (Z.to_nat max_steps) ψ_lang ψ_code W
          {| v_current := current; v_trajectory := [];
             v_coherences := None; v_attractor := None |} ;;
   gv <- gets governor ;;
   '((decision, score), gv') <- lift (MaatGovernor.judge gv ψ_lang (v_current v) W) ;;
   modify (fun e => with_governor e gv') ;;
   v <- match decision with
        | REBUILD => rebuild W v
        | _ => ret v
        end ;;
   let current := v_current v in
   modify (fun e => with_current e (Some current)) ;;
   let sig := sha256_hex8_vec (vec current) in
   aw <- gets awareness ;;
   ret (mkResult current
                  (C current)
                  score
                  (C (AwarenessField.field aw))
                  (AwarenessField.level aw)
                  (value decision)
                  (Z.of_nat (List.length (v_trajectory v)))
                  sig))%engine.

End WithPlatform.
End ASCPI.

(** ** A sample platform

    Used to evaluate the encoder and the engine on concrete strings.
    [isspace] is Python's [str.isspace]; [category] is
    [unicodedata.category] on ASCII, the C1 controls, the no-break space and
    the combining diacritical marks, and answers So elsewhere. *)
Definition in_range (lo hi c : codepoint) : bool := (lo <=? c)%N && (c <=? hi)%N.

Definition one_of (l : list codepoint) (c : codepoint) : bool :=
  existsb (N.eqb c) l.

Definition sample_isspace (c : codepoint) : bool :=
  in_range 9 13 c || in_range 28 32 c
  || one_of [133; 160; 5760; 8232; 8233; 8239; 8287; 12288]%N c
  || in_range 8192 8202 c.

Definition sample_category (c : codepoint) : string :=
  if in_range 97 122 c then "Ll"
  else if in_range 65 90 c then "Lu"
  else if in_range 48 57 c then "Nd"
  else if one_of [32; 160]%N c then "Zs"
  else if in_range 0 31 c || in_range 127 159 c then "Cc"
  else if (c =? 36)%N then "Sc"
  else if one_of [43; 60; 61; 62; 124; 126]%N c then "Sm"
  else if one_of [40; 91; 123]%N c then "Ps"
  else if one_of [41; 93; 125]%N c then "Pe"
  else if (c =? 45)%N then "Pd"
  else if (c =? 95)%N then "Pc"
  else if one_of [94; 96]%N c then "Sk"
  else if in_range 33 126 c then "Po"
  else if in_range 768 879 c then "Mn"
  else "So".

Definition sample_platform : Platform :=
  {| isspace := sample_isspace;
     category := sample_category;
     round := fun x _ => x;
     sha256_hex8_vec := fun _ => [];
     sha256_hex8_float := fun _ => [] |}.

(** * Properties *)

(** ** Arithmetic of the constants and of [%] *)

Lemma ε_pos : 0 < ε.
Proof. unfold ε. lra. Qed.

Lemma π_pos : 0 < π.
Proof. exact PI_RGT_0. Qed.

Lemma τ_pos : 0 < τ.
Proof. unfold τ. pose proof π_pos. lra. Qed.

Lemma Rabs_le_bounds (x y : R) : Rabs x <= y -> - y <= x <= y.
Proof. unfold Rabs. destruct (Rcase_abs x); lra. Qed.

Lemma Rabs_lt_bounds (x y : R) : Rabs x < y -> - y < x < y.
Proof. unfold Rabs. destruct (Rcase_abs x); lra. Qed.

Lemma pymod_bounds (x m : R) : 0 < m -> 0 <= pymod x m < m.
Proof.
  intros Hm. unfold pymod.
  destruct (base_Int_part (x / m)) as [Hle Hgt].
  assert (Hx : m * (x / m) = x) by (field; lra).
  set (q := x / m) in *. set (f := IZR (Int_part q)) in *.
  split; nra.
Qed.

Lemma pymod_shift (x m : R) (k : Z) :
  0 < m -> 0 <= x + IZR k * m < m -> pymod x m = x + IZR k * m.
Proof.
  intros Hm Hr. unfold pymod.
  assert (Hq : (- k)%Z = Int_part (x / m)).
  { apply Int_part_spec. rewrite opp_IZR.
    assert (Hx : x / m = (x + IZR k * m) / m - IZR k) by (field; lra).
    rewrite Hx. set (y := x + IZR k * m) in *.
    assert (0 <= y / m < 1).
    { split.
      - apply Rmult_le_pos; [lra | left; apply Rinv_0_lt_compat; lra].
      - apply (Rmult_lt_reg_r m); [lra |]. unfold Rdiv.
        rewrite Rmult_assoc, Rinv_l; lra. }
    lra. }
  rewrite <- Hq, opp_IZR. ring.
Qed.

Lemma pymod_small (x m : R) : 0 <= x < m -> pymod x m = x.
Proof.
  intros Hx. assert (Hm : 0 < m) by lra.
  rewrite (pymod_shift x m 0 Hm); simpl; lra.
Qed.

Lemma pymod_idem (x m : R) : 0 < m -> pymod (pymod x m) m = pymod x m.
Proof. intros Hm. apply pymod_small, pymod_bounds, Hm. Qed.

(** The remainder of the opposite number. *)
Lemma pymod_opp (y m : R) :
  0 < m ->
  pymod (- y) m = if Req_dec_T (pymod y m) 0 then 0 else m - pymod y m.
Proof.
  intros Hm. pose proof (pymod_bounds y m Hm) as Hp.
  assert (E : pymod y m = y - m * IZR (Int_part (y / m))) by reflexivity.
  set (q := Int_part (y / m)) in *. set (p := pymod y m) in *.
  destruct (Req_dec_T p 0) as [H0 | Hn].
  - rewrite (pymod_shift (- y) m q Hm); lra.
  - rewrite (pymod_shift (- y) m (q + 1) Hm); rewrite plus_IZR; simpl; lra.
Qed.

(** With exact rounding the float [%] is the exact one. *)
Lemma float_mod_exact (x m : R) : 0 < m -> float_mod (fun r => r) x m = pymod x m.
Proof.
  intros Hm. unfold float_mod, fmod. cbv zeta.
  destruct (Rle_dec 0 x) as [Hx | Hx].
  - pose proof (pymod_bounds x m Hm).
    destruct (Req_dec_T (pymod x m) 0); [lra |].
    destruct (Rlt_dec (pymod x m) 0); lra.
  - pose proof (pymod_bounds (- x) m Hm) as Hp.
    pose proof (pymod_opp (- x) m Hm) as Ho. rewrite Ropp_involutive in Ho.
    destruct (Req_dec_T (pymod (- x) m) 0) as [H0 | Hn].
    + destruct (Req_dec_T (- pymod (- x) m) 0); lra.
    + destruct (Req_dec_T (- pymod (- x) m) 0); [lra |].
      destruct (Rlt_dec (- pymod (- x) m) 0); lra.
Qed.

(** On an operand that is not negative the float [%] does not round. *)
Lemma float_mod_nonneg (rnd : R -> R) (x m : R) :
  0 < m -> 0 <= x -> float_mod rnd x m = pymod x m.
Proof.
  intros Hm Hx. unfold float_mod, fmod. cbv zeta.
  destruct (Rle_dec 0 x); [| lra].
  pose proof (pymod_bounds x m Hm).
  destruct (Req_dec_T (pymod x m) 0); [lra |].
  destruct (Rlt_dec (pymod x m) 0); lra.
Qed.

(** ** The bound invariants of a field state *)

(** INV-2 and the three other range conditions of [Ψ]. *)
Definition bounded (ψ : Ψ) : Prop :=
  (κ_MIN <= κ ψ <= κ_MAX) /\ (0 <= θ ψ < τ) /\ (0 <= C ψ <= 1) /\ 0 < N ψ.

Lemma clamp_range (lo hi x : R) : lo <= hi -> lo <= Rmax lo (Rmin hi x) <= hi.
Proof.
  intros H. unfold Rmax, Rmin.
  repeat (destruct (Rle_dec _ _)); lra.
Qed.

Lemma clamp_id (lo hi x : R) : lo <= x <= hi -> Rmax lo (Rmin hi x) = x.
Proof.
  intros H. unfold Rmax, Rmin.
  repeat (destruct (Rle_dec _ _)); lra.
Qed.

Lemma _enforce_bounded (ψ : Ψ) : bounded (_enforce ψ).
Proof.
  unfold bounded, _enforce; simpl. repeat split.
  - apply clamp_range. unfold κ_MIN, κ_MAX. lra.
  - apply clamp_range. unfold κ_MIN, κ_MAX. lra.
  - apply pymod_bounds, τ_pos.
  - apply pymod_bounds, τ_pos.
  - apply clamp_range. lra.
  - apply clamp_range. lra.
  - pose proof ε_pos. pose proof (Rmax_l ε (N ψ)). lra.
Qed.

Lemma _enforce_N_ge (ψ : Ψ) : ε <= N (_enforce ψ).
Proof. simpl. apply Rmax_l. Qed.

Lemma new_Ψ_bounded dphi kappa theta n c step s :
  bounded (new_Ψ dphi kappa theta n c step s).
Proof. apply _enforce_bounded. Qed.

Lemma copy_bounded (ψ : Ψ) : bounded (copy ψ).
Proof. apply _enforce_bounded. Qed.

Lemma blend_bounded (a b : Ψ) (w : R) : bounded (blend a b w).
Proof. apply _enforce_bounded. Qed.

(** [_enforce] is the identity on the numeric fields of a bounded state
    whose energy is at least ε. *)
Lemma _enforce_id (ψ : Ψ) : bounded ψ -> ε <= N ψ -> _enforce ψ = ψ.
Proof.
  intros (Hκ & Hθ & HC & HN) Hε. destruct ψ as [d k th n c st sr]; simpl in *.
  unfold _enforce; simpl. f_equal.
  - rewrite Rabs_right by (unfold κ_MIN in Hκ; lra). apply clamp_id, Hκ.
  - apply pymod_small, Hθ.
  - apply Rmax_right, Hε.
  - apply clamp_id, HC.
Qed.

Lemma _enforce_rounded_exact (ψ : Ψ) : _enforce_rounded (fun r => r) ψ = _enforce ψ.
Proof. unfold _enforce_rounded, _enforce. rewrite (float_mod_exact _ _ τ_pos). reflexivity. Qed.

Lemma _enforce_rounded_nonneg (rnd : R -> R) (ψ : Ψ) :
  0 <= θ ψ -> _enforce_rounded rnd ψ = _enforce ψ.
Proof.
  intros H. unfold _enforce_rounded, _enforce.
  rewrite (float_mod_nonneg rnd _ _ τ_pos H). reflexivity.
Qed.

(** ** The kernel's frame: coherence and step counter *)

(** C6. For an input state whose coherence lies in [0, 1], and any
    attractor, memory state, optional world state, gradient and kernel
    parameters, the kernel's output has exactly the input's coherence and
    the input's step counter plus one. *)
Theorem kernel_keeps_coherence_and_increments_step
    (self : UnifiedTensorKernel.obj) (p : KernelParams)
    (ψ A M_inf : Ψ) (W : option Ψ) (grad_C : R) :
  0 <= C ψ <= 1 ->
  let out := fst (UnifiedTensorKernel.__call__ self p ψ A M_inf W grad_C) in
  C out = C ψ /\ t out = (t ψ + 1)%Z.
Proof.
  intros HC. unfold UnifiedTensorKernel.__call__. cbv zeta.
  destruct W; simpl; (split; [| reflexivity]);
    rewrite (clamp_id 0 1 (C ψ)) by exact HC; apply clamp_id, HC.
Qed.

(** The kernel call of the repository's own check [kernel_applies]:
    [ψ0 = Ψ(C=0.5, κ=0.8)], [kernel(ψ0, ψ0, ψ0, None, 0.1)]. *)
Lemma kernel_keeps_coherence_witness :
  let ψ0 := new_Ψ default_ΔΦ 0.8 default_θ default_N 0.5 default_t default_src in
  let out := fst (UnifiedTensorKernel.__call__ UnifiedTensorKernel.__init__ KERNEL
                    ψ0 ψ0 ψ0 None 0.1) in
  C out = C ψ0 /\ t out = (t ψ0 + 1)%Z.
Proof.
  intros ψ0.
  apply (kernel_keeps_coherence_and_increments_step
           UnifiedTensorKernel.__init__ KERNEL ψ0 ψ0 ψ0 None 0.1).
  unfold ψ0; simpl. unfold Rmax, Rmin; repeat destruct (Rle_dec _ _); lra.
Defined.

(** ** The encoder on blank input *)

Lemma default_Ψ_fields (s : str) :
  default_Ψ s = mkΨ 0 1 0 1 0.5 0 s.
Proof.
  unfold default_Ψ, new_Ψ, _enforce, default_ΔΦ, default_κ, default_θ,
    default_N, default_C, default_t; simpl.
  f_equal.
  - lra.
  - rewrite Rabs_right by lra.
    unfold κ_MIN, κ_MAX, Rmax, Rmin; repeat destruct (Rle_dec _ _); lra.
  - rewrite pymod_small; [lra | pose proof τ_pos; lra].
  - unfold ε, Rmax; destruct (Rle_dec _ _); lra.
  - unfold Rmax, Rmin; repeat destruct (Rle_dec _ _); lra.
Qed.

Section BlankInput.
Context {P : Platform}.

Lemma clusters_loop_blank (txt : str) :
  Forall (fun c => isspace c = true) txt ->
  forall fuel clusters,
    (List.length txt <= fuel)%nat ->
    Encoder.clusters_loop fuel clusters [] txt = Ok clusters.
Proof.
  induction 1 as [| c txt Hc Htxt IH]; intros fuel clusters Hfuel.
  - destruct fuel; reflexivity.
  - destruct fuel as [| fuel]; simpl in Hfuel; [lia |].
    simpl. rewrite Hc. apply IH. lia.
Qed.

Lemma graphemes_blank (txt : str) :
  Forall (fun c => isspace c = true) txt -> Encoder.graphemes txt = Ok [].
Proof.
  intros H. unfold Encoder.graphemes. destruct txt as [| c txt]; [reflexivity |].
  apply clusters_loop_blank; [exact H | lia].
Qed.

Lemma text_blank (txt source : str) :
  Forall (fun c => isspace c = true) txt ->
  Encoder.text txt source = Ok (default_Ψ source).
Proof.
  intros H. unfold Encoder.text. rewrite (graphemes_blank txt H). reflexivity.
Qed.

End BlankInput.

(** C3, as the code has it. Encoding an empty or whitespace-only string
    returns the dataclass defaults of [Ψ]: tension 0, curvature 1, phase 0,
    energy 1 and coherence 0.5 (step 0, the given source tag). *)
Theorem text_blank_returns_defaults {P : Platform} (txt source : str) :
  Forall (fun c => isspace c = true) txt ->
  Encoder.text txt source = Ok (mkΨ 0 1 0 1 0.5 0 source).
Proof.
  intros H. rewrite (text_blank txt source H), default_Ψ_fields. reflexivity.
Qed.

(** A space followed by a tab, on the sample platform. *)
Lemma text_blank_returns_defaults_witness :
  Encoder.text (P := sample_platform) [32; 9]%N (lit "lang")
  = Ok (mkΨ 0 1 0 1 0.5 0 (lit "lang")).
Proof.
  apply (text_blank_returns_defaults (P := sample_platform) [32; 9]%N (lit "lang")).
  repeat constructor.
Defined.

(** C3, as stated, fails on the empty string: the state returned has
    coherence 0.5 and energy 1, not coherence 0 and energy ε. *)
Lemma text_empty_not_zero_coherence_floor_energy :
  ~ (exists ψ, Encoder.text (P := sample_platform) [] (lit "lang") = Ok ψ
               /\ ΔΦ ψ = 0 /\ κ ψ = 1 /\ θ ψ = 0 /\ C ψ = 0 /\ N ψ = ε).
Proof.
  intros (ψ & Hψ & _ & _ & _ & HC & HN).
  rewrite (text_blank_returns_defaults (P := sample_platform) [] (lit "lang")) in Hψ
    by constructor.
  injection Hψ as <-. simpl in HC. lra.
Qed.

(** ** The guardian's energy conservation (INV-3) *)

Lemma Rmax_idem_l (a b : R) : Rmax a (Rmax a b) = Rmax a b.
Proof. unfold Rmax; repeat destruct (Rle_dec _ _); lra. Qed.

Lemma N_blend (a b : Ψ) (w : R) :
  N (blend a b w) = Rmax ε (w * N a + (1 - w) * N b).
Proof. unfold blend, new_Ψ, _enforce; simpl. apply Rmax_idem_l. Qed.

Lemma N_clip_phase (b r : Ψ) : N (InvariantGuardian.clip_phase b r) = N r.
Proof.
  unfold InvariantGuardian.clip_phase.
  repeat match goal with |- context [Rlt_dec ?a ?b] => destruct (Rlt_dec a b) end;
    reflexivity.
Qed.

(** The band boundary INV-3 moves a deviating energy to. *)
Definition energy_boundary (n_before n_after : R) : R :=
  n_before * (1 + ENERGY_δ * (if Rlt_dec 1 (n_after / n_before) then 1 else -1)).

(** The energy [enforce] returns, in closed form. *)
Lemma N_enforce (g : InvariantGuardian.obj) (before after : Ψ) (L : R) :
  ε < N before ->
  let n := Rmax ε (N after) in
  let kept :=
    if Rlt_dec ENERGY_δ (Rabs (n / N before - 1))
    then energy_boundary (N before) n else n in
  N (fst (InvariantGuardian.enforce g before after L))
  = Rmax ε (if exceeds L (InvariantGuardian._L_prev g)
            then 0.7 * N before + (1 - 0.7) * kept else kept).
Proof.
  intros Hb n kept. unfold InvariantGuardian.enforce. cbv zeta.
  cbn [fst]. unfold _enforce at 1. cbn [N].
  set (r0 := set_κ _ _).
  assert (Hr0 : N r0 = n) by reflexivity.
  assert (Hc : N (InvariantGuardian.conserve_energy before r0) = kept).
  { unfold InvariantGuardian.conserve_energy, kept, energy_boundary.
    destruct (Rlt_dec ε (N before)) as [_ | Hn]; [| contradiction].
    rewrite Hr0. destruct (Rlt_dec ENERGY_δ _); [reflexivity | exact Hr0]. }
  destruct (exceeds L _).
  - rewrite N_blend, N_clip_phase, Hc. apply Rmax_idem_l.
  - rewrite N_clip_phase, Hc. reflexivity.
Qed.

Lemma kept_in_band (nb n : R) :
  0 < nb ->
  let kept := if Rlt_dec ENERGY_δ (Rabs (n / nb - 1))
              then energy_boundary nb n else n in
  nb * (1 - ENERGY_δ) <= kept <= nb * (1 + ENERGY_δ).
Proof.
  intros Hnb kept. unfold kept, energy_boundary, ENERGY_δ.
  destruct (Rlt_dec 0.2 _) as [Hd | Hd].
  - destruct (Rlt_dec 1 _); split; nra.
  - apply Rnot_lt_le in Hd.
    assert (Hn : n = nb * (n / nb)) by (field; lra).
    apply Rabs_le_bounds in Hd. split; nra.
Qed.

Lemma ratio_in_band (nb x : R) :
  ε < nb ->
  nb * (1 - ENERGY_δ) <= x <= nb * (1 + ENERGY_δ) ->
  Rabs (Rmax ε x / nb - 1) <= ENERGY_δ.
Proof.
  intros Hnb Hx. pose proof ε_pos as Hε. unfold ENERGY_δ in *.
  assert (Hm : nb * (1 - 0.2) <= Rmax ε x <= nb * (1 + 0.2)).
  { unfold Rmax; destruct (Rle_dec ε x); split; nra. }
  apply Rabs_le. split.
  - apply (Rmult_le_reg_r nb); [lra |]. unfold Rdiv, Rminus.
    rewrite Rmult_plus_distr_r, Rmult_assoc, Rinv_l by lra. lra.
  - apply (Rmult_le_reg_r nb); [lra |]. unfold Rdiv, Rminus.
    rewrite Rmult_plus_distr_r, Rmult_assoc, Rinv_l by lra. lra.
Qed.

(** C7, as the code has it. For a before-state with energy above ε, any
    after-state, loss and guardian state, the energy [enforce] returns is
    within the tolerance 0.2 of the before-energy (as a ratio).  When the
    supplied after-energy (floored at ε) deviates by more than the
    tolerance, INV-3 moves it to the band boundary; the returned energy
    is that boundary, floored at ε, unless the loss exceeds 1.3 times the
    previous loss, in which case it is the 0.7/0.3 blend of the
    before-energy and the boundary, floored at ε. *)
Theorem guardian_energy_band
    (g : InvariantGuardian.obj) (before after : Ψ) (L : R) :
  ε < N before ->
  let out := fst (InvariantGuardian.enforce g before after L) in
  let n := Rmax ε (N after) in
  Rabs (N out / N before - 1) <= ENERGY_δ
  /\ (ENERGY_δ < Rabs (n / N before - 1) ->
      N out = Rmax ε (if exceeds L (InvariantGuardian._L_prev g)
                      then 0.7 * N before + 0.3 * energy_boundary (N before) n
                      else energy_boundary (N before) n)).
Proof.
  intros Hb out n. pose proof ε_pos as Hε.
  pose proof (N_enforce g before after L Hb) as HN. cbv zeta in HN.
  fold out n in HN.
  pose proof (kept_in_band (N before) n ltac:(lra)) as Hk. cbv zeta in Hk.
  split.
  - rewrite HN. apply ratio_in_band; [exact Hb |].
    destruct (exceeds L _); [| exact Hk].
    unfold ENERGY_δ in *. split; nra.
  - intros Hdev. rewrite HN.
    destruct (Rlt_dec ENERGY_δ _) as [_ | Hn]; [| contradiction].
    destruct (exceeds L _); [f_equal; lra | reflexivity].
Qed.

(** A guardian that has seen the loss 1, a before-state of energy 1, an
    after-state of energy 2 and the loss 2. *)
Definition guardian_after_loss_1 : InvariantGuardian.obj :=
  snd (InvariantGuardian.enforce InvariantGuardian.__init__
         (default_Ψ default_src) (default_Ψ default_src) 1).

Lemma guardian_after_loss_1_prev :
  InvariantGuardian._L_prev guardian_after_loss_1 = fin 1.
Proof. reflexivity. Qed.

Lemma N_default_Ψ (s : str) (n : R) :
  ε <= n ->
  N (new_Ψ default_ΔΦ default_κ default_θ n default_C default_t s) = n.
Proof. intros H. simpl. apply Rmax_right, H. Qed.

(** The energy returned at that input. *)
Lemma guardian_blend_energy :
  let before := default_Ψ default_src in
  let after := new_Ψ default_ΔΦ default_κ default_θ 2 default_C default_t default_src in
  N before = 1 /\ N after = 2
  /\ N (fst (InvariantGuardian.enforce guardian_after_loss_1 before after 2)) = 1.06.
Proof.
  intros before after.
  assert (Hb : N before = 1).
  { unfold before. rewrite default_Ψ_fields. reflexivity. }
  assert (Ha : N after = 2).
  { unfold after. apply N_default_Ψ. unfold ε. lra. }
  repeat split; try assumption.
  rewrite N_enforce by (rewrite Hb; unfold ε; lra).
  rewrite guardian_after_loss_1_prev, Ha, Hb. unfold exceeds, Rltb.
  destruct (Rlt_dec (1 * 1.3) 2) as [_ | Hn]; [| lra].
  assert (Hm : Rmax ε 2 = 2) by (apply Rmax_right; unfold ε; lra).
  rewrite Hm. unfold ENERGY_δ, energy_boundary.
  destruct (Rlt_dec 0.2 (Rabs (2 / 1 - 1))) as [_ | Hn].
  - destruct (Rlt_dec 1 (2 / 1)) as [_ | Hn]; [| lra].
    unfold ENERGY_δ. rewrite Rmax_right; unfold ε; lra.
  - exfalso. apply Hn. replace (2 / 1 - 1) with 1 by lra. rewrite Rabs_R1. lra.
Qed.

Lemma guardian_energy_band_witness :
  let before := default_Ψ default_src in
  let after := new_Ψ default_ΔΦ default_κ default_θ 2 default_C default_t default_src in
  let out := fst (InvariantGuardian.enforce guardian_after_loss_1 before after 2) in
  Rabs (N out / N before - 1) <= ENERGY_δ
  /\ N out = Rmax ε (0.7 * N before + 0.3 * energy_boundary (N before) (Rmax ε (N after))).
Proof.
  intros before after out.
  destruct guardian_blend_energy as (Hb & Ha & _). fold before after in Hb, Ha.
  assert (He : ε < N before) by (rewrite Hb; unfold ε; lra).
  destruct (guardian_energy_band guardian_after_loss_1 before after 2 He)
    as [Hband Hedge].
  split; [exact Hband |].
  fold out in Hedge. rewrite Hedge.
  - rewrite guardian_after_loss_1_prev. unfold exceeds, Rltb.
    destruct (Rlt_dec (1 * 1.3) 2) as [_ | Hn]; [reflexivity | lra].
  - rewrite Ha, Hb.
    assert (Hm : Rmax ε 2 = 2) by (apply Rmax_right; unfold ε; lra).
    rewrite Hm. unfold ENERGY_δ.
    replace (2 / 1 - 1) with 1 by lra. rewrite Rabs_R1. lra.
Defined.

(** C7, as stated, fails when the damping blend of INV-5 applies: with a
    previous loss 1, a before-energy 1, an after-energy 2 and a loss 2, the
    after-energy deviates by more than the tolerance, yet the returned
    energy is 1.06, on neither boundary of the band. *)
Lemma guardian_energy_not_on_boundary :
  let before := default_Ψ default_src in
  let after := new_Ψ default_ΔΦ default_κ default_θ 2 default_C default_t default_src in
  let out := fst (InvariantGuardian.enforce guardian_after_loss_1 before after 2) in
  ~ (ENERGY_δ < Rabs (N after / N before - 1) ->
     N out = N before * (1 + ENERGY_δ) \/ N out = N before * (1 - ENERGY_δ)).
Proof.
  intros before after out Hclaim.
  destruct guardian_blend_energy as (Hb & Ha & Hout).
  fold before after in Hb, Ha, Hout. fold out in Hout.
  rewrite Ha, Hb, Hout in Hclaim. unfold ENERGY_δ in Hclaim.
  destruct Hclaim as [H | H]; try lra.
  replace (2 / 1 - 1) with 1 by lra. rewrite Rabs_R1. lra.
Qed.

(** ** Memory coherence between consecutive absorptions (INV-1) *)

(** The state of [M_inf] when [absorb] appends it to the history. *)
Definition absorbed (self : MemoryField.obj) (ψ : Ψ) (rate : R) : Ψ :=
  let weight := tanh (C ψ * 2) * rate in
  let M := MemoryField.M_inf self in
  let sin_b := (1 - weight) * sin (θ M) + weight * sin (θ ψ) in
  let cos_b := (1 - weight) * cos (θ M) + weight * cos (θ ψ) in
  mkΨ ((1 - weight) * ΔΦ M + weight * ΔΦ ψ * 0.9)
      ((1 - weight) * κ M + weight * κ ψ * 0.95)
      (pymod (atan2 sin_b cos_b) τ)
      ((1 - weight) * N M + weight * N ψ)
      (C M) (t M) (src M).

(** The Kuramoto order parameter of a list of phases. *)
Definition order_parameter (phases : list R) : R :=
  sqrt (pysum (map sin phases) ^ 2 + pysum (map cos phases) ^ 2)
  / INR (List.length phases).

Lemma absorb_history (m : MemoryField.obj) (ψ : Ψ) (rate : R) :
  MemoryField._history (MemoryField.absorb m ψ rate)
  = deque_append 100 (MemoryField._history m) (copy (absorbed m ψ rate)).
Proof.
  unfold MemoryField.absorb. cbv zeta.
  destruct (3 <=? _)%nat; reflexivity.
Qed.

Lemma absorb_C (m : MemoryField.obj) (ψ : Ψ) (rate : R) :
  let history := MemoryField._history (MemoryField.absorb m ψ rate) in
  let r := order_parameter (map θ history) in
  let floor := Rmax (MemoryField._C_floor m - 0.001) (r - 0.05) in
  C (MemoryField.M_inf (MemoryField.absorb m ψ rate))
  = Rmax 0 (Rmin 1 (if (3 <=? List.length history)%nat
                    then Rmax (Rmax r floor) (C (MemoryField.M_inf m) * 0.99)
                    else C (MemoryField.M_inf m))).
Proof.
  cbv zeta. rewrite absorb_history.
  unfold MemoryField.absorb. cbv zeta. fold (absorbed m ψ rate).
  destruct (3 <=? _)%nat; reflexivity.
Qed.

Lemma absorb_θ (m : MemoryField.obj) (ψ : Ψ) (rate : R) :
  θ (MemoryField.M_inf (MemoryField.absorb m ψ rate)) = θ (absorbed m ψ rate).
Proof.
  unfold MemoryField.absorb. cbv zeta. fold (absorbed m ψ rate).
  destruct (3 <=? _)%nat; simpl; apply pymod_idem, τ_pos.
Qed.

Lemma absorb_C_range (m : MemoryField.obj) (ψ : Ψ) (rate : R) :
  0 <= C (MemoryField.M_inf (MemoryField.absorb m ψ rate)) <= 1.
Proof. rewrite absorb_C. apply clamp_range. lra. Qed.

(** One absorption lowers the reported coherence by at most one percent. *)
Lemma absorb_C_decay (m : MemoryField.obj) (ψ : Ψ) (rate : R) :
  0 <= C (MemoryField.M_inf m) <= 1 ->
  C (MemoryField.M_inf m) * 0.99
  <= C (MemoryField.M_inf (MemoryField.absorb m ψ rate)).
Proof.
  intros Hc. rewrite absorb_C.
  set (c := C (MemoryField.M_inf m)) in *.
  destruct (3 <=? _)%nat.
  - match goal with |- _ <= Rmax 0 (Rmin 1 (Rmax ?a _)) => set (x := a) end.
    unfold Rmax, Rmin; repeat destruct (Rle_dec _ _); lra.
  - rewrite clamp_id by exact Hc. lra.
Qed.

(** A run of consecutive [absorb] calls on one memory. *)
Definition absorb_all (m : MemoryField.obj) (inputs : list (Ψ * R)) : MemoryField.obj :=
  fold_left (fun m i => MemoryField.absorb m (fst i) (snd i)) inputs m.

Lemma absorb_all_snoc m inputs ψ rate :
  absorb_all m (inputs ++ [(ψ, rate)])
  = MemoryField.absorb (absorb_all m inputs) ψ rate.
Proof. unfold absorb_all. rewrite fold_left_app. reflexivity. Qed.

Lemma init_memory_C : C (MemoryField.M_inf MemoryField.__init__) = 0.5.
Proof.
  simpl. unfold Rmax, Rmin; repeat destruct (Rle_dec _ _); lra.
Qed.

Lemma absorb_all_C_range (inputs : list (Ψ * R)) :
  0 <= C (MemoryField.M_inf (absorb_all MemoryField.__init__ inputs)) <= 1.
Proof.
  destruct inputs as [| i inputs] using rev_ind.
  - unfold absorb_all; simpl fold_left. rewrite init_memory_C. lra.
  - destruct i as [ψ rate]. rewrite absorb_all_snoc. apply absorb_C_range.
Qed.

(** C4, as the code has it. After any run of consecutive [absorb] calls on
    a fresh memory, one more [absorb] (any state, any rate) leaves the
    reported coherence [M_inf.C] at least 0.99 times its previous value,
    hence at least the previous value minus 0.01. *)
Theorem memory_coherence_decays_at_most_one_percent
    (inputs : list (Ψ * R)) (ψ : Ψ) (rate : R) :
  let m := absorb_all MemoryField.__init__ inputs in
  let c := C (MemoryField.M_inf m) in
  let c' := C (MemoryField.M_inf (MemoryField.absorb m ψ rate)) in
  c * 0.99 <= c' /\ c - 0.01 <= c'.
Proof.
  intros m c c'.
  pose proof (absorb_all_C_range inputs) as Hc. fold m c in Hc.
  pose proof (absorb_C_decay m ψ rate Hc) as Hd. fold c c' in Hd.
  split; lra.
Qed.

(** *** A run on which the coherence drops by 0.005 *)

Lemma tanh_2_bounds : 1 / 2 < tanh (1 * 2) * 1 < 1.
Proof.
  replace (1 * 2) with 2 by lra. rewrite Rmult_1_r.
  unfold tanh, sinh, cosh.
  assert (Ha : 3 < exp 2) by (pose proof (exp_ineq1 2); lra).
  assert (Hb : exp (Ropp 2) * exp 2 = 1).
  { rewrite <- exp_plus. replace (Ropp 2 + 2) with 0 by lra. apply exp_0. }
  pose proof (exp_pos (Ropp 2)) as Hb0.
  set (a := exp 2) in *. set (b := exp (Ropp 2)) in *.
  assert (Hb3 : b < 1 / 3) by nra.
  assert (He : (a - b) / 2 / ((a + b) / 2) = (a - b) * / (a + b)) by (field; lra).
  rewrite He.
  split; apply (Rmult_lt_reg_r (a + b)); try lra;
    rewrite Rmult_assoc, Rinv_l by lra; lra.
Qed.

Lemma atan2_0_neg (x : R) : x < 0 -> atan2 0 x = PI.
Proof.
  intros Hx. unfold atan2.
  destruct (Rlt_dec 0 x); [lra |].
  destruct (Rlt_dec x 0); [| lra].
  destruct (Rle_dec 0 0); [| lra].
  unfold Rdiv. rewrite Rmult_0_l, atan_0. lra.
Qed.

Lemma atan2_0_pos (x : R) : 0 < x -> atan2 0 x = 0.
Proof.
  intros Hx. unfold atan2.
  destruct (Rlt_dec 0 x); [| lra].
  unfold Rdiv. rewrite Rmult_0_l. apply atan_0.
Qed.

Lemma pymod_PI : pymod PI τ = PI.
Proof. apply pymod_small. unfold τ, π. pose proof PI_RGT_0. lra. Qed.

Lemma pymod_0 : pymod 0 τ = 0.
Proof. apply pymod_small. pose proof τ_pos. lra. Qed.

(** With a weight above one half, absorbing a state of opposite phase
    flips the phase of [M_inf]. *)
Lemma absorbed_θ_flip (m : MemoryField.obj) (ψ : Ψ) :
  C ψ = 1 ->
  (θ (MemoryField.M_inf m) = 0 /\ θ ψ = PI)
  \/ (θ (MemoryField.M_inf m) = PI /\ θ ψ = 0) ->
  θ (absorbed m ψ 1) = θ ψ.
Proof.
  intros HC Hθ. unfold absorbed; cbn [θ]. rewrite HC.
  pose proof tanh_2_bounds as Hw. set (w := tanh (1 * 2) * 1) in *.
  destruct Hθ as [[HM Hψ] | [HM Hψ]]; rewrite HM, Hψ;
    rewrite sin_0, sin_PI, cos_0, cos_PI.
  - replace ((1 - w) * 0 + w * 0) with 0 by ring.
    rewrite atan2_0_neg by lra. apply pymod_PI.
  - replace ((1 - w) * 0 + w * 0) with 0 by ring.
    rewrite atan2_0_pos by lra. apply pymod_0.
Qed.

Lemma absorb_C_floor (m : MemoryField.obj) (ψ : Ψ) (rate : R) :
  let history := MemoryField._history (MemoryField.absorb m ψ rate) in
  MemoryField._C_floor (MemoryField.absorb m ψ rate)
  = if (3 <=? List.length history)%nat
    then Rmax (MemoryField._C_floor m - 0.001)
              (order_parameter (map θ history) - 0.05)
    else MemoryField._C_floor m.
Proof.
  cbv zeta. rewrite absorb_history.
  unfold MemoryField.absorb. cbv zeta. fold (absorbed m ψ rate).
  destruct (3 <=? _)%nat; reflexivity.
Qed.

Lemma absorb_C_floor_short (m : MemoryField.obj) (ψ : Ψ) (rate : R) :
  (List.length (MemoryField._history (MemoryField.absorb m ψ rate)) < 3)%nat ->
  MemoryField._C_floor (MemoryField.absorb m ψ rate) = MemoryField._C_floor m.
Proof.
  intros Hlen. rewrite absorb_C_floor.
  destruct (3 <=? _)%nat eqn:E; [| reflexivity].
  apply Nat.leb_le in E. lia.
Qed.

(** The two states absorbed in turn: phase π and phase 0, coherence 1. *)
Definition ψ_π : Ψ := new_Ψ default_ΔΦ default_κ PI default_N 1 default_t default_src.
Definition ψ_0 : Ψ := new_Ψ default_ΔΦ default_κ 0 default_N 1 default_t default_src.

Lemma ψ_π_fields : θ ψ_π = PI /\ C ψ_π = 1.
Proof.
  split; simpl; [apply pymod_PI |].
  unfold Rmax, Rmin; repeat destruct (Rle_dec _ _); lra.
Qed.

Lemma ψ_0_fields : θ ψ_0 = 0 /\ C ψ_0 = 1.
Proof.
  split; simpl; [apply pymod_0 |].
  unfold Rmax, Rmin; repeat destruct (Rle_dec _ _); lra.
Qed.

Definition memory_2 : MemoryField.obj :=
  absorb_all MemoryField.__init__ [(ψ_π, 1); (ψ_0, 1)].
Definition memory_3 : MemoryField.obj := MemoryField.absorb memory_2 ψ_π 1.

Lemma θ_copy (ψ : Ψ) : θ (copy ψ) = pymod (θ ψ) τ.
Proof. reflexivity. Qed.

Lemma memory_3_coherence :
  C (MemoryField.M_inf memory_2) = 0.5 /\ C (MemoryField.M_inf memory_3) = 0.495.
Proof.
  destruct ψ_π_fields as [Hπθ HπC]. destruct ψ_0_fields as [H0θ H0C].
  set (m0 := MemoryField.__init__).
  set (m1 := MemoryField.absorb m0 ψ_π 1).
  assert (Hm2 : memory_2 = MemoryField.absorb m1 ψ_0 1) by reflexivity.
  assert (Hθ0 : θ (MemoryField.M_inf m0) = 0) by (simpl; apply pymod_0).
  assert (Ha1 : θ (absorbed m0 ψ_π 1) = PI).
  { rewrite absorbed_θ_flip; [exact Hπθ | exact HπC | left; split; assumption]. }
  assert (Hθ1 : θ (MemoryField.M_inf m1) = PI).
  { unfold m1. rewrite absorb_θ. exact Ha1. }
  assert (Ha2 : θ (absorbed m1 ψ_0 1) = 0).
  { rewrite absorbed_θ_flip; [exact H0θ | exact H0C | right; split; assumption]. }
  assert (Hθ2 : θ (MemoryField.M_inf memory_2) = 0).
  { rewrite Hm2, absorb_θ. exact Ha2. }
  assert (Ha3 : θ (absorbed memory_2 ψ_π 1) = PI).
  { rewrite absorbed_θ_flip; [exact Hπθ | exact HπC | left; split; assumption]. }
  assert (Hh1 : MemoryField._history m1 = [copy (absorbed m0 ψ_π 1)]).
  { unfold m1. rewrite absorb_history. reflexivity. }
  assert (Hh2 : MemoryField._history memory_2
                = [copy (absorbed m0 ψ_π 1); copy (absorbed m1 ψ_0 1)]).
  { rewrite Hm2, absorb_history, Hh1. reflexivity. }
  assert (Hh3 : MemoryField._history memory_3
                = [copy (absorbed m0 ψ_π 1); copy (absorbed m1 ψ_0 1);
                   copy (absorbed memory_2 ψ_π 1)]).
  { unfold memory_3. rewrite absorb_history, Hh2. reflexivity. }
  assert (Hc0 : C (MemoryField.M_inf m0) = 0.5) by apply init_memory_C.
  assert (Hc1 : C (MemoryField.M_inf m1) = 0.5).
  { unfold m1. rewrite absorb_C, absorb_history.
    cbn [MemoryField._history m0 MemoryField.__init__ deque_append app List.length
         Nat.ltb Nat.leb tl].
    rewrite Hc0. apply clamp_id. lra. }
  assert (Hc2 : C (MemoryField.M_inf memory_2) = 0.5).
  { rewrite Hm2, absorb_C, <- Hm2, Hh2. cbn [List.length Nat.leb].
    rewrite Hc1. apply clamp_id. lra. }
  assert (Hf1 : MemoryField._C_floor m1 = 0).
  { unfold m1. rewrite absorb_C_floor_short; [simpl; lra |].
    fold m1. rewrite Hh1. simpl. lia. }
  assert (Hf2 : MemoryField._C_floor memory_2 = 0).
  { rewrite Hm2, absorb_C_floor_short; [exact Hf1 |].
    rewrite <- Hm2, Hh2. simpl. lia. }
  split; [exact Hc2 |].
  unfold memory_3. rewrite absorb_C. fold memory_3. rewrite Hh3.
  cbn [List.length Nat.leb map]. rewrite !θ_copy, Ha1, Ha2, Ha3, Hc2, Hf2.
  rewrite pymod_PI, pymod_0.
  unfold order_parameter, pysum. cbn [map fold_left List.length].
  rewrite sin_0, sin_PI, cos_0, cos_PI.
  replace (0 + 0 + 0 + 0) with 0 by ring.
  replace ((0 + -1 + 1 + -1) ^ 2) with 1 by ring.
  replace (0 ^ 2 + 1) with 1 by ring. rewrite sqrt_1.
  replace (INR 3) with 3 by (simpl; ring).
  unfold Rmax, Rmin; repeat destruct (Rle_dec _ _); lra.
Qed.

(** C4, as stated, fails for the ε the source declares (1e-12) and for
    the decay allowance of the floor (0.001): on a fresh memory, absorbing
    phase π, phase 0 and phase π again (coherence 1, rate 1) takes the
    reported coherence from 0.5 to 0.495. *)
Lemma memory_coherence_drops_more_than_declared :
  let c := C (MemoryField.M_inf memory_2) in
  let c' := C (MemoryField.M_inf (MemoryField.absorb memory_2 ψ_π 1)) in
  ~ (c - ε <= c') /\ ~ (c - 0.001 <= c').
Proof.
  intros c c'. destruct memory_3_coherence as [Hc Hc'].
  unfold memory_3 in Hc'. fold c in Hc. fold c' in Hc'.
  rewrite Hc, Hc'. unfold ε. split; lra.
Qed.

(** ** The encoder never raises *)

Section EncoderTotal.
Context {P : Platform}.

(** The inner loop consumes characters and never empties the cluster. *)
Lemma extend_cluster_spec (n : nat) :
  forall rest current,
    (List.length rest <= n)%nat ->
    (List.length (snd (Encoder.extend_cluster current rest)) <= List.length rest)%nat
    /\ (current <> [] -> fst (Encoder.extend_cluster current rest) <> []).
Proof.
  induction n as [| n IH]; intros rest current Hlen.
  - destruct rest; [| simpl in Hlen; lia]. simpl. split; [lia | auto].
  - destruct rest as [| nc rest1]; [simpl; split; [lia | auto] |].
    simpl in Hlen. simpl.
    destruct (nc =? Encoder._ZWJ)%N.
    + destruct rest1 as [| x rest2].
      * simpl. split; [lia |]. intros _. destruct current; discriminate.
      * simpl in Hlen.
        destruct (IH rest2 (current ++ [nc; x]) ltac:(lia)) as [H1 H2].
        split; [simpl; lia |]. intros _. apply H2. destruct current; discriminate.
    + destruct (_ && _ && _).
      * simpl. split; [lia |]. intros _. destruct current; discriminate.
      * destruct (Encoder.is_mark nc).
        -- destruct (IH rest1 (current ++ [nc]) ltac:(lia)) as [H1 H2].
           split; [lia |]. intros _. apply H2. destruct current; discriminate.
        -- simpl. split; [lia | auto].
Qed.

(** Enough fuel: the outer loop returns, and every cluster it adds is
    non-empty. *)
Lemma clusters_loop_total (fuel : nat) :
  forall rest clusters current,
    (List.length rest <= fuel)%nat ->
    Forall (fun g => g <> []) clusters ->
    exists gs, Encoder.clusters_loop fuel clusters current rest = Ok gs
               /\ Forall (fun g => g <> []) gs.
Proof.
  induction fuel as [| fuel IH]; intros rest clusters current Hlen Hcl.
  - destruct rest; [| simpl in Hlen; lia]. simpl.
    eexists; split; [reflexivity |].
    destruct current; [exact Hcl |].
    apply Forall_app; split; [exact Hcl | repeat constructor; discriminate].
  - destruct rest as [| c rest1].
    + simpl. eexists; split; [reflexivity |].
      destruct current; [exact Hcl |].
      apply Forall_app; split; [exact Hcl | repeat constructor; discriminate].
    + simpl in Hlen. simpl. destruct (isspace c).
      * destruct current.
        -- apply IH; [lia | exact Hcl].
        -- apply IH; [lia |].
           apply Forall_app; split; [exact Hcl | repeat constructor; discriminate].
      * destruct (Encoder.extend_cluster (current ++ [c]) rest1) as [cluster rest2] eqn:E.
        destruct (extend_cluster_spec (List.length rest1) rest1 (current ++ [c])
                    ltac:(lia)) as [H1 H2].
        rewrite E in H1, H2. simpl in H1, H2.
        apply IH; [lia |].
        apply Forall_app; split; [exact Hcl |].
        repeat constructor. apply H2. destruct current; discriminate.
Qed.

Lemma graphemes_total (txt : str) :
  exists gs, Encoder.graphemes txt = Ok gs /\ Forall (fun g => g <> []) gs.
Proof.
  unfold Encoder.graphemes. destruct txt as [| c txt].
  - exists []. split; [reflexivity | constructor].
  - apply clusters_loop_total; [lia | constructor].
Qed.

Lemma NR_nonneg (n : codepoint) : 0 <= Encoder.NR n.
Proof. unfold Encoder.NR. apply IZR_le. lia. Qed.

Lemma ln_max_codepoint_pos : 0 < ln (Encoder.NR 1114111 + 1).
Proof.
  rewrite <- ln_1. apply ln_increasing; [lra |].
  unfold Encoder.NR. simpl. lra.
Qed.

Lemma glyph_step_total (n i : nat) (g : str) (s : Encoder.sums) :
  n <> O -> g <> [] -> exists s', Encoder.glyph_step n i g s = Ok s'.
Proof.
  intros Hn Hg. unfold Encoder.glyph_step.
  destruct g as [| c0 g']; [contradiction |]. cbn [obind].
  unfold pydiv at 1. destruct (Req_dec_T (INR n) 0) as [E | _].
  { exfalso. apply Hn. apply INR_eq. exact E. }
  cbn [obind]. unfold pylog at 1.
  destruct (Rlt_dec 0 (1 + Encoder.NR (Encoder.sum_cps (c0 :: g')))) as [_ | Hneg].
  2:{ exfalso. apply Hneg. pose proof (NR_nonneg (Encoder.sum_cps (c0 :: g'))). lra. }
  cbn [obind]. unfold pylog at 1.
  pose proof ln_max_codepoint_pos as Hln.
  destruct (Rlt_dec 0 (Encoder.NR 1114111 + 1)) as [_ | Hneg].
  2:{ exfalso. apply Hneg. unfold Encoder.NR. simpl. lra. }
  cbn [obind]. unfold pydiv at 1.
  destruct (Req_dec_T (ln (Encoder.NR 1114111 + 1)) 0) as [E | _]; [lra |].
  cbn [obind]. eexists. reflexivity.
Qed.

Lemma glyph_loop_total (n : nat) (glyphs : list str) :
  n <> O -> Forall (fun g => g <> []) glyphs ->
  forall i s, exists s', Encoder.glyph_loop n i glyphs s = Ok s'.
Proof.
  intros Hn. induction 1 as [| g gs Hg Hgs IH]; intros i s.
  - exists s. reflexivity.
  - simpl. destruct (glyph_step_total n i g s Hn Hg) as [s1 E1]. rewrite E1.
    simpl. apply IH.
Qed.

Lemma sum_squares_nonneg (a b : R) : 0 <= a ^ 2 + b ^ 2.
Proof. nra. Qed.

(** [Encoder.text] returns a state, and the state is bounded. *)
Lemma text_total (txt source : str) :
  exists ψ, Encoder.text txt source = Ok ψ /\ bounded ψ /\ ε <= N ψ.
Proof.
  unfold Encoder.text.
  destruct (graphemes_total txt) as (gs & Egs & Hgs). rewrite Egs. cbn [obind].
  destruct gs as [| g gs'].
  - eexists. split; [reflexivity |]. split; [apply new_Ψ_bounded | apply _enforce_N_ge].
  - set (glyphs := g :: gs') in *.
    assert (Hn : List.length glyphs <> O) by (unfold glyphs; simpl; lia).
    destruct (glyph_loop_total _ glyphs Hn Hgs 0%nat (Encoder.mkSums 0.0 0.0 0.0 0.0 0.0))
      as [s Es].
    rewrite Es. cbn [obind].
    assert (Hd : forall a, pydiv a (INR (List.length glyphs))
                           = Ok (a / INR (List.length glyphs))).
    { intros a. unfold pydiv. destruct (Req_dec_T _ 0) as [E | _]; [| reflexivity].
      exfalso. apply Hn, INR_eq, E. }
    rewrite !Hd. cbn [obind]. unfold pysqrt.
    destruct (Rle_dec 0 _) as [_ | Hneg].
    2:{ exfalso. apply Hneg, sum_squares_nonneg. }
    cbn [obind]. rewrite Hd. cbn [obind].
    eexists. split; [reflexivity |]. split; [apply new_Ψ_bounded | apply _enforce_N_ge].
Qed.

Lemma count_from_nonneg (sub s : str) : forall skip, (0 <= Encoder.count_from sub s skip)%Z.
Proof.
  induction s as [| c s IH]; intros skip; cbn [Encoder.count_from].
  - destruct sub; lia.
  - destruct skip; [| apply IH].
    destruct (Encoder.is_prefix sub (c :: s)).
    + pose proof (IH (List.length sub - 1)%nat). lia.
    + apply IH.
Qed.

Lemma count_nonneg (s sub : str) : (0 <= Encoder.count s sub)%Z.
Proof. apply count_from_nonneg. Qed.

(** [Encoder.code] returns a state, and the state is bounded. *)
Lemma code_total (source_code : str) :
  exists ψ, Encoder.code source_code = Ok ψ /\ bounded ψ /\ ε <= N ψ.
Proof.
  unfold Encoder.code.
  destruct (text_total source_code (lit "code")) as (ψ & Eψ & _). rewrite Eψ.
  cbn [obind]. cbv zeta. unfold pydiv.
  match goal with |- context [Req_dec_T ?x 0] => destruct (Req_dec_T x 0) as [E | _] end.
  - exfalso.
    pose proof (count_nonneg source_code (lit "if ")).
    pose proof (count_nonneg source_code (lit "elif ")).
    pose proof (count_nonneg source_code (lit "else:")).
    pose proof (count_nonneg source_code (lit "for ")).
    pose proof (count_nonneg source_code (lit "while ")).
    pose proof (count_nonneg source_code (lit "def ")).
    pose proof (count_nonneg source_code (lit "class ")).
    match type of E with
    | 1 + 0.1 * IZR ?z = 0 => assert (0 <= IZR z) by (apply IZR_le; lia)
    end.
    lra.
  - cbn [obind]. eexists. split; [reflexivity |].
    split; [apply _enforce_bounded | apply _enforce_N_ge].
Qed.

End EncoderTotal.

(** C9. On every platform and for every input string, [Encoder.graphemes],
    [Encoder.text] and [Encoder.code] return a value: none of the loops
    runs out of iterations and no indexing, division, logarithm or square
    root raises. *)
Theorem encoder_never_raises {P : Platform} (txt source : str) :
  (exists gs, Encoder.graphemes txt = Ok gs)
  /\ (exists ψ, Encoder.text txt source = Ok ψ)
  /\ (exists ψ, Encoder.code txt = Ok ψ).
Proof.
  destruct (graphemes_total txt) as (gs & Hgs & _).
  destruct (text_total txt source) as (ψ & Hψ & _).
  destruct (code_total txt) as (ψc & Hψc & _).
  split; [exists gs; exact Hgs |].
  split; [exists ψ; exact Hψ | exists ψc; exact Hψc].
Qed.

(** ** Partial operations on bounded states *)

Lemma bounded_set_θ (ψ : Ψ) (x : R) : bounded ψ -> bounded (set_θ ψ (pymod x τ)).
Proof.
  intros (Hκ & _ & HC & HN). repeat split; simpl; try tauto.
  all: apply pymod_bounds, τ_pos.
Qed.

Lemma bounded_set_C (ψ : Ψ) (c : R) : bounded ψ -> 0 <= c <= 1 -> bounded (set_C ψ c).
Proof. intros (Hκ & Hθ & _ & HN) Hc. repeat split; simpl; tauto. Qed.

Lemma pylog_pos (x : R) : 0 < x -> pylog x = Ok (ln x).
Proof. intros H. unfold pylog. destruct (Rlt_dec 0 x); [reflexivity | contradiction]. Qed.

Lemma pysqrt_nonneg (x : R) : 0 <= x -> pysqrt x = Ok (sqrt x).
Proof. intros H. unfold pysqrt. destruct (Rle_dec 0 x); [reflexivity | contradiction]. Qed.

Lemma pydiv_nonzero (a b : R) : b <> 0 -> pydiv a b = Ok (a / b).
Proof. intros H. unfold pydiv. destruct (Req_dec_T b 0); [contradiction | reflexivity]. Qed.

Lemma bounded_κ_pos (ψ : Ψ) : bounded ψ -> 0 < κ ψ + ε.
Proof. intros ((H & _) & _). unfold κ_MIN in H. pose proof ε_pos. lra. Qed.

Lemma bounded_N_pos (ψ : Ψ) : bounded ψ -> 0 < N ψ + ε.
Proof. intros (_ & _ & _ & H). pose proof ε_pos. lra. Qed.

Lemma dist_total (a b : Ψ) : bounded a -> bounded b -> exists d, dist a b = Ok d.
Proof.
  intros Ha Hb. unfold dist.
  rewrite (pylog_pos _ (bounded_κ_pos a Ha)), (pylog_pos _ (bounded_κ_pos b Hb)).
  cbn [obind].
  rewrite (pylog_pos _ (bounded_N_pos a Ha)), (pylog_pos _ (bounded_N_pos b Hb)).
  cbn [obind]. cbv zeta. rewrite pysqrt_nonneg; [eexists; reflexivity |].
  assert (Hq : forall x : R, 0 <= x ^ 2) by (intros; nra).
  assert (Hπ : 0 < π ^ 2) by (pose proof π_pos; nra).
  assert (0 <= Rmin (Rabs (θ a - θ b)) (τ - Rabs (θ a - θ b)) ^ 2 / π ^ 2).
  { apply Rmult_le_pos; [apply Hq | left; apply Rinv_0_lt_compat, Hπ]. }
  pose proof (Hq (ΔΦ a - ΔΦ b)). pose proof (Hq (ln (κ a + ε) - ln (κ b + ε))).
  pose proof (Hq (ln (N a + ε) - ln (N b + ε))). lra.
Qed.

Lemma inner_total (a b : Ψ) : 0 <= N a * N b -> exists r, inner a b = Ok r.
Proof.
  intros HN. unfold inner. cbv zeta.
  rewrite pydiv_nonzero.
  - cbn [obind]. rewrite (pysqrt_nonneg _ HN). cbn [obind]. eexists; reflexivity.
  - pose proof ε_pos. pose proof (Rmax_r (Rmax (κ a) (κ b)) ε). lra.
Qed.

Lemma inner_total_bounded (a b : Ψ) : bounded a -> bounded b -> exists r, inner a b = Ok r.
Proof.
  intros (_ & _ & _ & Ha) (_ & _ & _ & Hb). apply inner_total. nra.
Qed.

Lemma evolve_total (aw : AwarenessField.obj) (ψ M_inf : Ψ) (W : option Ψ) :
  bounded ψ -> bounded M_inf ->
  exists out aw',
    AwarenessField.evolve aw ψ M_inf W = Ok (out, aw')
    /\ bounded out /\ bounded (AwarenessField.field aw').
Proof.
  intros Hψ HM. unfold AwarenessField.evolve.
  destruct (dist_total ψ M_inf Hψ HM) as [d Ed].
  destruct (inner_total_bounded ψ M_inf Hψ HM) as [a Ea].
  rewrite Ed. cbn [obind]. rewrite Ea. cbn [obind]. cbv zeta.
  eexists. eexists. split; [reflexivity |]. split.
  - match goal with |- context [Rlt_dec 0.3 ?c] => destruct (Rlt_dec 0.3 c) end.
    + apply bounded_set_θ, copy_bounded.
    + apply copy_bounded.
  - cbn [AwarenessField.field]. apply _enforce_bounded.
Qed.

Lemma maat_total (mt : MaatFunctional.obj) (ψ M_inf : Ψ) (lap : R) :
  bounded ψ -> bounded M_inf -> exists L, MaatFunctional.__call__ mt ψ M_inf lap = Ok L.
Proof.
  intros Hψ HM. unfold MaatFunctional.__call__.
  destruct (dist_total ψ M_inf Hψ HM) as [d Ed]. rewrite Ed. cbn [obind].
  eexists; reflexivity.
Qed.

Lemma absorb_bounded (m : MemoryField.obj) (ψ : Ψ) (rate : R) :
  bounded (MemoryField.M_inf (MemoryField.absorb m ψ rate)).
Proof.
  unfold MemoryField.absorb. cbv zeta.
  destruct (3 <=? _)%nat; cbn [MemoryField.M_inf]; apply _enforce_bounded.
Qed.

Lemma fuse_bounded (m : MemoryField.obj) (sources : list Ψ) :
  bounded (MemoryField.M_inf m) -> bounded (MemoryField.M_inf (MemoryField.fuse m sources)).
Proof.
  intros Hm. unfold MemoryField.fuse. destruct sources as [| s0 ss]; [exact Hm |].
  generalize (combine (MemoryField.softmax_inv_κ (map κ (s0 :: ss))) (s0 :: ss)).
  intros l. revert m Hm. induction l as [| [w s] l IH]; intros m Hm; simpl.
  - exact Hm.
  - apply IH, absorb_bounded.
Qed.

Lemma guardian_enforce_bounded (g : InvariantGuardian.obj) (before after : Ψ) (L : R) :
  bounded (fst (InvariantGuardian.enforce g before after L)).
Proof. unfold InvariantGuardian.enforce. cbv zeta. cbn [fst]. apply _enforce_bounded. Qed.

Lemma kernel_bounded (k : UnifiedTensorKernel.obj) (p : KernelParams)
    (ψ A M_inf : Ψ) (W : option Ψ) (grad_C : R) :
  bounded (fst (UnifiedTensorKernel.__call__ k p ψ A M_inf W grad_C)).
Proof. unfold UnifiedTensorKernel.__call__. cbv zeta. cbn [fst]. apply _enforce_bounded. Qed.

Lemma traverse_total {A B} (f : A -> outcome B) (l : list A) :
  Forall (fun x => exists y, f x = Ok y) l ->
  exists ys, MultimodalProjector.traverse f l = Ok ys.
Proof.
  induction 1 as [| x l [y Hy] Hl [ys IH]]; simpl.
  - eexists; reflexivity.
  - rewrite Hy. cbn [obind]. rewrite IH. cbn [obind]. eexists; reflexivity.
Qed.

Lemma Forall_combine_r {A B} (Q : B -> Prop) (l1 : list A) (l2 : list B) :
  Forall Q l2 -> Forall (fun p => Q (snd p)) (combine l1 l2).
Proof.
  intros H. revert l1. induction H as [| b l2 Hb Hl IH]; intros [| a l1]; simpl;
    constructor; [exact Hb | apply IH].
Qed.

Lemma project_total (fields : list Ψ) :
  Forall bounded fields ->
  exists ψ, MultimodalProjector.project fields = Ok ψ /\ bounded ψ.
Proof.
  intros Hf. unfold MultimodalProjector.project.
  destruct fields as [| f0 [| f1 fs]].
  - eexists; split; [reflexivity | apply new_Ψ_bounded].
  - eexists; split; [reflexivity | apply copy_bounded].
  - set (fields := f0 :: f1 :: fs) in *.
    set (wf := combine (MemoryField.softmax_inv_κ (map κ fields)) fields).
    cbv zeta. fold wf.
    destruct (traverse_total
                (fun p : R * Ψ => obind (pylog (κ (snd p) + ε)) (fun l => Ok (fst p * l)))
                wf) as [logs Elogs].
    { unfold wf. eapply Forall_impl; [| apply Forall_combine_r, Hf].
      intros [w f] Hb. simpl in *. rewrite (pylog_pos _ (bounded_κ_pos f Hb)).
      cbn [obind]. eexists; reflexivity. }
    rewrite Elogs. cbn [obind].
    eexists; split; [reflexivity | apply new_Ψ_bounded].
Qed.

Lemma judge_total (gv : MaatGovernor.obj) (ψ_in ψ_out : Ψ) (W : option Ψ) :
  bounded ψ_out -> (forall w, W = Some w -> bounded w) ->
  exists d score gv',
    MaatGovernor.judge gv ψ_in ψ_out W = Ok ((d, score), gv')
    /\ (d = ALLOW \/ d = REBUILD).
Proof.
  intros Hout HW. unfold MaatGovernor.judge. cbv zeta.
  destruct W as [w |].
  - destruct (inner_total_bounded ψ_out w Hout (HW w eq_refl)) as [a Ea].
    rewrite Ea. cbn [obind].
    match goal with |- context [Rlt_dec ?x ?y] => destruct (Rlt_dec x y) end;
      do 3 eexists; (split; [reflexivity | auto]).
  - cbn [obind].
    match goal with |- context [Rlt_dec ?x ?y] => destruct (Rlt_dec x y) end;
      do 3 eexists; (split; [reflexivity | auto]).
Qed.

(** Whatever [judge] returns, the decision is not [BLOCK]. *)
Lemma judge_decision (gv : MaatGovernor.obj) (ψ_in ψ_out : Ψ) (W : option Ψ) d score gv' :
  MaatGovernor.judge gv ψ_in ψ_out W = Ok ((d, score), gv') ->
  d = ALLOW \/ d = REBUILD.
Proof.
  unfold MaatGovernor.judge. cbv zeta.
  destruct W as [w |].
  - destruct (inner ψ_out w); cbn [obind]; [| discriminate].
    match goal with |- context [Rlt_dec ?x ?y] => destruct (Rlt_dec x y) end;
      intros H; injection H as <- _ _; auto.
  - cbn [obind].
    match goal with |- context [Rlt_dec ?x ?y] => destruct (Rlt_dec x y) end;
      intros H; injection H as <- _ _; auto.
Qed.

(** ** A weakest-precondition calculus for the engine monad *)

Definition wp {A} (m : ASCPI.M A) (s : ASCPI.state)
    (Q : A -> ASCPI.state -> Prop) (E : exn -> ASCPI.state -> Prop) : Prop :=
  match m s with
  | (Ok a, s') => Q a s'
  | (Raise e, s') => E e s'
  end.

Lemma wp_ret {A} (a : A) s Q E : Q a s -> wp (ASCPI.ret a) s Q E.
Proof. intros H. exact H. Qed.

Lemma wp_raise {A} (e : exn) s (Q : A -> ASCPI.state -> Prop) E :
  E e s -> wp (ASCPI.raise e) s Q E.
Proof. intros H. exact H. Qed.

Lemma wp_bind {A B} (m : ASCPI.M A) (k : A -> ASCPI.M B) s Q E :
  wp m s (fun a s' => wp (k a) s' Q E) E -> wp (ASCPI.bind m k) s Q E.
Proof.
  unfold wp, ASCPI.bind. destruct (m s) as [[a | e] s']; intros H; exact H.
Qed.

Lemma wp_lift {A} (o : outcome A) s Q E :
  match o with Ok a => Q a s | Raise e => E e s end -> wp (ASCPI.lift o) s Q E.
Proof. unfold wp, ASCPI.lift. destruct o; intros H; exact H. Qed.

Lemma wp_gets {A} (f : ASCPI.obj -> A) s Q E :
  Q (f (fst s)) s -> wp (ASCPI.gets f) s Q E.
Proof. intros H. exact H. Qed.

Lemma wp_modify (f : ASCPI.obj -> ASCPI.obj) s Q E :
  Q tt (f (fst s), snd s) -> wp (ASCPI.modify f) s Q E.
Proof. intros H. exact H. Qed.

Lemma wp_get_KERNEL s Q E : Q (snd s) s -> wp ASCPI.get_KERNEL s Q E.
Proof. intros H. exact H. Qed.

Lemma wp_put_KERNEL p s Q E : Q tt (fst s, p) -> wp (ASCPI.put_KERNEL p) s Q E.
Proof. intros H. exact H. Qed.

Lemma wp_mono {A} (m : ASCPI.M A) s (Q Q' : A -> ASCPI.state -> Prop)
    (E E' : exn -> ASCPI.state -> Prop) :
  wp m s Q E ->
  (forall a s', Q a s' -> Q' a s') ->
  (forall e s', E e s' -> E' e s') ->
  wp m s Q' E'.
Proof.
  unfold wp. destruct (m s) as [[a | e] s']; intros H HQ HE; auto.
Qed.

Lemma wp_read_local {A} (v : option A) s Q E :
  match v with Some a => Q a s | None => E UnboundLocalError s end ->
  wp (ASCPI.read_local v) s Q E.
Proof. destruct v; intros H; exact H. Qed.

Ltac wp_step :=
  lazymatch goal with
  | |- wp (ASCPI.bind _ _) _ _ _ => apply wp_bind
  | |- wp (ASCPI.ret _) _ _ _ => apply wp_ret
  | |- wp (ASCPI.gets _) _ _ _ => apply wp_gets
  | |- wp (ASCPI.modify _) _ _ _ => apply wp_modify
  | |- wp ASCPI.get_KERNEL _ _ _ => apply wp_get_KERNEL
  | |- wp (ASCPI.put_KERNEL _) _ _ _ => apply wp_put_KERNEL
  end;
  cbv beta; cbn [fst snd].

Ltac wp_go := repeat wp_step.

(** Splits the conjunctions of the goal without unfolding anything. *)
Ltac split_all := repeat match goal with |- _ /\ _ => split end.

(** Reads of an engine attribute after an assignment. *)
Ltac eng_simpl :=
  unfold ASCPI.with_kernel, ASCPI.with_memory, ASCPI.with_awareness,
    ASCPI.with_coherence, ASCPI.with_world, ASCPI.with_guardian,
    ASCPI.with_governor, ASCPI.with_log, ASCPI.with_step, ASCPI.with_current in *;
  cbn [fst snd ASCPI.kernel ASCPI.memory ASCPI.awareness ASCPI.coherence
       ASCPI.world ASCPI.guardian ASCPI.maat ASCPI.governor ASCPI.log
       ASCPI.agent_id ASCPI.step ASCPI.current
       ASCPI.v_current ASCPI.v_trajectory ASCPI.v_coherences ASCPI.v_attractor] in *.

(** No exception is possible. *)
Definition never : exn -> ASCPI.state -> Prop := fun _ _ => False.

(** ** What one call leaves in the log *)

(** The coherence recorded in a log entry. *)
Definition entry_C (e : ForensicLogger.entry) : R := snd (ForensicLogger.e_Ψ e).

(** [l'] is [l] after the entries [new] were logged, oldest first. *)
Definition logged (l l' : ForensicLogger.obj) (new : list ForensicLogger.entry) : Prop :=
  ForensicLogger.max_entries l' = ForensicLogger.max_entries l
  /\ ForensicLogger.session l' = ForensicLogger.session l
  /\ ForensicLogger.entries l'
     = fold_left (deque_append (ForensicLogger.max_entries l)) new
                 (ForensicLogger.entries l)
  /\ ForensicLogger.count l' = (ForensicLogger.count l + Z.of_nat (List.length new))%Z.

Lemma logged_nil (l : ForensicLogger.obj) : logged l l [].
Proof. unfold logged; simpl. repeat split; lia. Qed.

Lemma logged_cons (l l1 l2 : ForensicLogger.obj) e new :
  logged l l1 [e] -> logged l1 l2 new -> logged l l2 (e :: new).
Proof.
  intros (Hm1 & Hs1 & He1 & Hc1) (Hm2 & Hs2 & He2 & Hc2).
  unfold logged. simpl in *. rewrite Hm2, Hs2, He2, Hc2, Hm1, Hs1, He1, Hc1.
  repeat split; lia.
Qed.

Lemma logged_log {P : Platform} (l : ForensicLogger.obj) (ψ : Ψ) (L : R) (ψ_a : Ψ) :
  exists e, logged l (ForensicLogger.log l ψ L ψ_a) [e] /\ entry_C e = C ψ.
Proof.
  eexists. split.
  - unfold logged, ForensicLogger.log; simpl. repeat split; lia.
  - reflexivity.
Qed.

(** ** The pieces of an iteration *)

Section Iteration.
Context {P : Platform}.

(** What [settle] and the other pieces leave untouched. *)
Definition frame (s s' : ASCPI.state) : Prop :=
  ASCPI.world (fst s') = ASCPI.world (fst s)
  /\ ASCPI.maat (fst s') = ASCPI.maat (fst s)
  /\ ASCPI.governor (fst s') = ASCPI.governor (fst s)
  /\ ASCPI.agent_id (fst s') = ASCPI.agent_id (fst s)
  /\ ASCPI.step (fst s') = ASCPI.step (fst s)
  /\ ASCPI.current (fst s') = ASCPI.current (fst s)
  /\ snd s' = snd s.

Lemma frame_refl s : frame s s.
Proof. unfold frame. tauto. Qed.

Lemma frame_trans s1 s2 s3 : frame s1 s2 -> frame s2 s3 -> frame s1 s3.
Proof.
  unfold frame. intros (A1 & A2 & A3 & A4 & A5 & A6 & A7) (B1 & B2 & B3 & B4 & B5 & B6 & B7).
  repeat split; congruence.
Qed.

Definition aw_bounded (s : ASCPI.state) : Prop :=
  bounded (AwarenessField.field (ASCPI.awareness (fst s))).

Definition mem_bounded (s : ASCPI.state) : Prop :=
  bounded (MemoryField.M_inf (ASCPI.memory (fst s))).

Lemma settle_spec (W : option Ψ) (before current : Ψ) (s : ASCPI.state) :
  bounded current -> mem_bounded s ->
  wp (ASCPI.settle W before current) s
     (fun r s' =>
        bounded (fst r)
        /\ frame s s'
        /\ ASCPI.kernel (fst s') = ASCPI.kernel (fst s)
        /\ ASCPI.memory (fst s') = ASCPI.memory (fst s)
        /\ ASCPI.coherence (fst s') = ASCPI.coherence (fst s)
        /\ ASCPI.log (fst s') = ASCPI.log (fst s)
        /\ aw_bounded s')
     never.
Proof.
  intros Hcur Hmem. unfold ASCPI.settle, mem_bounded in *.
  destruct s as [e p]. cbn [fst snd] in *.
  wp_go. apply wp_lift.
  assert (Hc : bounded (set_C current (C (MemoryField.M_inf (ASCPI.memory e))))).
  { apply bounded_set_C; [exact Hcur | apply Hmem]. }
  destruct (evolve_total (ASCPI.awareness e) _ _ W Hc Hmem)
    as (out & aw' & Eev & Hout & Haw').
  rewrite Eev. cbv beta iota.
  wp_go. apply wp_lift.
  destruct (maat_total (ASCPI.maat (ASCPI.with_awareness e aw')) out
              (MemoryField.M_inf (ASCPI.memory e)) 0.0 Hout Hmem) as [L EL].
  rewrite EL.
  wp_go.
  pose proof (guardian_enforce_bounded
                (ASCPI.guardian (ASCPI.with_awareness e aw')) before out L) as Hg.
  destruct (InvariantGuardian.enforce _ before out L) as [cur' g'].
  wp_go. cbn [fst snd] in *.
  split; [exact Hg |]. unfold frame, aw_bounded. cbn.
  repeat split; try reflexivity. all: apply Haw'.
Qed.

(** The first half of an iteration: the kernel runs once and never raises. *)
Lemma evolve_kernel_spec (ψ_lang : Ψ) (ψ_code W : option Ψ) (v : ASCPI.locals)
    (s : ASCPI.state) :
  wp (ASCPI.evolve_kernel ψ_lang ψ_code W v) s
     (fun r s' =>
        fst r = copy (ASCPI.v_current v)
        /\ bounded (ASCPI.v_current (snd r))
        /\ ASCPI.v_trajectory (snd r) = ASCPI.v_trajectory v
        /\ ASCPI.v_coherences (snd r) <> None
        /\ ASCPI.v_attractor (snd r) <> None
        /\ frame s s'
        /\ UnifiedTensorKernel.n_calls (ASCPI.kernel (fst s'))
           = (UnifiedTensorKernel.n_calls (ASCPI.kernel (fst s)) + 1)%Z
        /\ ASCPI.memory (fst s') = ASCPI.memory (fst s)
        /\ ASCPI.awareness (fst s') = ASCPI.awareness (fst s)
        /\ ASCPI.log (fst s') = ASCPI.log (fst s))
     never.
Proof.
  unfold ASCPI.evolve_kernel. destruct s as [e p]. cbv zeta.
  wp_go.
  destruct (CoherenceForce.compute _ _) as [[grad_C C_fused] cf'].
  wp_go.
  match goal with
  | |- context [UnifiedTensorKernel.__call__ ?k ?q ?a ?b ?c ?d ?g] =>
    pose proof (kernel_bounded k q a b c d g) as Hk;
    assert (Hn : UnifiedTensorKernel.n_calls (snd (UnifiedTensorKernel.__call__ k q a b c d g))
                 = (UnifiedTensorKernel.n_calls k + 1)%Z) by reflexivity;
    destruct (UnifiedTensorKernel.__call__ k q a b c d g) as [ψ' k']
  end.
  wp_go. cbn [fst snd] in *.
  repeat split; try reflexivity; try discriminate; try apply Hk.
  exact Hn.
Qed.

End Iteration.

Section Loop.
Context {P : Platform}.

(** The second half of an iteration: one log entry, one trajectory entry. *)
Lemma evolve_settle_spec (ψ_lang : Ψ) (ψ_code W : option Ψ) (before : Ψ)
    (v : ASCPI.locals) (s : ASCPI.state) :
  bounded (ASCPI.v_current v) ->
  wp (ASCPI.evolve_settle ψ_lang ψ_code W before v) s
     (fun r s' =>
        let v2 := fst r in
        bounded (ASCPI.v_current v2)
        /\ snd r = Rltb 0.95 (C (ASCPI.v_current v2))
        /\ ASCPI.v_trajectory v2 = ASCPI.v_trajectory v ++ [C (ASCPI.v_current v2)]
        /\ ASCPI.v_coherences v2 = ASCPI.v_coherences v
        /\ ASCPI.v_attractor v2 = ASCPI.v_attractor v
        /\ frame s s'
        /\ ASCPI.kernel (fst s') = ASCPI.kernel (fst s)
        /\ (exists e, logged (ASCPI.log (fst s)) (ASCPI.log (fst s')) [e]
                      /\ entry_C e = C (ASCPI.v_current v2))
        /\ aw_bounded s')
     never.
Proof.
  intros Hcur. unfold ASCPI.evolve_settle. destruct s as [e p].
  wp_go.
  eapply wp_mono; [apply settle_spec | | intros ? ? []].
  - exact Hcur.
  - unfold mem_bounded. cbn [fst ASCPI.memory ASCPI.with_memory].
    apply fuse_bounded, absorb_bounded.
  - intros [cur L] s' (Hb & Hf & Hk & Hm & Hc & Hl & Ha). cbn [fst snd] in *.
    wp_go. cbv zeta. cbn [fst snd ASCPI.v_current ASCPI.v_trajectory
                          ASCPI.v_coherences ASCPI.v_attractor].
    destruct s' as [e' p']. unfold frame, aw_bounded in *. eng_simpl.
    destruct Hf as (F1 & F2 & F3 & F4 & F5 & F6 & F7).
    split_all; try reflexivity; try assumption.
    rewrite Hl.
    apply (logged_log (ASCPI.log e) cur L (AwarenessField.field (ASCPI.awareness e'))).
Qed.

(** What a run of the evolution loop of at most [n] iterations leaves:
    the log entries [new] it wrote, one per iteration. *)
Definition loop_post (n : nat) (v : ASCPI.locals) (s : ASCPI.state)
    (v' : ASCPI.locals) (s' : ASCPI.state) : Prop :=
  bounded (ASCPI.v_current v')
  /\ frame s s'
  /\ exists new : list ForensicLogger.entry,
       logged (ASCPI.log (fst s)) (ASCPI.log (fst s')) new
       /\ ASCPI.v_trajectory v' = ASCPI.v_trajectory v ++ map entry_C new
       /\ (List.length new <= n)%nat
       /\ (n <> O -> new <> [])
       /\ Forall (fun e => entry_C e <= 0.95) (removelast new)
       /\ ((List.length new < n)%nat -> 0.95 < last (map entry_C new) 0)
       /\ UnifiedTensorKernel.n_calls (ASCPI.kernel (fst s'))
          = (UnifiedTensorKernel.n_calls (ASCPI.kernel (fst s))
             + Z.of_nat (List.length new))%Z
       /\ (new = [] -> v' = v /\ s' = s)
       /\ (new <> [] ->
           ASCPI.v_coherences v' <> None /\ ASCPI.v_attractor v' <> None
           /\ aw_bounded s'
           /\ C (ASCPI.v_current v') = last (map entry_C new) 0).

Lemma Rltb_true (a b : R) : Rltb a b = true -> a < b.
Proof. unfold Rltb. destruct (Rlt_dec a b); [auto | discriminate]. Qed.

Lemma Rltb_false (a b : R) : Rltb a b = false -> b <= a.
Proof. unfold Rltb. destruct (Rlt_dec a b); [discriminate | lra]. Qed.

Lemma evolution_loop_spec (ψ_lang : Ψ) (ψ_code W : option Ψ) (n : nat) :
  forall (v : ASCPI.locals) (s : ASCPI.state),
    bounded (ASCPI.v_current v) ->
    wp (ASCPI.evolution_loop n ψ_lang ψ_code W v) s (loop_post n v s) never.
Proof.
  induction n as [| n IH]; intros v s Hcur.
  - simpl. apply wp_ret. unfold loop_post.
    split; [exact Hcur |]. split; [apply frame_refl |].
    exists []. cbn [map List.length removelast last]. rewrite app_nil_r.
    split; [apply logged_nil |]. split; [reflexivity |]. split; [lia |].
    split; [intros H; contradiction |]. split; [constructor |].
    split; [lia |]. split; [simpl; lia |]. split; [auto |]. intros H; contradiction.
  - cbn [ASCPI.evolution_loop]. apply wp_bind.
    eapply wp_mono; [apply evolve_kernel_spec | | intros ? ? []].
    intros [before v1] s1 (Hbef & Hb1 & Ht1 & Hc1 & Ha1 & Hf1 & Hn1 & Hm1 & Haw1 & Hl1).
    cbn [fst snd] in *. apply wp_bind.
    eapply wp_mono; [apply evolve_settle_spec, Hb1 | | intros ? ? []].
    intros [v2 stop] s2. cbv zeta. cbn [fst snd].
    intros (Hb2 & Hstop & Ht2 & Hc2 & Ha2 & Hf2 & Hk2 & (e & Hlog & He) & Haw2).
    rewrite Hl1 in Hlog.
    destruct stop.
    + apply wp_ret. unfold loop_post.
      split; [exact Hb2 |]. split; [eapply frame_trans; eassumption |].
      exists [e]. cbn [map List.length removelast last].
      rewrite Ht2, Ht1, He, Hk2, Hn1, Hc2, Ha2.
      symmetry in Hstop. apply Rltb_true in Hstop.
      split; [exact Hlog |]. split; [reflexivity |]. split; [lia |].
      split; [discriminate |]. split; [constructor |].
      split; [intros _; exact Hstop |]. split; [lia |].
      split; [discriminate |]. intros _. split_all; auto.
    + eapply wp_mono; [apply IH, Hb2 | | intros ? ? []].
      intros v' s' (Hb' & Hf' & new & Hlog' & Ht' & Hlen & Hne & Hall & Hlast & Hn' & Hnil & Hcons).
      symmetry in Hstop. apply Rltb_false in Hstop.
      unfold loop_post. split; [exact Hb' |].
      split; [eapply frame_trans; [| exact Hf']; eapply frame_trans; eassumption |].
      exists (e :: new).
      split; [eapply logged_cons; eassumption |].
      split.
      { rewrite Ht', Ht2, Ht1. cbn [map]. rewrite He, <- app_assoc. reflexivity. }
      split; [simpl; lia |].
      split; [discriminate |].
      split.
      { destruct new as [| e' new']; [constructor |].
        change (removelast (e :: e' :: new')) with (e :: removelast (e' :: new')).
        constructor; [rewrite He; exact Hstop | exact Hall]. }
      split.
      { intros Hlt. simpl in Hlt.
        destruct new as [| e' new']; [destruct n; [simpl in Hlt; lia | exfalso; apply Hne; auto] |].
        change (last (map entry_C (e :: e' :: new')) 0)
          with (last (map entry_C (e' :: new')) 0).
        apply Hlast. simpl in *. lia. }
      split.
      { rewrite Hn', Hk2, Hn1. cbn [List.length]. lia. }
      split; [discriminate |].
      intros _.
      destruct new as [| e' new'].
      * destruct (Hnil eq_refl) as [-> ->].
        rewrite Hc2, Ha2. cbn [map last]. rewrite He. auto.
      * destruct Hcons as (X1 & X2 & X3 & X4); [discriminate |].
        change (last (map entry_C (e :: e' :: new')) 0)
          with (last (map entry_C (e' :: new')) 0).
        auto.
Qed.

(** ** The rebuild *)

Lemma rebuild_step_spec (W : option Ψ) (v : ASCPI.locals) (s : ASCPI.state) :
  ASCPI.v_coherences v <> None -> ASCPI.v_attractor v <> None ->
  wp (ASCPI.rebuild_step W v) s
     (fun v' s' =>
        bounded (ASCPI.v_current v')
        /\ ASCPI.v_trajectory v' = ASCPI.v_trajectory v
        /\ ASCPI.v_coherences v' = ASCPI.v_coherences v
        /\ ASCPI.v_attractor v' = ASCPI.v_attractor v
        /\ frame s s'
        /\ UnifiedTensorKernel.n_calls (ASCPI.kernel (fst s'))
           = (UnifiedTensorKernel.n_calls (ASCPI.kernel (fst s)) + 1)%Z
        /\ ASCPI.log (fst s') = ASCPI.log (fst s)
        /\ aw_bounded s')
     never.
Proof.
  intros Hc Ha. unfold ASCPI.rebuild_step. destruct s as [e p]. cbv zeta.
  destruct (ASCPI.v_coherences v) as [cs |]; [| contradiction].
  destruct (ASCPI.v_attractor v) as [att |]; [| contradiction].
  apply wp_bind, wp_read_local. wp_go.
  destruct (CoherenceForce.compute _ _) as [[grad_C C_fused] cf'].
  wp_go. apply wp_read_local. wp_go.
  match goal with
  | |- context [UnifiedTensorKernel.__call__ ?k ?q ?a ?b ?c ?d ?g] =>
    pose proof (kernel_bounded k q a b c d g) as Hk;
    assert (Hn : UnifiedTensorKernel.n_calls (snd (UnifiedTensorKernel.__call__ k q a b c d g))
                 = (UnifiedTensorKernel.n_calls k + 1)%Z) by reflexivity;
    destruct (UnifiedTensorKernel.__call__ k q a b c d g) as [ψ' k']
  end.
  wp_go. cbn [fst snd] in *.
  eapply wp_mono; [apply settle_spec | | intros ? ? []].
  - exact Hk.
  - unfold mem_bounded. cbn [fst ASCPI.memory ASCPI.with_memory]. apply absorb_bounded.
  - intros [cur L] [e' p'] (Hb & Hf & Hk' & Hm & Hco & Hl & Haw). cbn [fst snd] in *.
    apply wp_ret. unfold frame, aw_bounded in *. eng_simpl.
    destruct Hf as (F1 & F2 & F3 & F4 & F5 & F6 & F7).
    split_all; try reflexivity; try assumption.
    rewrite Hk'. exact Hn.
Qed.

(** With [coherences] unbound the step raises before touching anything. *)
Lemma rebuild_step_unbound (W : option Ψ) (v : ASCPI.locals) (s : ASCPI.state) :
  ASCPI.v_coherences v = None ->
  ASCPI.rebuild_step W v s = (Raise UnboundLocalError, s).
Proof.
  intros Hc. unfold ASCPI.rebuild_step. cbv zeta. rewrite Hc. reflexivity.
Qed.

Lemma rebuild_loop_spec (W : option Ψ) (n : nat) :
  forall (v : ASCPI.locals) (s : ASCPI.state),
    bounded (ASCPI.v_current v) ->
    ASCPI.v_coherences v <> None -> ASCPI.v_attractor v <> None ->
    wp (ASCPI.rebuild_loop n W v) s
       (fun v' s' =>
          bounded (ASCPI.v_current v')
          /\ ASCPI.v_trajectory v' = ASCPI.v_trajectory v
          /\ frame s s'
          /\ UnifiedTensorKernel.n_calls (ASCPI.kernel (fst s'))
             = (UnifiedTensorKernel.n_calls (ASCPI.kernel (fst s)) + Z.of_nat n)%Z
          /\ ASCPI.log (fst s') = ASCPI.log (fst s)
          /\ (n <> O -> aw_bounded s')
          /\ (n = O -> s' = s))
       never.
Proof.
  induction n as [| n IH]; intros v s Hb Hc Ha.
  - simpl. apply wp_ret.
    split; [exact Hb |]. split; [reflexivity |]. split; [apply frame_refl |].
    split; [simpl; lia |]. split; [reflexivity |].
    split; [intros H; contradiction | reflexivity].
  - cbn [ASCPI.rebuild_loop]. apply wp_bind.
    eapply wp_mono; [apply rebuild_step_spec; assumption | | intros ? ? []].
    intros v1 s1 (Hb1 & Ht1 & Hc1 & Ha1 & Hf1 & Hn1 & Hl1 & Haw1).
    eapply wp_mono; [apply IH | | intros ? ? []]; try congruence.
    intros v' s' (Hb' & Ht' & Hf' & Hn' & Hl' & Haw' & Hz).
    split; [exact Hb' |]. split; [congruence |].
    split; [eapply frame_trans; eassumption |].
    split; [rewrite Hn', Hn1; lia |].
    split; [congruence |].
    split; [| discriminate].
    intros _. destruct n; [rewrite (Hz eq_refl); exact Haw1 | apply Haw'; discriminate].
Qed.

Lemma set_α_restore (p : KernelParams) (a : R) : set_α (set_α p a) (α p) = p.
Proof. destruct p; reflexivity. Qed.

(** With its locals bound the rebuild runs the kernel ten times and puts
    the damping rate back. *)
Lemma rebuild_spec (W : option Ψ) (v : ASCPI.locals) (s : ASCPI.state) :
  bounded (ASCPI.v_current v) ->
  ASCPI.v_coherences v <> None -> ASCPI.v_attractor v <> None ->
  wp (ASCPI.rebuild W v) s
     (fun v' s' =>
        bounded (ASCPI.v_current v')
        /\ ASCPI.v_trajectory v' = ASCPI.v_trajectory v
        /\ frame s s'
        /\ UnifiedTensorKernel.n_calls (ASCPI.kernel (fst s'))
           = (UnifiedTensorKernel.n_calls (ASCPI.kernel (fst s)) + 10)%Z
        /\ ASCPI.log (fst s') = ASCPI.log (fst s)
        /\ aw_bounded s')
     never.
Proof.
  intros Hb Hc Ha. unfold ASCPI.rebuild. destruct s as [e p]. wp_go.
  eapply wp_mono; [apply rebuild_loop_spec; assumption | | intros ? ? []].
  intros v' [e' p'] (Hb' & Ht' & Hf' & Hn' & Hl' & Haw' & _). cbn [fst snd] in *.
  wp_go.
  destruct Hf' as (F1 & F2 & F3 & F4 & F5 & F6 & F7). cbn in *.
  split; [exact Hb' |]. split; [exact Ht' |].
  split.
  { unfold frame. cbn. repeat split; try assumption.
    rewrite F7. apply set_α_restore. }
  split; [exact Hn' |]. split; [exact Hl' |].
  apply Haw'. discriminate.
Qed.

(** With [coherences] unbound the rebuild raises and leaves the damping
    rate of the shared [KERNEL] multiplied by 1.5. *)
Lemma rebuild_unbound (W : option Ψ) (v : ASCPI.locals) (s : ASCPI.state) :
  ASCPI.v_coherences v = None ->
  ASCPI.rebuild W v s
  = (Raise UnboundLocalError, (fst s, set_α (snd s) (α (snd s) * 1.5))).
Proof.
  intros Hc. unfold ASCPI.rebuild, ASCPI.bind, ASCPI.get_KERNEL, ASCPI.put_KERNEL.
  cbn [ASCPI.rebuild_loop]. unfold ASCPI.bind.
  rewrite rebuild_step_unbound by exact Hc. reflexivity.
Qed.

(** ** One call of [process] *)

(** The invariant of an engine between calls: the awareness field and the
    world field, when there is one, are bounded states. *)
Definition wf (e : ASCPI.obj) : Prop :=
  bounded (AwarenessField.field (ASCPI.awareness e))
  /\ forall w, WorldCurvature.field (ASCPI.world e) = Some w -> bounded w.

Lemma add_field_bounded (w : WorldCurvature.obj) (sid : str) (ψ : Ψ) :
  exists f, WorldCurvature.field (WorldCurvature.add w sid ψ) = Some f /\ bounded f.
Proof.
  unfold WorldCurvature.add. cbn [WorldCurvature.field]. unfold WorldCurvature._update.
  destruct (WorldCurvature.dict_set (WorldCurvature.sources w) sid ψ) as [| x l] eqn:E.
  - exfalso. destruct (WorldCurvature.sources w) as [| [k' v'] d']; simpl in E.
    + discriminate.
    + destruct (WorldCurvature.str_eqb sid k'); discriminate.
  - eexists. split; [reflexivity | apply new_Ψ_bounded].
Qed.

Definition add_world_source (it : str * str) : ASCPI.M unit :=
  ASCPI.bind (ASCPI.lift (Encoder.text (snd it) (lit "world")))
    (fun ψ => ASCPI.modify
                (fun e => ASCPI.with_world e (WorldCurvature.add (ASCPI.world e) (fst it) ψ))).

Lemma for_each_world_spec (items : list (str * str)) :
  forall s,
    wp (ASCPI.for_each items add_world_source) s
       (fun _ s' =>
          exists w', s' = (ASCPI.with_world (fst s) w', snd s)
                     /\ (items = [] -> w' = ASCPI.world (fst s))
                     /\ (items <> [] ->
                         exists f, WorldCurvature.field w' = Some f /\ bounded f))
       never.
Proof.
  induction items as [| it items IH]; intros [e p].
  - simpl. apply wp_ret. exists (ASCPI.world e). cbn [fst snd].
    split; [destruct e; reflexivity |]. split; [reflexivity | contradiction].
  - cbn [ASCPI.for_each]. apply wp_bind. unfold add_world_source at 1.
    apply wp_bind, wp_lift.
    destruct (text_total (snd it) (lit "world")) as (ψ & Eψ & _). rewrite Eψ.
    apply wp_modify. cbn [fst snd].
    eapply wp_mono; [apply IH | | intros ? ? []].
    intros _ s' (w' & -> & Hnil & Hcons). cbn [fst snd ASCPI.world ASCPI.with_world] in *.
    exists w'. split; [reflexivity |]. split; [discriminate |]. intros _.
    destruct items as [| it' items'].
    + rewrite (Hnil eq_refl). apply add_field_bounded.
    + apply Hcons. discriminate.
Qed.

Lemma project_bounded (fields : list Ψ) (ψ : Ψ) :
  MultimodalProjector.project fields = Ok ψ -> bounded ψ.
Proof.
  unfold MultimodalProjector.project.
  destruct fields as [| f0 [| f1 fs]].
  - intros H; injection H as <-. apply new_Ψ_bounded.
  - intros H; injection H as <-. apply copy_bounded.
  - cbv zeta. destruct (MultimodalProjector.traverse _ _); cbn [obind]; [| discriminate].
    intros H; injection H as <-. apply new_Ψ_bounded.
Qed.

Lemma attractor_bounded (m : MemoryField.obj) : bounded (MemoryField.attractor m).
Proof.
  unfold MemoryField.attractor. destruct (MemoryField._limit_cycle m) as [lc |].
  - destruct (Rlt_dec _ _); apply copy_bounded.
  - apply copy_bounded.
Qed.

(** What a returning call guarantees. *)
Definition process_post (max_steps : Z) (s : ASCPI.state) (r : Result) (s' : ASCPI.state)
  : Prop :=
  bounded (output r)
  /\ coherence r = C (output r)
  /\ signature r = sha256_hex8_vec (vec (output r))
  /\ snd s' = snd s
  /\ (wf (fst s) -> wf (fst s'))
  /\ ASCPI.current (fst s') = Some (output r)
  /\ exists (d : Governor) (new : list ForensicLogger.entry),
       governor r = value d
       /\ (d = ALLOW \/ d = REBUILD)
       /\ logged (ASCPI.log (fst s)) (ASCPI.log (fst s')) new
       /\ steps r = Z.of_nat (List.length new)
       /\ (List.length new <= Z.to_nat max_steps)%nat
       /\ Forall (fun e => entry_C e <= 0.95) (removelast new)
       /\ ((List.length new < Z.to_nat max_steps)%nat -> 0.95 < last (map entry_C new) 0)
       /\ UnifiedTensorKernel.n_calls (ASCPI.kernel (fst s'))
          = (UnifiedTensorKernel.n_calls (ASCPI.kernel (fst s))
             + Z.of_nat (List.length new)
             + match d with REBUILD => 10 | _ => 0 end)%Z
       /\ (d = ALLOW -> new <> [] -> coherence r = last (map entry_C new) 0).

(** What a raising call guarantees on a well-formed engine. *)
Definition process_exn (max_steps : Z) (s : ASCPI.state) (e : exn) (s' : ASCPI.state)
  : Prop :=
  wf (fst s) ->
  e = UnboundLocalError
  /\ (max_steps <= 0)%Z
  /\ wf (fst s')
  /\ snd s' = set_α (snd s) (α (snd s) * 1.5).

Lemma process_spec (text : str) (code : option str)
    (world_arg : option (list (str * str))) (max_steps : Z) (s : ASCPI.state) :
  wp (ASCPI.process text code world_arg max_steps) s
     (process_post max_steps s) (process_exn max_steps s).
Proof.
  unfold ASCPI.process. destruct s as [e0 p0].
  wp_go. apply wp_lift.
  destruct (text_total text (lit "lang")) as (ψ_lang & Elang & Hlang & _). rewrite Elang.
  apply wp_bind.
  (* the optional code field *)
  apply wp_mono with
    (Q := fun (ψ_code : option Ψ) s' =>
            s' = (ASCPI.with_guardian (ASCPI.with_step e0 (ASCPI.step e0 + 1)%Z)
                    (InvariantGuardian.reset (ASCPI.guardian e0)), p0)
            /\ forall c, ψ_code = Some c -> bounded c)
    (E := never); [| | intros ? ? []].
  { destruct code as [[| c0 c] |]; try (apply wp_ret; split; [reflexivity | discriminate]).
    apply wp_bind, wp_lift.
    destruct (code_total (c0 :: c)) as (ψc & Ec & Hc & _). rewrite Ec.
    apply wp_ret. split; [reflexivity |]. intros c' H; injection H as <-. exact Hc. }
  intros ψ_code s1 [-> Hcode]. apply wp_bind.
  (* the world sources *)
  set (e1 := ASCPI.with_guardian _ _).
  apply wp_mono with
    (Q := fun (_ : unit) s' =>
            exists w', s' = (ASCPI.with_world e1 w', p0)
                       /\ (wf e0 -> forall f, WorldCurvature.field w' = Some f -> bounded f))
    (E := never); [| | intros ? ? []].
  { destruct world_arg as [[| it items] |].
    1, 3: apply wp_ret; exists (ASCPI.world e0); split;
      [destruct e0; reflexivity | intros [_ Hw]; exact Hw].
    eapply wp_mono; [apply (for_each_world_spec (it :: items)) | | intros ? ? []].
    intros _ s' (w' & -> & _ & Hcons). exists w'. split; [reflexivity |].
    intros _ f Hf. destruct Hcons as (f' & Hf' & Hb); [discriminate |]. congruence. }
  intros _ s2 (w' & -> & Hw').
  set (e2 := ASCPI.with_world e1 w').
  wp_go. apply wp_lift.
  set (W := WorldCurvature.field (ASCPI.world e2)).
  set (fields := _ ++ _ ++ _).
  destruct (MultimodalProjector.project fields) as [cur0 | x] eqn:Eproj.
  2:{ (* projection cannot raise on a well-formed engine *)
    intros Hwf. exfalso.
    destruct (project_total fields) as (ψ & Eψ & _); [| congruence].
    unfold fields. apply Forall_app; split; [| apply Forall_app; split].
    - apply Forall_cons; [exact Hlang |].
      apply Forall_cons; [apply attractor_bounded |].
      apply Forall_cons; [exact (proj1 Hwf) | constructor].
    - destruct ψ_code as [c |]; [| constructor].
      apply Forall_cons; [apply Hcode; reflexivity | constructor].
    - unfold W, e2. eng_simpl.
      destruct (WorldCurvature.field w') as [f |] eqn:Ef; [| constructor].
      apply Forall_cons; [apply (Hw' Hwf f eq_refl) | constructor]. }
  pose proof (project_bounded fields cur0 Eproj) as Hcur0.
  apply wp_bind.
  eapply wp_mono; [apply evolution_loop_spec; exact Hcur0 | | intros ? ? []].
  intros v [e3 p3] (Hbv & Hf3 & new & Hlog & Htraj & Hlen & Hne & Hall & Hlast & Hn3 & Hnil & Hcons).
  cbn [ASCPI.v_current ASCPI.v_trajectory fst snd app] in *.
  assert (HW3 : ASCPI.world e3 = ASCPI.world e2) by apply Hf3.
  assert (Hp3 : p3 = p0) by apply Hf3.
  assert (Hwf3 : wf e0 -> wf e3).
  { intros Hwf. split.
    - destruct new as [| n0 new'].
      + destruct (Hnil eq_refl) as [_ Hs]. injection Hs as -> _. exact (proj1 Hwf).
      + apply Hcons. discriminate.
    - rewrite HW3. exact (Hw' Hwf). }
  wp_go. apply wp_lift.
  destruct (MaatGovernor.judge (ASCPI.governor e3) ψ_lang (ASCPI.v_current v) W)
    as [[[d score] gv'] | x] eqn:Ejudge.
  2:{ intros Hwf. exfalso.
    destruct (judge_total (ASCPI.governor e3) ψ_lang (ASCPI.v_current v) W Hbv)
      as (d & sc & gv' & E & _); [| congruence].
    intros w Hw. apply (Hw' Hwf). exact Hw. }
  pose proof (judge_decision _ _ _ _ _ _ _ Ejudge) as Hd.
  cbv beta iota. wp_go.
  set (e4 := ASCPI.with_governor e3 gv').
  destruct Hd as [-> | ->].
  - (* ALLOW *)
    wp_go. unfold process_post. cbn [output coherence signature steps governor].
    split; [exact Hbv |]. split; [reflexivity |]. split; [reflexivity |].
    split; [exact Hp3 |]. split; [intros Hwf; exact (Hwf3 Hwf) |].
    split; [reflexivity |].
    exists ALLOW, new. rewrite Htraj, length_map.
    split; [reflexivity |]. split; [left; reflexivity |]. split; [exact Hlog |].
    split; [reflexivity |]. split; [exact Hlen |]. split; [exact Hall |].
    split; [exact Hlast |].
    split; [unfold e4, e2, e1 in *; eng_simpl; lia |].
    intros _ Hnew. destruct (Hcons Hnew) as (_ & _ & _ & H). exact H.
  - (* REBUILD *)
    destruct new as [| n0 new'].
    + (* nothing was bound by the loop *)
      destruct (Hnil eq_refl) as [-> Hs]. injection Hs as -> ->.
      unfold wp at 1. rewrite rebuild_unbound by reflexivity.
      cbn [fst snd]. intros Hwf.
      split; [reflexivity |]. split.
      { simpl in Hne. destruct (Z.to_nat max_steps) eqn:En; [lia |].
        exfalso. apply Hne; [discriminate | reflexivity]. }
      split; [| reflexivity].
      destruct (Hwf3 Hwf) as [A B]. split; [exact A | exact B].
    + destruct Hcons as (Hcb & Hab & Hawb & HCl); [discriminate |].
      eapply wp_mono; [apply rebuild_spec; assumption | | intros ? ? []].
      intros v' [e5 p5] (Hb5 & Ht5 & Hf5 & Hn5 & Hl5 & Haw5). cbn [fst snd] in *.
      wp_go. unfold process_post. cbn [output coherence signature steps governor].
      assert (Hp5 : p5 = p3) by apply Hf5.
      assert (HW5 : ASCPI.world e5 = ASCPI.world e3) by apply Hf5.
      split; [exact Hb5 |]. split; [reflexivity |]. split; [reflexivity |].
      split; [cbn [snd]; congruence |].
      split.
      { intros Hwf. split; [exact Haw5 |].
        eng_simpl. rewrite HW5, HW3. exact (Hw' Hwf). }
      split; [reflexivity |].
      exists REBUILD, (n0 :: new'). rewrite Ht5, Htraj, length_map.
      split; [reflexivity |]. split; [right; reflexivity |].
      split; [eng_simpl; rewrite Hl5; exact Hlog |].
      split; [reflexivity |]. split; [exact Hlen |]. split; [exact Hall |].
      split; [exact Hlast |].
      split; [unfold e4, e2, e1 in *; eng_simpl; lia |].
      intros H. discriminate H.
Qed.

End Loop.

(** ** Two engines that differ in agent name and log session *)

(** The engine with its agent name and its log's session tag blanked. *)
Definition erase (e : ASCPI.obj) : ASCPI.obj :=
  ASCPI.mk (ASCPI.kernel e) (ASCPI.memory e) (ASCPI.awareness e) (ASCPI.coherence e)
           (ASCPI.world e) (ASCPI.guardian e) (ASCPI.maat e) (ASCPI.governor e)
           (ForensicLogger.mk (ForensicLogger.max_entries (ASCPI.log e))
                              (ForensicLogger.entries (ASCPI.log e))
                              []
                              (ForensicLogger.count (ASCPI.log e)))
           [] (ASCPI.step e) (ASCPI.current e).

(** Related states: equal up to [erase]; the shared [KERNEL] equal too
    when [keq] is set. *)
Definition related (keq : bool) (s1 s2 : ASCPI.state) : Prop :=
  erase (fst s1) = erase (fst s2) /\ (keq = true -> snd s1 = snd s2).

(** [m] maps related states to equal outcomes and related states. *)
Definition respects {A} (keq : bool) (m : ASCPI.M A) : Prop :=
  forall s1 s2, related keq s1 s2 ->
    fst (m s1) = fst (m s2) /\ related keq (snd (m s1)) (snd (m s2)).

Lemma respects_ret {A} keq (a : A) : respects keq (ASCPI.ret a).
Proof. intros s1 s2 H. split; [reflexivity | exact H]. Qed.

Lemma respects_raise {A} keq (e : exn) : respects keq (@ASCPI.raise A e).
Proof. intros s1 s2 H. split; [reflexivity | exact H]. Qed.

Lemma respects_lift {A} keq (o : outcome A) : respects keq (ASCPI.lift o).
Proof. intros s1 s2 H. split; [reflexivity | exact H]. Qed.

Lemma respects_bind {A B} keq (m : ASCPI.M A) (k : A -> ASCPI.M B) :
  respects keq m -> (forall a, respects keq (k a)) -> respects keq (ASCPI.bind m k).
Proof.
  intros Hm Hk s1 s2 H. unfold ASCPI.bind.
  destruct (Hm s1 s2 H) as [Ho Hs].
  destruct (m s1) as [o1 s1'], (m s2) as [o2 s2']. cbn [fst snd] in *. subst o2.
  destruct o1 as [a | e]; [apply Hk, Hs | split; [reflexivity | exact Hs]].
Qed.

Lemma respects_bind_ret {A B} keq (a : A) (k : A -> ASCPI.M B) :
  respects keq (k a) -> respects keq (ASCPI.bind (ASCPI.ret a) k).
Proof. intros H s1 s2 HR. exact (H s1 s2 HR). Qed.

Lemma respects_gets {A} keq (f : ASCPI.obj -> A) :
  (forall e, f e = f (erase e)) -> respects keq (ASCPI.gets f).
Proof.
  intros Hf s1 s2 H. split; [| exact H]. cbn.
  rewrite (Hf (fst s1)), (Hf (fst s2)). destruct H as [-> _]. reflexivity.
Qed.

Lemma respects_modify keq (f : ASCPI.obj -> ASCPI.obj) :
  (forall e, erase (f e) = erase (f (erase e))) -> respects keq (ASCPI.modify f).
Proof.
  intros Hf s1 s2 [He Hk]. split; [reflexivity |]. split; [| exact Hk]. cbn.
  rewrite (Hf (fst s1)), (Hf (fst s2)), He. reflexivity.
Qed.

Lemma respects_get_KERNEL : respects true ASCPI.get_KERNEL.
Proof. intros s1 s2 H. split; [| exact H]. cbn. f_equal. apply H. reflexivity. Qed.

Lemma respects_put_KERNEL keq p : respects keq (ASCPI.put_KERNEL p).
Proof.
  intros s1 s2 [He Hk]. split; [reflexivity |]. split; [exact He | reflexivity].
Qed.

Lemma respects_read_local {A} keq (v : option A) : respects keq (ASCPI.read_local v).
Proof. destruct v; [apply respects_ret | apply respects_raise]. Qed.

Ltac erase_tac :=
  let e := fresh "e" in
  intros e; destruct e as [? ? ? ? ? ? ? ? [? ? ? ?] ? ? ?]; reflexivity.

Ltac respects_step :=
  lazymatch goal with
  | |- respects _ (ASCPI.bind _ _) => apply respects_bind; [| intros ?]
  | |- respects _ (ASCPI.ret _) => apply respects_ret
  | |- respects _ (ASCPI.raise _) => apply respects_raise
  | |- respects _ (ASCPI.lift _) => apply respects_lift
  | |- respects _ (ASCPI.gets _) => apply respects_gets; erase_tac
  | |- respects _ (ASCPI.modify _) => apply respects_modify; erase_tac
  | |- respects _ ASCPI.get_KERNEL => apply respects_get_KERNEL
  | |- respects _ (ASCPI.put_KERNEL _) => apply respects_put_KERNEL
  | |- respects _ (ASCPI.read_local _) => apply respects_read_local
  | |- respects _ (let '(_, _) := ?x in _) => destruct x
  | |- respects _ (match ?x with _ => _ end) => destruct x
  end.

Ltac respects_go := repeat respects_step.

Section Respects.
Context {P : Platform}.

Lemma respects_settle keq W before current : respects keq (ASCPI.settle W before current).
Proof. unfold ASCPI.settle. respects_go. Qed.

Lemma respects_evolve_kernel ψ_lang ψ_code W v :
  respects true (ASCPI.evolve_kernel ψ_lang ψ_code W v).
Proof. unfold ASCPI.evolve_kernel. cbv zeta. respects_go. Qed.

Lemma respects_evolve_settle keq ψ_lang ψ_code W before v :
  respects keq (ASCPI.evolve_settle ψ_lang ψ_code W before v).
Proof.
  unfold ASCPI.evolve_settle. respects_go. apply respects_settle.
  all: respects_go.
Qed.

Lemma respects_evolution_loop ψ_lang ψ_code W n :
  forall v, respects true (ASCPI.evolution_loop n ψ_lang ψ_code W v).
Proof.
  induction n as [| n IH]; intros v; cbn [ASCPI.evolution_loop].
  - apply respects_ret.
  - apply respects_bind; [apply respects_evolve_kernel |]. intros [before v1].
    apply respects_bind; [apply respects_evolve_settle |]. intros [v2 stop].
    destruct stop; [apply respects_ret | apply IH].
Qed.

Lemma respects_rebuild_step W v : respects true (ASCPI.rebuild_step W v).
Proof.
  unfold ASCPI.rebuild_step. cbv zeta. respects_go. apply respects_settle.
  all: respects_go.
Qed.

Lemma respects_rebuild_loop W n : forall v, respects true (ASCPI.rebuild_loop n W v).
Proof.
  induction n as [| n IH]; intros v; cbn [ASCPI.rebuild_loop].
  - apply respects_ret.
  - apply respects_bind; [apply respects_rebuild_step | exact IH].
Qed.

Lemma respects_rebuild W v : respects true (ASCPI.rebuild W v).
Proof.
  unfold ASCPI.rebuild. respects_go. apply respects_rebuild_loop. all: respects_go.
Qed.

(** With its locals unbound the rebuild raises the same way whatever the
    shared [KERNEL] holds. *)
Lemma respects_rebuild_unbound keq W v :
  ASCPI.v_coherences v = None -> respects keq (ASCPI.rebuild W v).
Proof.
  intros Hc s1 s2 [He Hk]. rewrite !rebuild_unbound by exact Hc. cbn [fst snd].
  split; [reflexivity |]. split; [exact He |].
  intros Hkeq. rewrite (Hk Hkeq). reflexivity.
Qed.

Lemma respects_for_each {A} keq (l : list A) (body : A -> ASCPI.M unit) :
  (forall a, respects keq (body a)) -> respects keq (ASCPI.for_each l body).
Proof.
  intros Hb. induction l as [| a l IH]; simpl.
  - apply respects_ret.
  - apply respects_bind; [apply Hb | intros _; exact IH].
Qed.

(** [process] on related states: equal outcomes.  The shared [KERNEL] need
    only agree when the evolution loop runs at all. *)
Lemma respects_process text code world_arg max_steps :
  respects (negb (Nat.eqb (Z.to_nat max_steps) 0))
           (ASCPI.process text code world_arg max_steps).
Proof.
  unfold ASCPI.process.
  apply respects_bind; [respects_go |]. intros _.
  apply respects_bind; [respects_go |]. intros _.
  apply respects_bind; [respects_go |]. intros ψ_lang.
  apply respects_bind.
  { destruct code as [[| c0 c] |]; respects_go. }
  intros ψ_code.
  apply respects_bind.
  { destruct world_arg as [[| it items] |]; try apply respects_ret.
    apply respects_for_each. intros a. respects_go. }
  intros _.
  apply respects_bind; [respects_go |]. intros W.
  apply respects_bind; [respects_go |]. intros mem.
  apply respects_bind; [respects_go |]. intros aw.
  apply respects_bind; [respects_go |]. intros current.
  destruct (Z.to_nat max_steps) as [| n] eqn:En; cbn [Nat.eqb negb].
  - (* no iteration: the shared dictionary is never read *)
    cbn [ASCPI.evolution_loop].
    apply respects_bind_ret.
    apply respects_bind; [respects_go |]. intros gv.
    apply respects_bind; [respects_go |]. intros [[d score] gv'].
    apply respects_bind; [respects_go |]. intros _.
    apply respects_bind; [| intros v'; respects_go].
    destruct d; try apply respects_ret.
    apply respects_rebuild_unbound. reflexivity.
  - apply respects_bind; [apply respects_evolution_loop |]. intros v.
    apply respects_bind; [respects_go |]. intros gv.
    apply respects_bind; [respects_go |]. intros [[d score] gv'].
    apply respects_bind; [respects_go |]. intros _.
    apply respects_bind; [| intros v'; respects_go].
    destruct d; try apply respects_ret. apply respects_rebuild.
Qed.

End Respects.

(** ** The claims about [process] and the public operations *)

Lemma wf_init {P : Platform} (agent : str) (now : R) : wf (ASCPI.__init__ agent now).
Proof. split; [apply new_Ψ_bounded | discriminate]. Qed.

(** The ranges behind [bounded], with the constants of the source. *)
Lemma bounded_ranges (ψ : Ψ) :
  bounded ψ <->
  (0.01 <= κ ψ <= 10) /\ (0 <= θ ψ < 2 * PI) /\ (0 <= C ψ <= 1) /\ 0 < N ψ.
Proof. unfold bounded, κ_MIN, κ_MAX, τ, π. split; intros H; repeat split; try apply H; lra. Qed.




(** With exact arithmetic every state the public operations produce
    satisfies the four bounds (κ in [0.01, 10], θ in [0, 2π), C in [0, 1],
    N > 0): the constructor [Ψ(...)], [copy] and [blend]; the encoder on
    text and on code, which always return; the kernel; the guardian; and
    the output of every call of [process] that returns. *)
Theorem public_operations_yield_bounded_states {P : Platform} :
  (forall dphi kappa theta n c step s, bounded (new_Ψ dphi kappa theta n c step s))
  /\ (forall ψ, bounded (copy ψ))
  /\ (forall a b w, bounded (blend a b w))
  /\ (forall txt source, exists ψ, Encoder.text txt source = Ok ψ /\ bounded ψ)
  /\ (forall txt, exists ψ, Encoder.code txt = Ok ψ /\ bounded ψ)
  /\ (forall k p ψ A M_inf W grad_C,
         bounded (fst (UnifiedTensorKernel.__call__ k p ψ A M_inf W grad_C)))
  /\ (forall g before after L,
         bounded (fst (InvariantGuardian.enforce g before after L)))
  /\ (forall text code world_arg max_steps s,
         match fst (ASCPI.process text code world_arg max_steps s) with
         | Ok r => bounded (output r)
         | Raise _ => True
         end).
Proof.
  split; [intros; apply new_Ψ_bounded |].
  split; [intros; apply copy_bounded |].
  split; [intros; apply blend_bounded |].
  split.
  { intros txt source. destruct (text_total txt source) as (ψ & E & H & _).
    exists ψ. split; assumption. }
  split.
  { intros txt. destruct (code_total txt) as (ψ & E & H & _).
    exists ψ. split; assumption. }
  split; [intros; apply kernel_bounded |].
  split; [intros; apply guardian_enforce_bounded |].
  intros text code world_arg max_steps s.
  pose proof (process_spec text code world_arg max_steps s) as H. unfold wp in H.
  destruct (ASCPI.process text code world_arg max_steps s) as [[r | e] s'];
    cbn [fst]; [exact (proj1 H) | exact I].
Qed.

(** C10. [MaatGovernor.judge] returns only [ALLOW] or [REBUILD], and no
    result that [process] returns has the governor field "block". *)
Theorem governor_never_blocks {P : Platform} :
  (forall gv ψ_in ψ_out W,
      match MaatGovernor.judge gv ψ_in ψ_out W with
      | Ok ((d, _), _) => d = ALLOW \/ d = REBUILD
      | Raise _ => True
      end)
  /\ (forall text code world_arg max_steps s,
         match fst (ASCPI.process text code world_arg max_steps s) with
         | Ok r => (governor r = lit "allow" \/ governor r = lit "rebuild")
                   /\ governor r <> lit "block"
         | Raise _ => True
         end).
Proof.
  split.
  - intros gv ψ_in ψ_out W.
    destruct (MaatGovernor.judge gv ψ_in ψ_out W) as [[[d sc] gv'] | e] eqn:E; [| exact I].
    eapply judge_decision, E.
  - intros text code world_arg max_steps s.
    pose proof (process_spec text code world_arg max_steps s) as H. unfold wp in H.
    destruct (ASCPI.process text code world_arg max_steps s) as [[r | e] s'];
      cbn [fst]; [| exact I].
    destruct H as (_ & _ & _ & _ & _ & _ & d & new & Hg & Hd & _).
    rewrite Hg. destruct Hd as [-> | ->]; (split; [auto | discriminate]).
Qed.

(** On a well-formed engine a call of [process] either returns, and
    then: [steps] is the number of log entries the call wrote, one per
    iteration of the evolution loop, and is at most [max_steps]; every
    iteration but the last ended with coherence at most 0.95; if fewer
    than [max_steps] iterations ran, the last one ended above 0.95; the
    kernel ran [steps] times, and ten more when the governor chose to
    rebuild; the engine is well-formed again.  Or it raises, which happens
    only for [max_steps <= 0], as the unbound local of the rebuild. *)
Theorem process_steps {P : Platform} (text : str) (code : option str)
    (world_arg : option (list (str * str))) (max_steps : Z) (s : ASCPI.state) :
  wf (fst s) ->
  match ASCPI.process text code world_arg max_steps s with
  | (Ok r, s') =>
    (0 <= steps r <= Z.max 0 max_steps)%Z
    /\ wf (fst s')
    /\ exists new : list ForensicLogger.entry,
         logged (ASCPI.log (fst s)) (ASCPI.log (fst s')) new
         /\ steps r = Z.of_nat (List.length new)
         /\ Forall (fun e => entry_C e <= 0.95) (removelast new)
         /\ ((steps r < max_steps)%Z -> 0.95 < last (map entry_C new) 0)
         /\ UnifiedTensorKernel.n_calls (ASCPI.kernel (fst s'))
            = (UnifiedTensorKernel.n_calls (ASCPI.kernel (fst s)) + steps r
               + (if WorldCurvature.str_eqb (governor r) (lit "rebuild") then 10 else 0))%Z
  | (Raise e, s') => e = UnboundLocalError /\ (max_steps <= 0)%Z /\ wf (fst s')
  end.
Proof.
  intros Hwf.
  pose proof (process_spec text code world_arg max_steps s) as H. unfold wp in H.
  destruct (ASCPI.process text code world_arg max_steps s) as [[r | e] s'].
  - destruct H as (_ & _ & _ & _ & Hwf' & _ & d & new & Hg & Hd & Hlog & Hst & Hlen
                   & Hall & Hlast & Hn & _).
    split; [lia |]. split; [exact (Hwf' Hwf) |].
    exists new. repeat split; try assumption; try apply Hlog.
    + intros Hlt. apply Hlast. lia.
    + rewrite Hn, Hst, Hg. destruct Hd as [-> | ->]; reflexivity.
  - destruct (H Hwf) as (He & Hm & Hwf' & _). auto.
Qed.

(** A fresh engine on the sample platform, the input of the repository's
    convergence check and the default 25 steps. *)
Lemma process_steps_witness :
  let s := (ASCPI.__init__ (P := sample_platform) (lit "ascpi_9") 0, KERNEL) in
  match ASCPI.process (P := sample_platform) (lit "Iteration 0") None None 25 s with
  | (Ok r, s') => (0 <= steps r <= 25)%Z
  | (Raise e, s') => False
  end.
Proof.
  intros s.
  pose proof (process_steps (P := sample_platform) (lit "Iteration 0") None None 25 s
                (wf_init (P := sample_platform) (lit "ascpi_9") 0)) as H.
  destruct (ASCPI.process (lit "Iteration 0") None None 25 s) as [[r | e] s'].
  - destruct H as [H _]. exact H.
  - destruct H as (_ & H & _). lia.
Defined.

(** C2. Two freshly constructed engines, whatever their agent names and
    the clock readings their loggers take, run [process] one after the
    other on the same text, code, world and step bound, sharing the
    module's [KERNEL] dictionary: both return and the two results are
    equal, in particular signature and coherence, or both raise the same
    exception. *)
Theorem fresh_engines_agree {P : Platform} (agent1 agent2 : str) (now1 now2 : R)
    (K0 : KernelParams) (text : str) (code : option str)
    (world_arg : option (list (str * str))) (max_steps : Z) :
  let run1 := ASCPI.process text code world_arg max_steps (ASCPI.__init__ agent1 now1, K0) in
  let run2 := ASCPI.process text code world_arg max_steps
                (ASCPI.__init__ agent2 now2, snd (snd run1)) in
  match fst run1, fst run2 with
  | Ok r1, Ok r2 => signature r1 = signature r2 /\ coherence r1 = coherence r2 /\ r1 = r2
  | Raise e1, Raise e2 => e1 = e2
  | _, _ => False
  end.
Proof.
  intros run1 run2.
  pose proof (process_spec text code world_arg max_steps (ASCPI.__init__ agent1 now1, K0))
    as H. unfold wp in H. fold run1 in H.
  assert (Hrel : fst run2 = fst run1).
  { symmetry. unfold run2.
    apply (respects_process text code world_arg max_steps
             (ASCPI.__init__ agent1 now1, K0)
             (ASCPI.__init__ agent2 now2, snd (snd run1))).
    split; [reflexivity |]. cbn [snd]. intros Hkeq.
    destruct run1 as [[r1 | e1] [e1' K1]]; cbn [snd].
    - symmetry. apply H.
    - destruct (H (wf_init agent1 now1)) as (_ & Hm & _).
      replace (Z.to_nat max_steps) with O in Hkeq by lia. discriminate. }
  rewrite Hrel. destruct (fst run1); auto.
Qed.

(** * Further properties of the engine's operations *)

(** ** Enforced states *)

(** A state on which [_enforce] has nothing left to do. *)
Definition enforced (ψ : Ψ) : Prop := _enforce ψ = ψ.

Lemma enforced_bounded (ψ : Ψ) : enforced ψ -> bounded ψ /\ ε <= N ψ.
Proof.
  intros H. unfold enforced in H. rewrite <- H.
  split; [apply _enforce_bounded | apply _enforce_N_ge].
Qed.

Lemma enforced_enforce (ψ : Ψ) : enforced (_enforce ψ).
Proof. apply _enforce_id; [apply _enforce_bounded | apply _enforce_N_ge]. Qed.

(** X1. On a state whose phase is not negative [_enforce] is idempotent,
    and so are the constructor and [copy]: enforcing or copying the
    enforced state returns it unchanged.  This holds whatever the rounding
    of [%]: on such a phase [%] does not round.  (On a negative phase it
    ends in a rounded addition, which can store 2π itself, and a second
    [%] then gives 0.) *)
Theorem enforce_idempotent (ψ : Ψ) :
  0 <= θ ψ ->
  _enforce (_enforce ψ) = _enforce ψ
  /\ copy (_enforce ψ) = _enforce ψ
  /\ copy (copy ψ) = copy ψ
  /\ forall rnd,
       _enforce_rounded rnd ψ = _enforce ψ
       /\ _enforce_rounded rnd (_enforce_rounded rnd ψ) = _enforce_rounded rnd ψ.
Proof.
  intros Hθ.
  pose proof (enforced_enforce ψ) as H. unfold enforced in H.
  split; [exact H |]. split.
  { unfold copy, new_Ψ.
    replace (mkΨ (ΔΦ (_enforce ψ)) (κ (_enforce ψ)) (θ (_enforce ψ)) (N (_enforce ψ))
                 (C (_enforce ψ)) (t (_enforce ψ)) (src (_enforce ψ)))
      with (_enforce ψ) by (destruct (_enforce ψ); reflexivity).
    exact H. }
  split.
  { unfold copy at 1, new_Ψ.
    replace (mkΨ (ΔΦ (copy ψ)) (κ (copy ψ)) (θ (copy ψ)) (N (copy ψ))
                 (C (copy ψ)) (t (copy ψ)) (src (copy ψ)))
      with (copy ψ) by (destruct (copy ψ); reflexivity).
    apply (enforced_enforce (mkΨ (ΔΦ ψ) (κ ψ) (θ ψ) (N ψ) (C ψ) (t ψ) (src ψ))). }
  intros rnd. rewrite (_enforce_rounded_nonneg rnd ψ Hθ). split; [reflexivity |].
  rewrite _enforce_rounded_nonneg; [exact H |].
  cbn [_enforce θ]. apply pymod_bounds, τ_pos.
Qed.

(** The state of the repository's creation test, [Ψ(κ=-5, C=2.0, θ=10)]
    before enforcement. *)
Lemma enforce_idempotent_witness :
  let ψ := mkΨ default_ΔΦ (-5) 10 default_N 2.0 default_t default_src in
  _enforce (_enforce ψ) = _enforce ψ.
Proof.
  intros ψ. apply (enforce_idempotent ψ). simpl. lra.
Defined.

(** ** Ring buffers *)

Lemma deque_append_length {A} (maxlen : nat) (d : list A) (x : A) :
  (List.length d <= maxlen)%nat ->
  List.length (deque_append maxlen d x) = Nat.min maxlen (S (List.length d)).
Proof.
  intros H. unfold deque_append. rewrite length_app. cbn [List.length].
  destruct (maxlen <? List.length d + 1)%nat eqn:E.
  - apply Nat.ltb_lt in E. destruct d as [| a d]; simpl in *; [lia |].
    rewrite length_app. simpl. lia.
  - apply Nat.ltb_ge in E. rewrite length_app. simpl. lia.
Qed.

(** X2. The memory's history is a ring buffer of capacity 100: after any
    run of [absorb] calls on a fresh memory it holds as many entries as
    there were calls, up to 100, and every entry is an enforced state. *)
Theorem memory_history_is_bounded (inputs : list (Ψ * R)) :
  let m := absorb_all MemoryField.__init__ inputs in
  List.length (MemoryField._history m) = Nat.min 100 (List.length inputs)
  /\ Forall enforced (MemoryField._history m).
Proof.
  induction inputs as [| [ψ rate] inputs IH] using rev_ind.
  - split; [reflexivity | constructor].
  - cbv zeta in *. rewrite absorb_all_snoc, absorb_history, length_app.
    destruct IH as [IHlen IHall]. cbn [List.length]. split.
    + rewrite deque_append_length by lia. rewrite IHlen. lia.
    + unfold deque_append.
      assert (Hall : Forall enforced
                (MemoryField._history (absorb_all MemoryField.__init__ inputs)
                 ++ [copy (absorbed (absorb_all MemoryField.__init__ inputs) ψ rate)])).
      { apply Forall_app. split; [exact IHall |].
        constructor; [apply enforced_enforce | constructor]. }
      destruct (_ <? _)%nat; [| exact Hall].
      destruct (_ ++ _) as [| h l]; [constructor |]. simpl.
      inversion Hall; assumption.
Qed.

(** ** Softmax weights on inverse curvature *)

Lemma fold_left_Rplus (l : list R) (a : R) : fold_left Rplus l a = a + pysum l.
Proof.
  unfold pysum. revert a. induction l as [| x l IH]; intros a; simpl.
  - lra.
  - rewrite (IH (a + x)), (IH (0 + x)). lra.
Qed.

Lemma pysum_cons (x : R) (l : list R) : pysum (x :: l) = x + pysum l.
Proof. unfold pysum at 1. simpl. rewrite fold_left_Rplus. lra. Qed.

Lemma pysum_nil : pysum [] = 0.
Proof. reflexivity. Qed.

Lemma pysum_scale (c : R) (l : list R) : pysum (map (fun x => x * c) l) = pysum l * c.
Proof.
  induction l as [| x l IH]; simpl.
  - rewrite pysum_nil. lra.
  - rewrite !pysum_cons, IH. lra.
Qed.

Lemma pysum_exp_pos (l : list R) : l <> [] -> 0 < pysum (map exp l).
Proof.
  intros H. destruct l as [| x l]; [contradiction |]. clear H. revert x.
  induction l as [| y l IH]; intros x; simpl.
  - rewrite pysum_cons, pysum_nil. pose proof (exp_pos x). lra.
  - rewrite pysum_cons. pose proof (exp_pos x). pose proof (IH y). simpl in H0. lra.
Qed.

(** The un-normalised weight of a curvature and the normalising total. *)
Definition raw_weight (k : R) : R := exp (1.0 / Rmax k ε).
Definition raw_total (κs : list R) : R := pysum (map raw_weight κs).

Lemma softmax_unfold (κs : list R) :
  MemoryField.softmax_inv_κ κs = map (fun k => raw_weight k / raw_total κs) κs.
Proof.
  unfold MemoryField.softmax_inv_κ, raw_total, raw_weight. cbv zeta.
  rewrite !map_map. reflexivity.
Qed.

Lemma raw_total_pos (κs : list R) : κs <> [] -> 0 < raw_total κs.
Proof.
  intros H. unfold raw_total.
  replace (map raw_weight κs) with (map exp (map (fun k => 1.0 / Rmax k ε) κs))
    by (rewrite map_map; reflexivity).
  apply pysum_exp_pos. destruct κs; [contradiction | discriminate].
Qed.

Lemma raw_weight_antitone (k1 k2 : R) : k1 <= k2 -> raw_weight k2 <= raw_weight k1.
Proof.
  intros H. unfold raw_weight. pose proof ε_pos as Hε.
  assert (H1 : 0 < Rmax k1 ε) by (pose proof (Rmax_r k1 ε); lra).
  assert (H2 : Rmax k1 ε <= Rmax k2 ε) by (apply Rle_max_compat_r, H).
  assert (Hinv : / Rmax k2 ε <= / Rmax k1 ε) by (apply Rinv_le_contravar; assumption).
  destruct (Rle_lt_or_eq_dec _ _ Hinv) as [Hlt | Heq].
  - left. apply exp_increasing. lra.
  - right. unfold Rdiv. rewrite Heq. reflexivity.
Qed.

(** X3. On curvatures of enforced states (at least [κ_MIN], where the
    exponential stays far below the largest float) the softmax weights
    used by [fuse], [CoherenceForce.compute] and
    [MultimodalProjector.project] form a probability vector, one weight
    per curvature: each is positive, they sum to 1, and a smaller
    curvature never gets a smaller weight. *)
Theorem softmax_weights_are_a_distribution (κs : list R) :
  κs <> [] ->
  Forall (fun k => κ_MIN <= k) κs ->
  let w := MemoryField.softmax_inv_κ κs in
  List.length w = List.length κs
  /\ Forall (fun x => 0 < x) w
  /\ pysum w = 1
  /\ forall i j, (i < List.length κs)%nat -> (j < List.length κs)%nat ->
                 nth i κs 0 <= nth j κs 0 -> nth j w 0 <= nth i w 0.
Proof.
  intros Hne _ w. unfold w. rewrite softmax_unfold.
  pose proof (raw_total_pos κs Hne) as HT. set (T := raw_total κs) in *.
  split; [apply length_map |]. split.
  { apply Forall_forall. intros x Hx. apply in_map_iff in Hx.
    destruct Hx as (k & <- & _). unfold raw_weight.
    apply Rmult_lt_0_compat; [apply exp_pos | apply Rinv_0_lt_compat, HT]. }
  split.
  { replace (map (fun k => raw_weight k / T) κs)
      with (map (fun x => x * / T) (map raw_weight κs))
      by (rewrite map_map; reflexivity).
    rewrite pysum_scale. fold (raw_total κs). fold T. apply Rinv_r. lra. }
  intros i j Hi Hj Hle.
  assert (Hnth : forall n, (n < List.length κs)%nat ->
                   nth n (map (fun k => raw_weight k / T) κs) 0
                   = raw_weight (nth n κs 0) / T).
  { intros n Hn.
    rewrite (nth_indep _ 0 ((fun k => raw_weight k / T) 0)) by (rewrite length_map; exact Hn).
    exact (map_nth (fun k => raw_weight k / T) κs 0 n). }
  rewrite (Hnth i Hi), (Hnth j Hj).
  apply Rmult_le_compat_r; [left; apply Rinv_0_lt_compat, HT |].
  apply raw_weight_antitone, Hle.
Qed.

Lemma softmax_witness_list : [0.5; 0.2] <> ([] : list R).
Proof. discriminate. Qed.

Lemma softmax_weights_witness :
  pysum (MemoryField.softmax_inv_κ [0.5; 0.2]) = 1.
Proof.
  apply (softmax_weights_are_a_distribution [0.5; 0.2] softmax_witness_list).
  apply Forall_cons; [| apply Forall_cons; [| apply Forall_nil]];
    unfold κ_MIN; lra.
Defined.

(** ** The coherence force *)

Lemma combine_map_self {A B} (f : A -> B) (l : list A) :
  combine (map f l) l = map (fun x => (f x, x)) l.
Proof. induction l as [| x l IH]; simpl; [reflexivity | rewrite IH; reflexivity]. Qed.

(** A weighted sum with the softmax weights, as a quotient. *)
Lemma softmax_average {A} (κ_of val : A -> R) (items : list A) :
  pysum (map (fun wi => fst wi * val (snd wi))
             (combine (MemoryField.softmax_inv_κ (map κ_of items)) items))
  = pysum (map (fun it => raw_weight (κ_of it) * val it) items)
    / raw_total (map κ_of items).
Proof.
  rewrite softmax_unfold, map_map, combine_map_self, map_map. cbn [fst snd].
  set (T := raw_total (map κ_of items)).
  replace (map (fun x => raw_weight (κ_of x) / T * val x) items)
    with (map (fun x => x * / T) (map (fun it => raw_weight (κ_of it) * val it) items)).
  - rewrite pysum_scale. reflexivity.
  - rewrite map_map. apply map_ext. intros a. unfold Rdiv. ring.
Qed.

Lemma weighted_sum_range {A} (κ_of val : A -> R) (lo hi : R) (items : list A) :
  Forall (fun it => lo <= val it <= hi) items ->
  lo * raw_total (map κ_of items)
  <= pysum (map (fun it => raw_weight (κ_of it) * val it) items)
  <= hi * raw_total (map κ_of items).
Proof.
  unfold raw_total. induction 1 as [| it items Hit Hitems IH]; simpl.
  - rewrite !pysum_nil. lra.
  - rewrite !pysum_cons.
    assert (Hw : 0 < raw_weight (κ_of it)) by apply exp_pos.
    split; nra.
Qed.

Lemma softmax_average_range {A} (κ_of val : A -> R) (lo hi : R) (items : list A) :
  items <> [] ->
  Forall (fun it => lo <= val it <= hi) items ->
  lo <= pysum (map (fun wi => fst wi * val (snd wi))
                   (combine (MemoryField.softmax_inv_κ (map κ_of items)) items))
     <= hi.
Proof.
  intros Hne Hall. rewrite softmax_average.
  assert (HT : 0 < raw_total (map κ_of items)).
  { apply raw_total_pos. destruct items; [contradiction | discriminate]. }
  pose proof (weighted_sum_range κ_of val lo hi items Hall) as [H1 H2].
  set (T := raw_total (map κ_of items)) in *.
  set (S := pysum _) in *.
  split.
  - apply (Rmult_le_reg_r T); [exact HT |]. unfold Rdiv.
    rewrite Rmult_assoc, Rinv_l by lra. lra.
  - apply (Rmult_le_reg_r T); [exact HT |]. unfold Rdiv.
    rewrite Rmult_assoc, Rinv_l by lra. lra.
Qed.

(** X4. [CoherenceForce.compute] on a dictionary of sources with the
    curvature of enforced states (at least [κ_MIN]): the fused coherence
    is a weighted average, so it lies in any range that holds all the
    coherences it is given; the gradient is the fused value minus the one
    remembered from the call before, and the fused value is remembered in
    turn. *)
Theorem fused_coherence_is_an_average
    (self : CoherenceForce.obj) (coherences : list (str * (R * R))) (lo hi : R) :
  coherences <> [] ->
  Forall (fun it => κ_MIN <= snd (snd it)) coherences ->
  Forall (fun it => lo <= fst (snd it) <= hi) coherences ->
  let '((grad_C, C_fused), self') := CoherenceForce.compute self coherences in
  lo <= C_fused <= hi
  /\ grad_C = C_fused - CoherenceForce._C_prev self
  /\ CoherenceForce._C_prev self' = C_fused.
Proof.
  intros Hne _ Hall. unfold CoherenceForce.compute.
  destruct coherences as [| it items]; [contradiction |].
  cbv zeta. split; [| split; reflexivity].
  apply (softmax_average_range (fun it => snd (snd it)) (fun it => fst (snd it))
           lo hi (it :: items) Hne Hall).
Qed.

Lemma fused_coherence_witness :
  let '((grad_C, C_fused), self') :=
    CoherenceForce.compute CoherenceForce.__init__
      [(lit "a", (0.7, 0.3)); (lit "b", (0.5, 0.8))] in
  0.5 <= C_fused <= 0.7
  /\ grad_C = C_fused - CoherenceForce._C_prev CoherenceForce.__init__
  /\ CoherenceForce._C_prev self' = C_fused.
Proof.
  apply (fused_coherence_is_an_average CoherenceForce.__init__
           [(lit "a", (0.7, 0.3)); (lit "b", (0.5, 0.8))] 0.5 0.7).
  - discriminate.
  - apply Forall_cons; [| apply Forall_cons; [| apply Forall_nil]];
      unfold κ_MIN; simpl; lra.
  - repeat constructor; simpl; lra.
Defined.

(** X5. Calling [compute] again on the same dictionary returns a zero
    gradient: the force vanishes as soon as the sources stop changing.
    This is what every iteration of the rebuild after the evolution loop
    gets, since the rebuild reuses the loop's last dictionary. *)
Theorem repeated_compute_has_zero_gradient
    (self : CoherenceForce.obj) (coherences : list (str * (R * R))) :
  let self' := snd (CoherenceForce.compute self coherences) in
  fst (fst (CoherenceForce.compute self' coherences)) = 0
  /\ snd (CoherenceForce.compute self' coherences) = self'.
Proof.
  unfold CoherenceForce.compute. destruct coherences as [| it items].
  - cbn. split; [lra | reflexivity].
  - cbn [fst snd CoherenceForce._C_prev]. split; [lra | reflexivity].
Qed.

(** ** Distance and inner product *)

Lemma dist_comm (a b : Ψ) : dist a b = dist b a.
Proof.
  unfold dist, pylog.
  destruct (Rlt_dec 0 (κ a + ε)), (Rlt_dec 0 (κ b + ε)); cbn [obind]; try reflexivity;
    destruct (Rlt_dec 0 (N a + ε)), (Rlt_dec 0 (N b + ε)); cbn [obind]; try reflexivity.
  cbv zeta. f_equal.
  replace (θ b - θ a) with (- (θ a - θ b)) by ring. rewrite Rabs_Ropp. ring.
Qed.

(** X6. [Ψ.dist] behaves like a distance: it is symmetric (also in what it
    raises); on bounded states whose tensions differ by at most
    [float_safe], so that the square does not overflow, it returns a
    non-negative number; and the distance of a bounded state to itself is
    0. *)
Theorem dist_is_symmetric_and_zero_on_self :
  (forall a b, dist a b = dist b a)
  /\ (forall a b, bounded a -> bounded b -> Rabs (ΔΦ a - ΔΦ b) <= float_safe ->
        exists d, dist a b = Ok d /\ 0 <= d)
  /\ (forall a, bounded a -> dist a a = Ok 0).
Proof.
  split; [exact dist_comm |]. split.
  - intros a b Ha Hb _. destruct (dist_total a b Ha Hb) as [d Hd].
    exists d. split; [exact Hd |].
    unfold dist in Hd.
    rewrite (pylog_pos _ (bounded_κ_pos a Ha)), (pylog_pos _ (bounded_κ_pos b Hb)) in Hd.
    cbn [obind] in Hd.
    rewrite (pylog_pos _ (bounded_N_pos a Ha)), (pylog_pos _ (bounded_N_pos b Hb)) in Hd.
    cbn [obind] in Hd. cbv zeta in Hd. unfold pysqrt in Hd.
    destruct (Rle_dec 0 _); [| discriminate]. injection Hd as <-. apply sqrt_pos.
  - intros a Ha. unfold dist.
    rewrite (pylog_pos _ (bounded_κ_pos a Ha)). cbn [obind].
    rewrite (pylog_pos _ (bounded_N_pos a Ha)). cbn [obind]. cbv zeta.
    replace (θ a - θ a) with 0 by ring. rewrite Rabs_R0.
    rewrite Rmin_left by (pose proof τ_pos; lra).
    replace ((ΔΦ a - ΔΦ a) ^ 2 + (ln (κ a + ε) - ln (κ a + ε)) ^ 2 + 0 ^ 2 / π ^ 2
             + (ln (N a + ε) - ln (N a + ε)) ^ 2) with 0
      by (unfold Rdiv; ring).
    rewrite pysqrt_nonneg by lra. rewrite sqrt_0. reflexivity.
Qed.

Lemma default_Ψ_bounded (s : str) : bounded (default_Ψ s).
Proof. apply new_Ψ_bounded. Qed.

Lemma dist_witness : dist (default_Ψ default_src) (default_Ψ default_src) = Ok 0.
Proof.
  apply (proj2 (proj2 dist_is_symmetric_and_zero_on_self)).
  apply default_Ψ_bounded.
Defined.

(** X7. [Ψ.inner] on bounded states with energy at most [float_safe], so
    that the product of the energies is a finite float: the inner product
    of a state with itself is its energy, and the inner product of two
    states is at most the geometric mean of their energies in absolute
    value. *)
Theorem inner_self_and_bound :
  (forall a, bounded a -> N a <= float_safe -> inner a a = Ok (N a))
  /\ (forall a b, bounded a -> bounded b ->
        N a <= float_safe -> N b <= float_safe ->
        exists r, inner a b = Ok r /\ Rabs r <= sqrt (N a * N b)).
Proof.
  pose proof ε_pos as Hε. split.
  - intros a (Hκ & _ & _ & HN) _. unfold inner. cbv zeta.
    rewrite pydiv_nonzero.
    2:{ pose proof (Rmax_r (Rmax (κ a) (κ a)) ε). lra. }
    cbn [obind]. rewrite pysqrt_nonneg by nra. cbn [obind].
    replace (θ a - θ a) with 0 by ring. rewrite cos_0.
    replace (κ a - κ a) with 0 by ring. rewrite Rabs_R0.
    unfold Rdiv. rewrite Rmult_0_l.
    replace (N a * N a) with (Rsqr (N a)) by (unfold Rsqr; ring).
    rewrite sqrt_Rsqr by lra. f_equal. ring.
  - intros a b ((Ha & _) & _ & _ & HNa) ((Hb & _) & _ & _ & HNb) _ _.
    unfold κ_MIN in *. unfold inner. cbv zeta.
    set (m := Rmax (Rmax (κ a) (κ b)) ε).
    assert (Hm : 0 < m) by (unfold m; pose proof (Rmax_r (Rmax (κ a) (κ b)) ε); lra).
    rewrite pydiv_nonzero by lra. cbn [obind].
    rewrite pysqrt_nonneg by nra. cbn [obind].
    eexists. split; [reflexivity |].
    assert (Hq : 0 <= Rabs (κ a - κ b) / m <= 1).
    { split.
      - apply Rmult_le_pos; [apply Rabs_pos | left; apply Rinv_0_lt_compat, Hm].
      - apply (Rmult_le_reg_r m); [exact Hm |]. unfold Rdiv.
        rewrite Rmult_assoc, Rinv_l by lra.
        assert (Rabs (κ a - κ b) <= Rmax (κ a) (κ b)).
        { unfold Rabs, Rmax. destruct (Rcase_abs _), (Rle_dec _ _); lra. }
        pose proof (Rmax_l (Rmax (κ a) (κ b)) ε). fold m in H0. lra. }
    set (q := Rabs (κ a - κ b) / m) in *.
    pose proof (sqrt_pos (N a * N b)) as Hs.
    pose proof (COS_bound (θ a - θ b)) as [Hc1 Hc2].
    set (c := cos (θ a - θ b)) in *. set (r := sqrt (N a * N b)) in *.
    assert (Hu : -1 <= c * (1 - q) <= 1) by (destruct Hq; split; nra).
    set (u := c * (1 - q)) in *.
    apply Rabs_le. split; nra.
Qed.

Lemma inner_witness : inner (default_Ψ default_src) (default_Ψ default_src)
                      = Ok (N (default_Ψ default_src)).
Proof.
  apply (proj1 inner_self_and_bound); [apply default_Ψ_bounded |].
  unfold default_Ψ, new_Ψ, _enforce, default_N, float_safe, ε; cbn [N].
  unfold Rmax; destruct (Rle_dec _ _); lra.
Defined.

(** ** Superposition *)

(** X8. [Ψ.blend] of two enforced states with a mixing ratio in [0, 1]:
    tension, curvature and energy are the convex combinations, coherence
    is the larger of the two (the max principle), and the step counter is
    one more than the larger step. *)
Theorem blend_mixes_linearly (a b : Ψ) (w : R) :
  enforced a -> enforced b -> 0 <= w <= 1 ->
  let m := blend a b w in
  ΔΦ m = w * ΔΦ a + (1 - w) * ΔΦ b
  /\ κ m = w * κ a + (1 - w) * κ b
  /\ N m = w * N a + (1 - w) * N b
  /\ C m = Rmax (C a) (C b)
  /\ t m = (Z.max (t a) (t b) + 1)%Z.
Proof.
  intros Ha Hb Hw m.
  destruct (enforced_bounded a Ha) as ((Hκa & _ & HCa & _) & HNa).
  destruct (enforced_bounded b Hb) as ((Hκb & _ & HCb & _) & HNb).
  unfold κ_MIN, κ_MAX in *. pose proof ε_pos as Hε.
  split; [reflexivity |]. split.
  { unfold m, blend, new_Ψ, _enforce; cbn [κ].
    set (k := w * κ a + (1 - w) * κ b).
    assert (Hk : 0.01 <= k <= 10) by (unfold k; split; nra).
    assert (Hc : Rmax κ_MIN (Rmin κ_MAX (Rabs k)) = k).
    { rewrite Rabs_right by lra. apply clamp_id. unfold κ_MIN, κ_MAX. lra. }
    rewrite Hc. exact Hc. }
  split.
  { unfold m. rewrite N_blend. apply Rmax_right. nra. }
  split; [| reflexivity].
  unfold m, blend, new_Ψ, _enforce; cbn [C].
  assert (Hm : 0 <= Rmax (C a) (C b) <= 1).
  { unfold Rmax. destruct (Rle_dec _ _); lra. }
  rewrite (clamp_id 0 1 _ Hm). apply clamp_id, Hm.
Qed.

Lemma blend_witness :
  let a := default_Ψ default_src in
  let m := blend a a 0.5 in
  ΔΦ m = 0.5 * ΔΦ a + (1 - 0.5) * ΔΦ a
  /\ κ m = 0.5 * κ a + (1 - 0.5) * κ a
  /\ N m = 0.5 * N a + (1 - 0.5) * N a
  /\ C m = Rmax (C a) (C a)
  /\ t m = (Z.max (t a) (t a) + 1)%Z.
Proof.
  intros a.
  apply (blend_mixes_linearly a a 0.5); try apply enforced_enforce. lra.
Defined.

(** ** The guardian's coherence floor (INV-1) *)

(** X9. [InvariantGuardian.enforce] keeps a coherence floor: the returned
    coherence is at least the before-state's coherence minus 0.1 and at
    least the guardian's previous floor minus 0.002 (both capped at 1);
    the floor it stores is the largest of 0 and those two numbers. *)
Theorem guardian_coherence_floor
    (g : InvariantGuardian.obj) (before after : Ψ) (L : R) :
  let out := fst (InvariantGuardian.enforce g before after L) in
  let g' := snd (InvariantGuardian.enforce g before after L) in
  Rmin 1 (C before - 0.1) <= C out
  /\ Rmin 1 (InvariantGuardian._C_floor g - 0.002) <= C out
  /\ InvariantGuardian._C_floor g'
     = Rmax (Rmax 0 (InvariantGuardian._C_floor g - 0.002)) (C before - 0.1)
  /\ InvariantGuardian._L_prev g' = fin L.
Proof.
  intros out g'.
  assert (HC : exists x,
             C out = Rmax 0 (Rmin 1 x)
             /\ Rmin 1 (Rmax (Rmax 0 (InvariantGuardian._C_floor g - 0.002))
                            (C before - 0.1)) <= x).
  { unfold out, InvariantGuardian.enforce. cbv zeta. cbn [fst].
    set (fl := Rmax (Rmax 0 (InvariantGuardian._C_floor g - 0.002)) (C before - 0.1)).
    set (r1 := set_κ _ _).
    assert (Hr1 : C r1 = Rmax (C (copy after)) fl) by reflexivity.
    assert (Hc : forall b r, C (InvariantGuardian.conserve_energy b r) = C r).
    { intros b r. unfold InvariantGuardian.conserve_energy.
      repeat match goal with |- context [Rlt_dec ?x ?y] => destruct (Rlt_dec x y) end;
        reflexivity. }
    assert (Hp : forall b r, C (InvariantGuardian.clip_phase b r) = C r).
    { intros b r. unfold InvariantGuardian.clip_phase.
      repeat match goal with |- context [Rlt_dec ?x ?y] => destruct (Rlt_dec x y) end;
        reflexivity. }
    destruct (exceeds L _).
    - eexists. split; [reflexivity |].
      unfold blend, new_Ψ, _enforce; cbn [C]. rewrite Hp, Hc, Hr1.
      unfold Rmax, Rmin; repeat destruct (Rle_dec _ _); lra.
    - eexists. split; [reflexivity |]. rewrite Hp, Hc, Hr1.
      unfold Rmax, Rmin; repeat destruct (Rle_dec _ _); lra. }
  destruct HC as (x & Hout & Hx). rewrite Hout.
  split; [| split; [| split; reflexivity]].
  - revert Hx. unfold Rmax, Rmin; repeat destruct (Rle_dec _ _); lra.
  - revert Hx. unfold Rmax, Rmin; repeat destruct (Rle_dec _ _); lra.
Qed.

(** ** The attractor *)

(** X10. After any run of [absorb] calls on a fresh memory, the state
    [attractor()] returns is bounded and at least as coherent as [M_inf]:
    a learned limit cycle replaces [M_inf] only when it is more coherent. *)
Theorem attractor_is_at_least_as_coherent (inputs : list (Ψ * R)) :
  let m := absorb_all MemoryField.__init__ inputs in
  bounded (MemoryField.attractor m)
  /\ C (MemoryField.M_inf m) <= C (MemoryField.attractor m).
Proof.
  intros m. split; [apply attractor_bounded |].
  pose proof (absorb_all_C_range inputs) as Hc. fold m in Hc.
  unfold MemoryField.attractor.
  assert (Hcopy : C (copy (MemoryField.M_inf m)) = C (MemoryField.M_inf m)).
  { simpl. apply clamp_id, Hc. }
  destruct (MemoryField._limit_cycle m) as [lc |]; [| rewrite Hcopy; lra].
  destruct (Rlt_dec _ _) as [Hlt | _]; [| rewrite Hcopy; lra].
  simpl. unfold Rmax, Rmin; repeat destruct (Rle_dec _ _); lra.
Qed.

(** ** Phases: [atan2] of a point on a circle, and wrapped differences *)

Lemma tan_shift_PI (x : R) : cos x <> 0 -> tan (x - PI) = tan x.
Proof.
  intros Hc. unfold tan. rewrite sin_minus, cos_minus, sin_PI, cos_PI. field. exact Hc.
Qed.

Lemma tan_shift_2PI (x : R) : cos x <> 0 -> tan (x - 2 * PI) = tan x.
Proof.
  intros Hc. unfold tan. rewrite sin_minus, cos_minus, sin_2PI, cos_2PI. field. exact Hc.
Qed.

Lemma cos_shift_2PI (x : R) : cos (x - 2 * PI) = cos x.
Proof. rewrite cos_minus, sin_2PI, cos_2PI. ring. Qed.

Lemma polar_quotient (r x : R) : 0 < r -> cos x <> 0 -> r * sin x / (r * cos x) = tan x.
Proof. intros Hr Hc. unfold tan. field. split; lra. Qed.

(** The angle of the point [(r cos θ, r sin θ)], reduced to [0, 2π), is θ. *)
Lemma atan2_polar (r x : R) :
  0 < r -> 0 <= x < τ -> pymod (atan2 (r * sin x) (r * cos x)) τ = x.
Proof.
  intros Hr [H0 H2]. unfold τ, π in *. pose proof PI_RGT_0 as Hpi.
  assert (Hτ : 0 < 2 * PI) by lra.
  destruct (Rlt_le_dec x (PI / 2)) as [Ha | Ha].
  { (* first quadrant *)
    assert (Hc : 0 < cos x) by (apply cos_gt_0; lra).
    unfold atan2. destruct (Rlt_dec 0 (r * cos x)) as [_ | Hn]; [| exfalso; apply Hn; nra].
    rewrite polar_quotient by lra. rewrite atan_tan by lra.
    apply pymod_small. lra. }
  destruct (Rle_lt_or_eq_dec _ _ Ha) as [Hb | Hb].
  2:{ (* θ = π/2 *)
    subst x. rewrite sin_PI2, cos_PI2. unfold atan2.
    rewrite Rmult_0_r, Rmult_1_r.
    destruct (Rlt_dec 0 0); [lra |]. destruct (Rlt_dec 0 r); [| lra].
    apply pymod_small. lra. }
  destruct (Rlt_le_dec x (3 * (PI / 2))) as [Hd | Hd].
  { (* second and third quadrant *)
    assert (Hc : cos x < 0) by (apply cos_lt_0; lra).
    unfold atan2. destruct (Rlt_dec 0 (r * cos x)); [nra |].
    destruct (Rlt_dec (r * cos x) 0) as [_ | Hn]; [| exfalso; apply Hn; nra].
    rewrite polar_quotient by lra.
    rewrite <- (tan_shift_PI x) by lra. rewrite atan_tan by lra.
    destruct (Rle_dec 0 (r * sin x)) as [Hs | Hs].
    - assert (x <= PI).
      { destruct (Rle_lt_dec x PI); [assumption |].
        pose proof (sin_lt_0 x ltac:(lra) ltac:(lra)). nra. }
      replace (x - PI + PI) with x by ring. apply pymod_small. lra.
    - assert (PI < x).
      { destruct (Rle_lt_dec x PI); [| assumption].
        pose proof (sin_ge_0 x ltac:(lra) ltac:(lra)). exfalso. apply Hs. nra. }
      rewrite (pymod_shift _ _ 1); lra. }
  destruct (Rle_lt_or_eq_dec _ _ Hd) as [He | He].
  2:{ (* θ = 3π/2 *)
    subst x. rewrite sin_3PI2, cos_3PI2. unfold atan2.
    rewrite Rmult_0_r. replace (r * -1) with (- r) by ring.
    destruct (Rlt_dec 0 0); [lra |]. destruct (Rlt_dec 0 (- r)); [lra |].
    destruct (Rlt_dec (- r) 0); [| lra].
    rewrite (pymod_shift _ _ 1); lra. }
  (* fourth quadrant *)
  assert (Hc : 0 < cos x).
  { rewrite <- cos_shift_2PI. apply cos_gt_0; lra. }
  unfold atan2. destruct (Rlt_dec 0 (r * cos x)) as [_ | Hn]; [| exfalso; apply Hn; nra].
  rewrite polar_quotient by lra.
  rewrite <- (tan_shift_2PI x) by lra. rewrite atan_tan by lra.
  rewrite (pymod_shift _ _ 1); lra.
Qed.

(** The phase difference the guardian measures: the absolute difference,
    taken the short way round when it exceeds π. *)
Definition wrapped_diff (a b : R) : R :=
  let d := Rabs (a - b) in if Rlt_dec π d then τ - d else d.

(** Adding a shift of at most π and reducing moves a phase by exactly the
    size of the shift. *)
Lemma wrapped_diff_shift (x s : R) :
  0 <= x < τ -> Rabs s <= π -> wrapped_diff (pymod (x + s) τ) x = Rabs s.
Proof.
  intros [H0 H2] Hs. unfold τ, π in *. pose proof PI_RGT_0 as Hpi.
  apply Rabs_le_bounds in Hs.
  assert (Hτ : 0 < 2 * PI) by lra.
  unfold wrapped_diff. cbv zeta. unfold τ, π.
  destruct (Rlt_le_dec (x + s) 0) as [Hneg | Hpos].
  - rewrite (pymod_shift _ _ 1) by lra.
    replace (x + s + 1 * (2 * PI) - x) with (s + 2 * PI) by ring.
    rewrite (Rabs_right (s + 2 * PI)) by lra. rewrite (Rabs_left1 s) by lra.
    destruct (Rlt_dec PI (s + 2 * PI)); lra.
  - destruct (Rlt_le_dec (x + s) (2 * PI)) as [Hin | Hout].
    + rewrite pymod_small by lra. replace (x + s - x) with s by ring.
      assert (Rabs s <= PI) by (apply Rabs_le; lra).
      destruct (Rlt_dec PI (Rabs s)); lra.
    + rewrite (pymod_shift _ _ (-1)) by lra.
      replace (x + s + -1 * (2 * PI) - x) with (s - 2 * PI) by ring.
      rewrite (Rabs_left1 (s - 2 * PI)) by lra. rewrite (Rabs_right s) by lra.
      destruct (Rlt_dec PI (- (s - 2 * PI))); lra.
Qed.

Lemma clamp_shift_bound (k x : R) :
  -1 <= x <= 1 ->
  let s := Rmax (- PHASE_MAX) (Rmin PHASE_MAX (k * x)) in
  Rabs s <= PHASE_MAX /\ Rabs s <= Rabs k.
Proof.
  intros Hx s. unfold PHASE_MAX, π in *. pose proof PI_RGT_0 as Hpi.
  assert (Hkx : Rabs (k * x) <= Rabs k).
  { rewrite Rabs_mult. pose proof (Rabs_pos k).
    assert (Rabs x <= 1) by (apply Rabs_le; lra). nra. }
  apply Rabs_le_bounds in Hkx. pose proof (Rabs_pos k).
  split; apply Rabs_le; unfold s, Rmax, Rmin; repeat destruct (Rle_dec _ _); lra.
Qed.

(** X11. Phase continuity of the kernel (INV-4): for an input phase in
    [0, 2π) the wrapped difference between the output phase and the input
    phase is at most π/2, and at most the coupling strength |K|. *)
Theorem kernel_phase_step_is_bounded
    (self : UnifiedTensorKernel.obj) (p : KernelParams)
    (ψ A M_inf : Ψ) (W : option Ψ) (grad_C : R) :
  0 <= θ ψ < τ ->
  let out := fst (UnifiedTensorKernel.__call__ self p ψ A M_inf W grad_C) in
  wrapped_diff (θ out) (θ ψ) <= PHASE_MAX
  /\ wrapped_diff (θ out) (θ ψ) <= Rabs (K p).
Proof.
  intros Hθ out.
  assert (Hout : exists x, -1 <= x <= 1 /\
            θ out = pymod (θ ψ + Rmax (- PHASE_MAX) (Rmin PHASE_MAX (K p * x))) τ).
  { unfold out, UnifiedTensorKernel.__call__. cbv zeta. cbn [fst].
    unfold new_Ψ, _enforce; cbn [θ]. rewrite !pymod_idem by apply τ_pos.
    eexists. split; [| reflexivity]. apply SIN_bound. }
  destruct Hout as (x & Hx & ->).
  destruct (clamp_shift_bound (K p) x Hx) as [H1 H2]. cbv zeta in H1, H2.
  rewrite wrapped_diff_shift; [split; assumption | exact Hθ |].
  assert (PHASE_MAX <= π) by (unfold PHASE_MAX; pose proof π_pos; lra). lra.
Qed.

Lemma kernel_phase_witness :
  let ψ0 := default_Ψ default_src in
  let out := fst (UnifiedTensorKernel.__call__ UnifiedTensorKernel.__init__ KERNEL
                    ψ0 ψ0 ψ0 None 0.1) in
  wrapped_diff (θ out) (θ ψ0) <= PHASE_MAX
  /\ wrapped_diff (θ out) (θ ψ0) <= Rabs (K KERNEL).
Proof.
  intros ψ0.
  apply (kernel_phase_step_is_bounded UnifiedTensorKernel.__init__ KERNEL ψ0 ψ0 ψ0 None 0.1).
  apply default_Ψ_bounded.
Defined.

Lemma θ_conserve_energy (b r : Ψ) : θ (InvariantGuardian.conserve_energy b r) = θ r.
Proof.
  unfold InvariantGuardian.conserve_energy.
  repeat match goal with |- context [Rlt_dec ?x ?y] => destruct (Rlt_dec x y) end;
    reflexivity.
Qed.

Lemma clip_phase_bound (b r : Ψ) :
  0 <= θ b < τ -> 0 <= θ r < τ ->
  0 <= θ (InvariantGuardian.clip_phase b r) < τ
  /\ wrapped_diff (θ (InvariantGuardian.clip_phase b r)) (θ b) <= PHASE_MAX.
Proof.
  intros Hb Hr. unfold InvariantGuardian.clip_phase. cbv zeta.
  change (if Rlt_dec π (Rabs (θ r - θ b)) then τ - Rabs (θ r - θ b)
          else Rabs (θ r - θ b)) with (wrapped_diff (θ r) (θ b)).
  destruct (Rlt_dec PHASE_MAX (wrapped_diff (θ r) (θ b))) as [Hbig | Hsmall].
  - cbn [θ]. split; [apply pymod_bounds, τ_pos |].
    assert (Hd : forall d : R, d = 1 \/ d = -1 ->
              wrapped_diff (pymod (θ b + d * PHASE_MAX) τ) (θ b) <= PHASE_MAX).
    { intros d Hd. rewrite wrapped_diff_shift; [| exact Hb |];
        unfold PHASE_MAX; pose proof π_pos;
        destruct Hd as [-> | ->].
      - rewrite Rabs_right; lra.
      - replace (-1 * (π / 2)) with (- (π / 2)) by ring. rewrite Rabs_Ropp, Rabs_right; lra.
      - rewrite Rabs_right; lra.
      - replace (-1 * (π / 2)) with (- (π / 2)) by ring. rewrite Rabs_Ropp, Rabs_right; lra. }
    destruct (Rlt_dec (θ b) (θ r)); apply Hd; auto.
  - split; [exact Hr | lra].
Qed.

(** X12. Phase continuity of the guardian (INV-4): when the damping blend
    of INV-5 does not apply (the loss is not above 1.3 times the previous
    one, as on every first call after a reset), the returned phase is
    within π/2 of the before-state's phase, measured the short way round. *)
Theorem guardian_clips_phase
    (g : InvariantGuardian.obj) (before after : Ψ) (L : R) :
  0 <= θ before < τ ->
  exceeds L (InvariantGuardian._L_prev g) = false ->
  wrapped_diff (θ (fst (InvariantGuardian.enforce g before after L))) (θ before)
  <= PHASE_MAX.
Proof.
  intros Hb Hex. unfold InvariantGuardian.enforce. cbv zeta. rewrite Hex. cbn [fst].
  set (r1 := InvariantGuardian.conserve_energy before _).
  assert (Hr1 : 0 <= θ r1 < τ).
  { unfold r1. rewrite θ_conserve_energy. cbn [θ set_κ set_C].
    apply pymod_bounds, τ_pos. }
  destruct (clip_phase_bound before r1 Hb Hr1) as [Hrange Hdiff].
  unfold _enforce; cbn [θ]. rewrite pymod_small by exact Hrange. exact Hdiff.
Qed.

Lemma guardian_clips_phase_witness :
  wrapped_diff
    (θ (fst (InvariantGuardian.enforce InvariantGuardian.__init__
               (default_Ψ default_src)
               (new_Ψ default_ΔΦ default_κ 4.0 default_N default_C default_t default_src)
               1)))
    (θ (default_Ψ default_src))
  <= PHASE_MAX.
Proof.
  apply (guardian_clips_phase InvariantGuardian.__init__ (default_Ψ default_src)
           (new_Ψ default_ΔΦ default_κ 4.0 default_N default_C default_t default_src) 1).
  - apply default_Ψ_bounded.
  - reflexivity.
Defined.

Lemma atan2_unit (x : R) :
  0 <= x < τ -> pymod (atan2 (sin x) (cos x)) τ = x.
Proof.
  intros H. rewrite <- (atan2_polar 1 x) at 3 by (try lra; exact H).
  rewrite !Rmult_1_l. reflexivity.
Qed.

(** X13. Superposing an enforced state with itself, at any mixing ratio,
    returns the same field values: only the step counter (plus one) and
    the source tag change. *)
Theorem blend_with_itself (a : Ψ) (w : R) :
  enforced a ->
  blend a a w
  = mkΨ (ΔΦ a) (κ a) (θ a) (N a) (C a) (t a + 1) (firstn 8 (src a ++ [8853%N] ++ src a)).
Proof.
  intros Ha. destruct (enforced_bounded a Ha) as ((Hκ & Hθ & HC & HN) & HNε).
  unfold blend. cbv zeta.
  replace (w * sin (θ a) + (1 - w) * sin (θ a)) with (sin (θ a)) by ring.
  replace (w * cos (θ a) + (1 - w) * cos (θ a)) with (cos (θ a)) by ring.
  rewrite (atan2_unit _ Hθ).
  replace (w * ΔΦ a + (1 - w) * ΔΦ a) with (ΔΦ a) by ring.
  replace (w * κ a + (1 - w) * κ a) with (κ a) by ring.
  replace (w * N a + (1 - w) * N a) with (N a) by ring.
  rewrite Rmax_left by lra. rewrite Z.max_id.
  unfold new_Ψ.
  assert (He : forall step s,
             _enforce (mkΨ (ΔΦ a) (κ a) (θ a) (N a) (C a) step s)
             = mkΨ (ΔΦ a) (κ a) (θ a) (N a) (C a) step s).
  { intros step s. apply _enforce_id; [| exact HNε]. repeat split; simpl; tauto. }
  rewrite !He. reflexivity.
Qed.

Lemma blend_with_itself_witness :
  let a := default_Ψ default_src in
  blend a a 0.6
  = mkΨ (ΔΦ a) (κ a) (θ a) (N a) (C a) (t a + 1) (firstn 8 (src a ++ [8853%N] ++ src a)).
Proof.
  intros a. apply (blend_with_itself a 0.6). apply enforced_enforce.
Defined.

(** ** Absorbing a state of zero coherence *)

Lemma tanh_0 : tanh 0 = 0.
Proof. unfold tanh. rewrite sinh_0. unfold Rdiv. ring. Qed.

Lemma absorb_M_inf_enforced (m : MemoryField.obj) (ψ : Ψ) (rate : R) :
  enforced (MemoryField.M_inf (MemoryField.absorb m ψ rate)).
Proof.
  unfold MemoryField.absorb. cbv zeta.
  destruct (3 <=? _)%nat; cbn [MemoryField.M_inf]; apply enforced_enforce.
Qed.

Lemma absorb_all_enforced (inputs : list (Ψ * R)) :
  enforced (MemoryField.M_inf (absorb_all MemoryField.__init__ inputs)).
Proof.
  destruct inputs as [| [ψ rate] inputs] using rev_ind.
  - apply enforced_enforce.
  - rewrite absorb_all_snoc. apply absorb_M_inf_enforced.
Qed.

(** X14. The absorption weight is [tanh(2 C) * rate], so a state of
    coherence 0 pulls nothing: after any run of [absorb] calls on a fresh
    memory, absorbing such a state leaves the tension, curvature, phase
    and energy of [M_inf] as they were (the history still grows and the
    coherence is still re-estimated). *)
Theorem absorbing_zero_coherence_moves_nothing
    (inputs : list (Ψ * R)) (ψ : Ψ) (rate : R) :
  C ψ = 0 ->
  let m := absorb_all MemoryField.__init__ inputs in
  let M := MemoryField.M_inf m in
  let M' := MemoryField.M_inf (MemoryField.absorb m ψ rate) in
  ΔΦ M' = ΔΦ M /\ κ M' = κ M /\ θ M' = θ M /\ N M' = N M.
Proof.
  intros HC m M M'.
  pose proof (absorb_all_enforced inputs) as HM. fold m M in HM.
  destruct (enforced_bounded M HM) as ((Hκ & Hθ & _ & _) & HNε).
  assert (Hw : tanh (C ψ * 2) * rate = 0).
  { rewrite HC, Rmult_0_l, tanh_0. ring. }
  assert (Ha : absorbed m ψ rate = mkΨ (ΔΦ M) (κ M) (θ M) (N M) (C M) (t M) (src M)).
  { unfold absorbed. cbv zeta. fold M. rewrite Hw.
    replace ((1 - 0) * sin (θ M) + 0 * sin (θ ψ)) with (sin (θ M)) by ring.
    replace ((1 - 0) * cos (θ M) + 0 * cos (θ ψ)) with (cos (θ M)) by ring.
    rewrite (atan2_unit _ Hθ). f_equal; ring. }
  assert (HM' : exists c, M' = _enforce (set_C (absorbed m ψ rate) c)).
  { unfold M', MemoryField.absorb. cbv zeta. fold (absorbed m ψ rate).
    destruct (3 <=? _)%nat; cbn [MemoryField.M_inf].
    - eexists. reflexivity.
    - exists (C (MemoryField.M_inf m)). reflexivity. }
  destruct HM' as (c & ->). rewrite Ha. unfold _enforce, set_C; cbn [ΔΦ κ θ N].
  split; [reflexivity |]. unfold κ_MIN, κ_MAX in *.
  split; [rewrite Rabs_right by lra; apply clamp_id; unfold κ_MIN, κ_MAX; lra |].
  split; [apply pymod_small, Hθ | apply Rmax_right, HNε].
Qed.

Lemma absorbing_zero_coherence_witness :
  let ψ := new_Ψ 0.3 2 1 1 0 default_t default_src in
  let M := MemoryField.M_inf MemoryField.__init__ in
  let M' := MemoryField.M_inf (MemoryField.absorb MemoryField.__init__ ψ 0.2) in
  ΔΦ M' = ΔΦ M /\ κ M' = κ M /\ θ M' = θ M /\ N M' = N M.
Proof.
  intros ψ.
  apply (absorbing_zero_coherence_moves_nothing [] ψ 0.2).
  simpl. unfold Rmax, Rmin; repeat destruct (Rle_dec _ _); lra.
Defined.

(** ** What the awareness field does to the main field *)

(** X15. On an enforced state and a bounded memory state whose tensions
    differ by at most [float_safe], so that [dist] does not overflow,
    [AwarenessField.evolve] returns the state it was given with at most
    its phase changed: the phase moves by at most 0.1 rad (wrapped), and
    not at all while the awareness coherence is at most 0.3.  The
    awareness field it leaves behind is a bounded state. *)
Theorem awareness_only_nudges_the_phase
    (aw : AwarenessField.obj) (ψ M_inf : Ψ) (W : option Ψ) :
  enforced ψ -> bounded M_inf ->
  Rabs (ΔΦ ψ - ΔΦ M_inf) <= float_safe ->
  exists out aw',
    AwarenessField.evolve aw ψ M_inf W = Ok (out, aw')
    /\ (ΔΦ out, κ out, N out, C out, t out, src out)
       = (ΔΦ ψ, κ ψ, N ψ, C ψ, t ψ, src ψ)
    /\ wrapped_diff (θ out) (θ ψ) <= 0.1
    /\ (C (AwarenessField.field aw') <= 0.3 -> out = ψ)
    /\ bounded (AwarenessField.field aw').
Proof.
  intros Hψ HM _. destruct (enforced_bounded ψ Hψ) as (Hb & HNε).
  assert (Hcopy : copy ψ = ψ).
  { unfold copy, new_Ψ.
    replace (mkΨ (ΔΦ ψ) (κ ψ) (θ ψ) (N ψ) (C ψ) (t ψ) (src ψ)) with ψ
      by (destruct ψ; reflexivity).
    exact Hψ. }
  unfold AwarenessField.evolve.
  destruct (dist_total ψ M_inf Hb HM) as [d Ed].
  destruct (inner_total_bounded ψ M_inf Hb HM) as [a Ea].
  rewrite Ed. cbn [obind]. rewrite Ea. cbn [obind]. cbv zeta. rewrite Hcopy.
  match goal with
  | |- context [Rlt_dec 0.3 (C ?f)] => set (fld := f)
  end.
  assert (Hf : bounded fld) by (unfold fld; apply _enforce_bounded).
  eexists. eexists. split; [reflexivity |].
  cbn [AwarenessField.field].
  assert (Hπ : 3 < π) by (unfold π; pose proof PI2_3_2; lra).
  destruct Hb as (_ & Hθ & _ & _).
  destruct (Rlt_dec 0.3 (C fld)) as [Hhi | Hlo].
  - split; [reflexivity |].
    split; [| split; [intros H; cbn [AwarenessField.field] in H; lra | exact Hf]].
    cbn [θ set_θ].
    set (s := 0.1 * C fld * sin (θ M_inf - θ ψ)).
    assert (Hs : Rabs s <= 0.1).
    { destruct Hf as (_ & _ & HC & _).
      pose proof (SIN_bound (θ M_inf - θ ψ)) as [S1 S2].
      apply Rabs_le. unfold s. split; nra. }
    rewrite wrapped_diff_shift; [exact Hs | exact Hθ | lra].
  - split; [reflexivity |]. split; [| split; [reflexivity | exact Hf]].
    unfold wrapped_diff. cbv zeta. replace (θ ψ - θ ψ) with 0 by ring. rewrite Rabs_R0.
    destruct (Rlt_dec π 0); lra.
Qed.

Lemma awareness_only_nudges_witness :
  exists out aw',
    AwarenessField.evolve AwarenessField.__init__ (default_Ψ default_src)
      (MemoryField.M_inf MemoryField.__init__) None = Ok (out, aw')
    /\ wrapped_diff (θ out) (θ (default_Ψ default_src)) <= 0.1.
Proof.
  destruct (awareness_only_nudges_the_phase AwarenessField.__init__
              (default_Ψ default_src) (MemoryField.M_inf MemoryField.__init__) None)
    as (out & aw' & E & _ & H & _).
  - apply enforced_enforce.
  - apply new_Ψ_bounded.
  - unfold default_Ψ, MemoryField.__init__, new_Ψ, _enforce, default_ΔΦ, float_safe;
      cbn [ΔΦ MemoryField.M_inf].
    replace (0.0 - 0.0) with 0 by lra. rewrite Rabs_R0. lra.
  - exists out, aw'. split; assumption.
Defined.

(** ** The grapheme clusters of a text *)

(** [out] is [s] with some of its whitespace characters left out. *)
Inductive strips_spaces {P : Platform} : str -> str -> Prop :=
| strips_nil : strips_spaces [] []
| strips_keep c s out : strips_spaces s out -> strips_spaces (c :: s) (c :: out)
| strips_drop c s out :
    isspace c = true -> strips_spaces s out -> strips_spaces (c :: s) out.

(** A cluster that begins with a character that is not whitespace. *)
Definition starts_nonspace {P : Platform} (g : str) : Prop :=
  match g with
  | [] => False
  | c :: _ => isspace c = false
  end.

(** The phase [θ_g] that [Encoder.text] gives the glyph at index [i] of
    [n], from its first code point. *)
Definition glyph_phase (n i : nat) (primary : codepoint) : R :=
  pymod (Encoder.NR (primary / 256) * φ
         + Encoder.NR (primary mod 256) / 256 * τ
         + INR i / INR n * τ / 2) τ.

Section Graphemes.
Context {P : Platform}.

Lemma strips_refl (s : str) : strips_spaces s s.
Proof. induction s; constructor; assumption. Qed.

Lemma strips_app_keep (a s out : str) :
  strips_spaces s out -> strips_spaces (a ++ s) (a ++ out).
Proof. intros H. induction a; simpl; [exact H | constructor; assumption]. Qed.

Lemma strips_length (s out : str) :
  strips_spaces s out -> (List.length out <= List.length s)%nat.
Proof. induction 1; simpl; lia. Qed.

Lemma strips_nothing (s out : str) :
  strips_spaces s out -> Forall (fun c => isspace c = false) s -> out = s.
Proof.
  induction 1 as [| c s out H IH | c s out Hc H IH]; intros Hall.
  - reflexivity.
  - inversion Hall; subst. f_equal. apply IH. assumption.
  - inversion Hall; subst. congruence.
Qed.

Lemma strips_all (s : str) :
  strips_spaces s [] -> Forall (fun c => isspace c = true) s.
Proof.
  remember [] as out eqn:E. induction 1; try discriminate; constructor; auto.
Qed.

(** The inner loop moves a prefix of the remaining characters into the
    cluster. *)
Lemma extend_cluster_split (n : nat) :
  forall rest current,
    (List.length rest <= n)%nat ->
    exists taken,
      fst (Encoder.extend_cluster current rest) = current ++ taken
      /\ rest = taken ++ snd (Encoder.extend_cluster current rest).
Proof.
  induction n as [| n IH]; intros rest current Hlen.
  - destruct rest; [| simpl in Hlen; lia]. exists []. simpl.
    rewrite app_nil_r. split; reflexivity.
  - destruct rest as [| nc rest1].
    { exists []. simpl. rewrite app_nil_r. split; reflexivity. }
    simpl in Hlen. simpl.
    destruct (nc =? Encoder._ZWJ)%N.
    + destruct rest1 as [| x rest2].
      * exists [nc]. simpl. split; reflexivity.
      * simpl in Hlen.
        destruct (IH rest2 (current ++ [nc; x]) ltac:(lia)) as (taken & H1 & H2).
        exists (nc :: x :: taken). split.
        -- rewrite H1, <- app_assoc. reflexivity.
        -- simpl. rewrite <- H2. reflexivity.
    + destruct (_ && _ && _).
      * exists [nc]. simpl. split; reflexivity.
      * destruct (Encoder.is_mark nc).
        -- destruct (IH rest1 (current ++ [nc]) ltac:(lia)) as (taken & H1 & H2).
           exists (nc :: taken). split.
           ++ rewrite H1, <- app_assoc. reflexivity.
           ++ simpl. rewrite <- H2. reflexivity.
        -- exists []. simpl. rewrite app_nil_r. split; reflexivity.
Qed.

(** The outer loop only appends clusters; concatenated, the new clusters
    are the characters read, less the whitespace between clusters. *)
Lemma clusters_loop_partition (fuel : nat) :
  forall rest clusters,
    (List.length rest <= fuel)%nat ->
    exists new,
      Encoder.clusters_loop fuel clusters [] rest = Ok (clusters ++ new)
      /\ strips_spaces rest (List.concat new)
      /\ Forall starts_nonspace new.
Proof.
  induction fuel as [| fuel IH]; intros rest clusters Hlen.
  - destruct rest; [| simpl in Hlen; lia]. exists []. simpl.
    rewrite app_nil_r. split; [reflexivity |]. split; constructor.
  - destruct rest as [| c rest1].
    { exists []. simpl. rewrite app_nil_r. split; [reflexivity |]. split; constructor. }
    simpl in Hlen. cbn [Encoder.clusters_loop].
    destruct (isspace c) eqn:Hc.
    + destruct (IH rest1 clusters ltac:(lia)) as (new & E & Hs & Hn).
      exists new. split; [exact E |]. split; [| exact Hn].
      apply strips_drop; assumption.
    + cbn [app].
      destruct (extend_cluster_split (List.length rest1) rest1 [c] (le_n _))
        as (taken & H1 & H2).
      destruct (Encoder.extend_cluster [c] rest1) as [cluster rest2].
      cbn [fst snd app] in H1, H2. subst cluster. cbv beta iota.
      assert (Hlen2 : (List.length rest2 <= fuel)%nat).
      { rewrite H2, length_app in Hlen. lia. }
      destruct (IH rest2 (clusters ++ [c :: taken]) Hlen2) as (new & E & Hs & Hn).
      exists ((c :: taken) :: new). split.
      * etransitivity; [exact E |]. rewrite <- app_assoc. reflexivity.
      * split; [| constructor; [exact Hc | exact Hn]].
        rewrite H2. cbn [List.concat app]. apply strips_keep.
        apply strips_app_keep. exact Hs.
Qed.

Lemma graphemes_spec (txt : str) :
  exists gs,
    Encoder.graphemes txt = Ok gs
    /\ strips_spaces txt (List.concat gs)
    /\ Forall starts_nonspace gs.
Proof.
  unfold Encoder.graphemes. destruct txt as [| c txt].
  - exists []. split; [reflexivity |]. split; constructor.
  - destruct (clusters_loop_partition (List.length (c :: txt)) (c :: txt) [] (le_n _))
      as (new & E & Hs & Hn).
    exists new. split; [exact E |]. split; assumption.
Qed.

Lemma clusters_count (gs : list str) :
  Forall starts_nonspace gs -> (List.length gs <= List.length (List.concat gs))%nat.
Proof.
  induction 1 as [| g gs Hg Hgs IH]; simpl; [lia |].
  rewrite length_app. destruct g; [contradiction | simpl; lia].
Qed.

(** The running sums after one glyph. *)
Lemma glyph_step_sums (n i : nat) (c0 : codepoint) (g' : str) (s s' : Encoder.sums) :
  Encoder.glyph_step n i (c0 :: g') s = Ok s' ->
  Encoder.sin_s s' = Encoder.sin_s s + sin (glyph_phase n i c0)
  /\ Encoder.cos_s s' = Encoder.cos_s s + cos (glyph_phase n i c0).
Proof.
  unfold Encoder.glyph_step. cbn [obind].
  unfold pydiv at 1. destruct (Req_dec_T (INR n) 0); cbn [obind]; [discriminate |].
  destruct (pylog _); cbn [obind]; [| discriminate].
  destruct (pylog _); cbn [obind]; [| discriminate].
  destruct (pydiv _ _); cbn [obind]; [| discriminate].
  intros H; injection H as <-. cbn [Encoder.sin_s Encoder.cos_s].
  split; reflexivity.
Qed.

(** A text of one cluster encodes to full coherence, at the phase of its
    glyph. *)
Lemma one_glyph_text (txt source : str) (c0 : codepoint) (g' : str) :
  Encoder.graphemes txt = Ok [c0 :: g'] ->
  exists ψ, Encoder.text txt source = Ok ψ
            /\ C ψ = 1 /\ θ ψ = glyph_phase 1 0 c0.
Proof.
  intros Hg. unfold Encoder.text. rewrite Hg. cbn [obind List.length Encoder.glyph_loop].
  destruct (glyph_step_total 1 0 (c0 :: g') (Encoder.mkSums 0.0 0.0 0.0 0.0 0.0))
    as [s Es]; [lia | discriminate |].
  rewrite Es. cbn [obind].
  destruct (glyph_step_sums _ _ _ _ _ _ Es) as [Hsin Hcos].
  cbn [Encoder.sin_s Encoder.cos_s] in Hsin, Hcos.
  set (x := glyph_phase 1 0 c0) in *.
  assert (Hs : Encoder.sin_s s = sin x) by (rewrite Hsin; lra).
  assert (Hc : Encoder.cos_s s = cos x) by (rewrite Hcos; lra).
  rewrite Hs, Hc.
  assert (Hx : 0 <= x < τ) by (apply pymod_bounds, τ_pos).
  assert (H1 : sin x ^ 2 + cos x ^ 2 = 1).
  { pose proof (sin2_cos2 x) as H. unfold Rsqr in H. lra. }
  rewrite H1.
  assert (Hd : forall a, pydiv a (INR 1) = Ok (a / 1)).
  { intros a. unfold pydiv. simpl INR. destruct (Req_dec_T 1 0); [lra | reflexivity]. }
  rewrite !Hd. cbn [obind]. unfold pysqrt.
  destruct (Rle_dec 0 1); [| lra]. cbn [obind]. rewrite Hd. cbn [obind].
  eexists. split; [reflexivity |].
  unfold new_Ψ, _enforce; cbn [C θ]. split.
  - rewrite sqrt_1. replace (1 / 1) with 1 by lra.
    unfold Rmax, Rmin; repeat destruct (Rle_dec _ _); lra.
  - rewrite (atan2_unit x Hx). apply pymod_small. exact Hx.
Qed.

End Graphemes.

(** X16. [Encoder.graphemes] always returns, and what it returns is a
    partition of the text: the clusters, concatenated, are the text with
    only whitespace characters left out; every cluster is non-empty and
    starts with a character that is not whitespace; there are at most as
    many clusters as characters; and a text without whitespace is returned
    whole. *)
Theorem graphemes_partition_the_text {P : Platform} (txt : str) :
  exists gs,
    Encoder.graphemes txt = Ok gs
    /\ strips_spaces txt (List.concat gs)
    /\ Forall starts_nonspace gs
    /\ (List.length gs <= List.length txt)%nat
    /\ (Forall (fun c => isspace c = false) txt -> List.concat gs = txt).
Proof.
  destruct (graphemes_spec txt) as (gs & E & Hs & Hn).
  exists gs. split; [exact E |]. split; [exact Hs |]. split; [exact Hn |]. split.
  - pose proof (clusters_count gs Hn). pose proof (strips_length _ _ Hs). lia.
  - intros Hall. apply strips_nothing; assumption.
Qed.

(** The letters A and B with a space between them. *)
Lemma graphemes_partition_witness :
  exists gs,
    Encoder.graphemes (P := sample_platform) [65; 32; 66]%N = Ok gs
    /\ (List.length gs <= 3)%nat.
Proof.
  destruct (graphemes_partition_the_text (P := sample_platform) [65; 32; 66]%N)
    as (gs & E & _ & _ & H & _).
  exists gs. split; [exact E | exact H].
Defined.

(** X17. [Encoder.graphemes] returns no cluster exactly for the texts
    that consist of whitespace only (the empty text among them), so these
    are the texts on which [Encoder.text] takes its default branch. *)
Theorem no_clusters_iff_blank {P : Platform} (txt : str) :
  Encoder.graphemes txt = Ok [] <-> Forall (fun c => isspace c = true) txt.
Proof.
  split.
  - intros E. destruct (graphemes_spec txt) as (gs & E' & Hs & _).
    rewrite E in E'. injection E' as <-. apply strips_all. exact Hs.
  - apply graphemes_blank.
Qed.

(** A space and a tab. *)
Lemma no_clusters_witness :
  Encoder.graphemes (P := sample_platform) [32; 9]%N = Ok [].
Proof.
  apply (proj2 (no_clusters_iff_blank (P := sample_platform) [32; 9]%N)).
  apply Forall_cons; [reflexivity |]. apply Forall_cons; [reflexivity | apply Forall_nil].
Defined.

(** X18. A text that is a single grapheme cluster encodes to coherence 1,
    the largest value there is, and its phase is the golden-ratio phase of
    the cluster's first code point. *)
Theorem one_cluster_text_is_fully_coherent {P : Platform}
    (txt source : str) (c0 : codepoint) (g' : str) :
  Encoder.graphemes txt = Ok [c0 :: g'] ->
  exists ψ, Encoder.text txt source = Ok ψ
            /\ C ψ = 1
            /\ θ ψ = pymod (Encoder.NR (c0 / 256) * φ
                            + Encoder.NR (c0 mod 256) / 256 * τ) τ.
Proof.
  intros Hg. destruct (one_glyph_text txt source c0 g' Hg) as (ψ & E & HC & Hθ).
  exists ψ. split; [exact E |]. split; [exact HC |].
  rewrite Hθ. unfold glyph_phase. f_equal. simpl INR. lra.
Qed.

(** The letter A followed by a combining acute accent. *)
Lemma one_cluster_text_witness :
  exists ψ, Encoder.text (P := sample_platform) [65; 769]%N (lit "lang") = Ok ψ
            /\ C ψ = 1
            /\ θ ψ = pymod (Encoder.NR (65 / 256) * φ
                            + Encoder.NR (65 mod 256) / 256 * τ) τ.
Proof.
  apply (one_cluster_text_is_fully_coherent (P := sample_platform)
           [65; 769]%N (lit "lang") 65%N [769%N]).
  reflexivity.
Defined.

(** ** Code against text *)

(** X19. [Encoder.code] is [Encoder.text] with three adjustments, each in
    one direction: the curvature is not lowered, the tension is not
    lowered, and the coherence ends between the floor 0.1 and the larger
    of 0.1 and the text's coherence; phase, energy, step and source tag
    (code) are those of the text encoding. *)
Theorem code_adjusts_the_text_encoding {P : Platform} (source_code : str) :
  exists ψ ψc,
    Encoder.text source_code (lit "code") = Ok ψ
    /\ Encoder.code source_code = Ok ψc
    /\ κ ψ <= κ ψc
    /\ ΔΦ ψ <= ΔΦ ψc
    /\ 0.1 <= C ψc <= Rmax 0.1 (C ψ)
    /\ θ ψc = θ ψ /\ N ψc = N ψ /\ t ψc = t ψ /\ src ψc = src ψ.
Proof.
  destruct (text_total source_code (lit "code")) as (ψ & Eψ & Hb & HN).
  destruct Hb as (Hκ & Hθ & HC & _).
  exists ψ. unfold Encoder.code. rewrite Eψ. cbn [obind]. cbv zeta.
  pose proof (count_nonneg source_code (lit "if ")).
  pose proof (count_nonneg source_code (lit "elif ")).
  pose proof (count_nonneg source_code (lit "else:")).
  pose proof (count_nonneg source_code (lit "for ")).
  pose proof (count_nonneg source_code (lit "while ")).
  pose proof (count_nonneg source_code (lit "def ")).
  pose proof (count_nonneg source_code (lit "class ")).
  pose proof (count_nonneg source_code (lit "import ")) as Hi.
  match goal with
  | |- context [pydiv _ ?x] => set (k := x)
  end.
  assert (Hk : 1 <= k).
  { unfold k.
    match goal with |- 1 <= 1 + 0.1 * IZR ?z => assert (Hz : (0 <= z)%Z) by lia;
      apply IZR_le in Hz end.
    lra. }
  unfold pydiv. destruct (Req_dec_T k 0) as [E | _]; [lra |]. cbn [obind].
  eexists. split; [reflexivity |]. split; [reflexivity |].
  unfold _enforce, set_C, set_ΔΦ, set_κ; cbn [ΔΦ κ θ N C t src].
  unfold κ_MIN, κ_MAX in *.
  assert (Hx : κ ψ <= Rmin 10.0 (κ ψ * k) <= 10.0).
  { unfold Rmin. destruct (Rle_dec _ _); split; nra. }
  split.
  { rewrite Rabs_right by lra. rewrite clamp_id; lra. }
  split.
  { apply IZR_le in Hi. lra. }
  split.
  { assert (Hq : 0 <= C ψ / k <= C ψ).
    { split; [apply Rmult_le_pos; [lra | left; apply Rinv_0_lt_compat; lra] |].
      apply Rmult_le_reg_r with k; [lra |]. unfold Rdiv.
      rewrite Rmult_assoc, Rinv_l by lra. nra. }
    unfold Rmax, Rmin; repeat destruct (Rle_dec _ _); lra. }
  split; [apply pymod_small, Hθ |].
  split; [apply Rmax_right, HN |].
  split; reflexivity.
Qed.

(** ** The world field *)

(** X20. [WorldCurvature.add] stores the state under its source id as a
    dictionary does: ids stay distinct, the id now maps to the new state,
    every other id keeps its state, an id that was present keeps its
    place and a new one grows the dictionary by one; and the world has a
    field afterwards, a bounded state. *)
Theorem world_add_sets_one_source (w : WorldCurvature.obj) (sid : str) (ψ : Ψ) :
  NoDup (map fst (WorldCurvature.sources w)) ->
  let w' := WorldCurvature.add w sid ψ in
  NoDup (map fst (WorldCurvature.sources w'))
  /\ In (sid, ψ) (WorldCurvature.sources w')
  /\ (forall k v, k <> sid ->
        (In (k, v) (WorldCurvature.sources w') <-> In (k, v) (WorldCurvature.sources w)))
  /\ (In sid (map fst (WorldCurvature.sources w)) ->
        map fst (WorldCurvature.sources w') = map fst (WorldCurvature.sources w))
  /\ (~ In sid (map fst (WorldCurvature.sources w)) ->
        WorldCurvature.sources w' = WorldCurvature.sources w ++ [(sid, ψ)])
  /\ exists f, WorldCurvature.field w' = Some f /\ bounded f.
Proof.
  intros Hnd w'. unfold w'.
  split; [| split; [| split; [| split; [| split; [| apply add_field_bounded]]]]];
    unfold WorldCurvature.add; cbn [WorldCurvature.sources];
    induction (WorldCurvature.sources w) as [| [k' v'] d IH];
    cbn [WorldCurvature.dict_set map fst].
  - constructor; [simpl; tauto | constructor].
  - unfold WorldCurvature.str_eqb. destruct (list_eq_dec N.eq_dec sid k') as [-> | Hne].
    + exact Hnd.
    + cbn [map fst] in *. inversion Hnd as [| ? ? Hnotin Hnd']; subst.
      constructor; [| apply IH; exact Hnd'].
      intros Hin. apply Hnotin. clear - Hin Hne.
      induction d as [| [k2 v2] d IHd]; cbn [WorldCurvature.dict_set map fst] in *.
      * destruct Hin as [-> | []]. contradiction.
      * unfold WorldCurvature.str_eqb in Hin.
        destruct (list_eq_dec N.eq_dec sid k2); simpl in *; tauto.
  - left; reflexivity.
  - unfold WorldCurvature.str_eqb. destruct (list_eq_dec N.eq_dec sid k') as [-> | Hne].
    + left; reflexivity.
    + right. apply IH. cbn [map fst] in Hnd. inversion Hnd; assumption.
  - intros k v Hk. simpl. split; [intros [E | []]; congruence | tauto].
  - intros k v Hk.
    unfold WorldCurvature.str_eqb. destruct (list_eq_dec N.eq_dec sid k') as [-> | Hne].
    + simpl. split; intros [E | Hin]; try (right; exact Hin); congruence.
    + cbn [map fst] in Hnd. inversion Hnd as [| ? ? _ Hnd']; subst.
      specialize (IH Hnd' k v Hk). simpl. tauto.
  - intros [].
  - intros Hin.
    unfold WorldCurvature.str_eqb. destruct (list_eq_dec N.eq_dec sid k') as [-> | Hne].
    + reflexivity.
    + cbn [map fst] in *. f_equal. inversion Hnd; subst. apply IH; [assumption |].
      destruct Hin as [E | Hin]; [congruence | exact Hin].
  - reflexivity.
  - intros Hnotin.
    unfold WorldCurvature.str_eqb. destruct (list_eq_dec N.eq_dec sid k') as [-> | Hne].
    + exfalso. apply Hnotin. left; reflexivity.
    + cbn [app]. f_equal. cbn [map fst] in *. inversion Hnd; subst.
      apply IH; [assumption |]. intros Hin. apply Hnotin. right; exact Hin.
Qed.

Lemma world_add_witness :
  let w' := WorldCurvature.add WorldCurvature.__init__ (lit "news")
              (default_Ψ (lit "world")) in
  In (lit "news", default_Ψ (lit "world")) (WorldCurvature.sources w').
Proof.
  intros w'.
  exact (proj1 (proj2 (world_add_sets_one_source WorldCurvature.__init__ (lit "news")
                         (default_Ψ (lit "world")) (NoDup_nil _)))).
Defined.

(** X21. A world of one source is that source: after the first [add] of
    an enforced state the field has the state's tension, curvature, phase
    and energy, coherence 1 and the source tag W. *)
Theorem world_of_one_source (sid : str) (ψ : Ψ) :
  enforced ψ ->
  WorldCurvature.field (WorldCurvature.add WorldCurvature.__init__ sid ψ)
  = Some (mkΨ (ΔΦ ψ) (κ ψ) (θ ψ) (N ψ) 1 0 (lit "W")).
Proof.
  intros Hψ. destruct (enforced_bounded ψ Hψ) as ((Hκ & Hθ & HC & HN) & HNε).
  unfold WorldCurvature.add, WorldCurvature.__init__.
  cbn [WorldCurvature.sources WorldCurvature.dict_set WorldCurvature.field].
  unfold WorldCurvature._update. cbn [map snd List.length]. cbv zeta.
  rewrite !pysum_cons, !pysum_nil, !Rplus_0_r.
  assert (H1 : sin (θ ψ) ^ 2 + cos (θ ψ) ^ 2 = 1).
  { pose proof (sin2_cos2 (θ ψ)) as H. unfold Rsqr in H. lra. }
  rewrite H1, sqrt_1, (atan2_unit _ Hθ). simpl INR.
  unfold new_Ψ, _enforce, default_t; cbn [ΔΦ κ θ N C t src]. f_equal. f_equal.
  - lra.
  - replace (κ ψ / 1) with (κ ψ) by lra. unfold κ_MIN in Hκ.
    rewrite Rabs_right by lra. apply clamp_id, Hκ.
  - apply pymod_small, Hθ.
  - apply Rmax_right, HNε.
  - unfold Rmax, Rmin; repeat destruct (Rle_dec _ _); lra.
Qed.

Lemma world_of_one_source_witness :
  let ψ := default_Ψ (lit "world") in
  WorldCurvature.field (WorldCurvature.add WorldCurvature.__init__ (lit "news") ψ)
  = Some (mkΨ (ΔΦ ψ) (κ ψ) (θ ψ) (N ψ) 1 0 (lit "W")).
Proof.
  intros ψ. apply (world_of_one_source (lit "news") ψ). apply enforced_enforce.
Defined.

(** ** The multimodal projection *)

(** X22. The projection of one or more enforced states averages tension
    and energy: each lies between the smallest and the largest value
    among the inputs (for a single input the projection is the input). *)
Theorem projection_averages_tension_and_energy (fields : list Ψ) :
  fields <> [] -> Forall enforced fields ->
  exists ψ,
    MultimodalProjector.project fields = Ok ψ
    /\ (forall lo hi, Forall (fun f => lo <= ΔΦ f <= hi) fields -> lo <= ΔΦ ψ <= hi)
    /\ (forall lo hi, Forall (fun f => lo <= N f <= hi) fields -> lo <= N ψ <= hi).
Proof.
  intros Hne Henf.
  assert (Hb : Forall bounded fields).
  { eapply Forall_impl; [| exact Henf]. intros f Hf. apply (enforced_bounded f Hf). }
  destruct (project_total fields Hb) as (ψ & E & _). exists ψ. split; [exact E |].
  revert E. unfold MultimodalProjector.project.
  destruct fields as [| f0 [| f1 fs]]; [contradiction | |].
  - intros E. injection E as <-.
    assert (Hf0 : enforced f0) by (inversion Henf; assumption).
    assert (Hc : copy f0 = f0).
    { unfold copy, new_Ψ.
      replace (mkΨ (ΔΦ f0) (κ f0) (θ f0) (N f0) (C f0) (t f0) (src f0)) with f0
        by (destruct f0; reflexivity).
      exact Hf0. }
    rewrite Hc. split; intros lo hi H; inversion H; assumption.
  - cbv zeta. destruct (MultimodalProjector.traverse _ _); cbn [obind]; [| discriminate].
    intros E. injection E as <-. unfold new_Ψ, _enforce; cbn [ΔΦ N].
    set (items := f0 :: f1 :: fs) in *.
    split; intros lo hi H.
    + apply (softmax_average_range κ ΔΦ lo hi items Hne H).
    + pose proof (softmax_average_range κ N lo hi items Hne H) as [H1 H2].
      assert (H3 : Forall (fun f => ε <= N f <= hi) items).
      { clear - H Henf. induction H as [| f l Hf Hl IH]; constructor.
        - inversion Henf; subst. split; [apply (enforced_bounded f); assumption | lra].
        - apply IH. inversion Henf; assumption. }
      pose proof (softmax_average_range κ N ε hi items Hne H3) as [H4 _].
      rewrite Rmax_right by exact H4. split; assumption.
Qed.

Lemma projection_averages_witness :
  exists ψ,
    MultimodalProjector.project
      [default_Ψ (lit "lang"); MemoryField.M_inf MemoryField.__init__] = Ok ψ
    /\ 0.5 <= N ψ <= 1.
Proof.
  destruct (projection_averages_tension_and_energy
              [default_Ψ (lit "lang"); MemoryField.M_inf MemoryField.__init__])
    as (ψ & E & _ & HN).
  - discriminate.
  - apply Forall_cons; [| apply Forall_cons; [| apply Forall_nil]]; apply enforced_enforce.
  - exists ψ. split; [exact E |]. apply HN.
    apply Forall_cons; [| apply Forall_cons; [| apply Forall_nil]];
      unfold default_Ψ, MemoryField.__init__, new_Ψ, _enforce, default_N;
      cbn [N MemoryField.M_inf]; unfold Rmax, ε; destruct (Rle_dec _ _); lra.
Defined.

(** ** The governor's rule *)

(** Without a world field and with the default threshold, an output that
    has gained no coherence is sent to the rebuild. *)
Lemma judge_no_gain (gv : MaatGovernor.obj) (ψ_in ψ_out : Ψ) :
  MaatGovernor.threshold gv = 0.75 ->
  bounded ψ_in -> bounded ψ_out ->
  exists d score gv',
    MaatGovernor.judge gv ψ_in ψ_out None = Ok ((d, score), gv')
    /\ score = (0.5 + (C ψ_out - C ψ_in) + (1 - Rmin (κ ψ_out / κ ψ_in) 1)) / 2
    /\ (d = ALLOW <-> 0.75 <= score)
    /\ (C ψ_out <= C ψ_in -> d = REBUILD)
    /\ (d = ALLOW -> C ψ_in < C ψ_out)
    /\ MaatGovernor.threshold gv' = 0.75
    /\ MaatGovernor.current gv' = score.
Proof.
  intros Hth (Hκi & _) (Hκo & _). unfold κ_MIN, κ_MAX in *.
  unfold MaatGovernor.judge. cbv zeta.
  destruct (Rlt_dec ε (κ ψ_in)) as [_ | Hn]; [| unfold ε in Hn; lra].
  cbn [obind app List.length MaatGovernor.threshold].
  rewrite !pysum_cons, pysum_nil. rewrite Hth.
  set (a := 0.5 + (C ψ_out - C ψ_in)).
  set (b := 1 - Rmin (κ ψ_out / κ ψ_in) 1).
  assert (Hcur : (a + (b + 0)) / INR 2 = (a + b) / 2) by (simpl INR; lra).
  rewrite Hcur.
  assert (Hb : b < 1).
  { unfold b. assert (0 < κ ψ_out / κ ψ_in).
    { apply Rdiv_lt_0_compat; lra. }
    unfold Rmin. destruct (Rle_dec _ _); lra. }
  destruct (Rlt_dec ((a + b) / 2) 0.75) as [Hlt | Hge];
    do 3 eexists; (split; [reflexivity |]); cbn [MaatGovernor.threshold MaatGovernor.current];
    (split; [reflexivity |]);
    (split; [| split; [| split; [| split; [reflexivity | reflexivity]]]]).
  - split; [discriminate | lra].
  - reflexivity.
  - discriminate.
  - split; [lra | reflexivity].
  - intros Hle. exfalso. unfold a in Hge. lra.
  - intros _. unfold a in Hge. lra.
Qed.

(** X23. Without a world field the score is the mean of the coherence
    gain (from 0.5) and the curvature reduction, and the default threshold
    0.75 lets an output pass only if its coherence is strictly above the
    input's: an output that gained no coherence is sent to the rebuild.
    The judgement keeps the threshold and records the score. *)
Theorem governor_allows_only_a_coherence_gain
    (gv : MaatGovernor.obj) (ψ_in ψ_out : Ψ) :
  MaatGovernor.threshold gv = 0.75 ->
  bounded ψ_in -> bounded ψ_out ->
  exists d score,
    MaatGovernor.judge gv ψ_in ψ_out None
    = Ok ((d, score), MaatGovernor.mk 0.75 score)
    /\ score = (0.5 + (C ψ_out - C ψ_in) + (1 - Rmin (κ ψ_out / κ ψ_in) 1)) / 2
    /\ (d = ALLOW <-> 0.75 <= score)
    /\ (d = ALLOW -> C ψ_in < C ψ_out)
    /\ (C ψ_out <= C ψ_in -> d = REBUILD).
Proof.
  intros Hth Hi Ho.
  destruct (judge_no_gain gv ψ_in ψ_out Hth Hi Ho)
    as (d & score & gv' & E & Hs & Hiff & Hre & Hal & Hth' & Hcur').
  exists d, score. destruct gv' as [th cur]. cbn in Hth', Hcur'. subst th cur.
  split; [exact E |]. split; [exact Hs |]. split; [exact Hiff |].
  split; [exact Hal | exact Hre].
Qed.

Lemma governor_allows_only_witness :
  exists d score,
    MaatGovernor.judge MaatGovernor.__init__ (default_Ψ (lit "lang"))
      (default_Ψ (lit "lang")) None = Ok ((d, score), MaatGovernor.mk 0.75 score)
    /\ d = REBUILD.
Proof.
  destruct (governor_allows_only_a_coherence_gain MaatGovernor.__init__
              (default_Ψ (lit "lang")) (default_Ψ (lit "lang")))
    as (d & score & E & _ & _ & _ & H).
  - reflexivity.
  - apply default_Ψ_bounded.
  - apply default_Ψ_bounded.
  - exists d, score. split; [exact E |]. apply H. lra.
Defined.

(** ** A call of [process] and the shared kernel parameters *)

(** X24. [process] stores what it returns and puts the shared [KERNEL]
    dictionary back: a call that returns leaves [KERNEL] as it found it,
    whether or not the rebuild ran, has set the engine's [current] to the
    output, and reports the output's coherence and the digest of its
    vector.  A call that raises, on a well-formed engine, leaves the
    damping rate α of [KERNEL] multiplied by 1.5 for every engine that
    runs afterwards. *)
Theorem process_restores_the_kernel_only_on_return {P : Platform}
    (text : str) (code : option str) (world_arg : option (list (str * str)))
    (max_steps : Z) (s : ASCPI.state) :
  match ASCPI.process text code world_arg max_steps s with
  | (Ok r, s') =>
    snd s' = snd s
    /\ ASCPI.current (fst s') = Some (output r)
    /\ coherence r = C (output r)
    /\ signature r = sha256_hex8_vec (vec (output r))
  | (Raise _, s') =>
    wf (fst s) -> snd s' = set_α (snd s) (α (snd s) * 1.5)
  end.
Proof.
  pose proof (process_spec text code world_arg max_steps s) as H. unfold wp in H.
  destruct (ASCPI.process text code world_arg max_steps s) as [[r | e] s'].
  - destruct H as (_ & HC & Hsig & HK & _ & Hcur & _).
    split; [exact HK |]. split; [exact Hcur |]. split; [exact HC | exact Hsig].
  - intros Hwf. destruct (H Hwf) as (_ & _ & _ & HK). exact HK.
Qed.

(** A fresh engine, no code, no world and the default 25 steps. *)
Lemma process_restores_the_kernel_witness :
  let s := (ASCPI.__init__ (P := sample_platform) (lit "ascpi_9") 0, KERNEL) in
  match ASCPI.process (P := sample_platform) (lit "Iteration 0") None None 25 s with
  | (Ok r, s') => snd s' = KERNEL
  | (Raise _, s') => snd s' = set_α KERNEL (α KERNEL * 1.5)
  end.
Proof.
  intros s.
  pose proof (process_restores_the_kernel_only_on_return (P := sample_platform)
                (lit "Iteration 0") None None 25 s) as H.
  destruct (ASCPI.process (lit "Iteration 0") None None 25 s) as [[r | e] s'].
  - exact (proj1 H).
  - apply H. apply (wf_init (P := sample_platform)).
Defined.

(** With no step allowed the loop binds nothing, and a text of full
    coherence cannot gain any: the governor sends the projection to the
    rebuild, which reads the unbound [coherences]. *)
Lemma process_zero_steps {P : Platform}
    (text : str) (code : option str) (max_steps : Z) (e : ASCPI.obj) (p : KernelParams)
    (ψ_lang : Ψ) :
  wf e ->
  WorldCurvature.field (ASCPI.world e) = None ->
  MaatGovernor.threshold (ASCPI.governor e) = 0.75 ->
  (max_steps <= 0)%Z ->
  Encoder.text text (lit "lang") = Ok ψ_lang -> C ψ_lang = 1 ->
  wp (ASCPI.process text code None max_steps) (e, p)
     (fun _ _ => False)
     (fun x s' =>
        x = UnboundLocalError
        /\ snd s' = set_α p (α p * 1.5)
        /\ ASCPI.step (fst s') = (ASCPI.step e + 1)%Z
        /\ ASCPI.current (fst s') = ASCPI.current e
        /\ ASCPI.log (fst s') = ASCPI.log e
        /\ ASCPI.memory (fst s') = ASCPI.memory e).
Proof.
  intros Hwf HW Hth Hms Elang HC.
  destruct (text_total text (lit "lang")) as (ψ & Eψ & Hlang & _).
  rewrite Elang in Eψ. injection Eψ as <-.
  unfold ASCPI.process. wp_go. apply wp_lift. rewrite Elang. apply wp_bind.
  set (e1 := ASCPI.with_guardian _ _).
  apply wp_mono with
    (Q := fun (ψ_code : option Ψ) s' =>
            s' = (e1, p) /\ forall c, ψ_code = Some c -> bounded c)
    (E := never); [| | intros ? ? []].
  { destruct code as [[| c0 c] |]; try (apply wp_ret; split; [reflexivity | discriminate]).
    apply wp_bind, wp_lift.
    destruct (code_total (c0 :: c)) as (ψc & Ec & Hc & _). rewrite Ec.
    apply wp_ret. split; [reflexivity |]. intros c' H; injection H as <-. exact Hc. }
  intros ψ_code s1 [-> Hcode]. wp_go.
  assert (HW1 : WorldCurvature.field (ASCPI.world e1) = None).
  { unfold e1. eng_simpl. exact HW. }
  rewrite HW1. apply wp_lift.
  set (fields := _ ++ _ ++ _).
  destruct (project_total fields) as (cur0 & Eproj & Hcur0).
  { unfold fields. apply Forall_app; split; [| apply Forall_app; split].
    - apply Forall_cons; [exact Hlang |].
      apply Forall_cons; [apply attractor_bounded |].
      apply Forall_cons; [unfold e1; eng_simpl; exact (proj1 Hwf) | constructor].
    - destruct ψ_code as [c |]; [| constructor].
      apply Forall_cons; [apply Hcode; reflexivity | constructor].
    - constructor. }
  rewrite Eproj.
  replace (Z.to_nat max_steps) with O by lia.
  cbn [ASCPI.evolution_loop]. wp_go. apply wp_lift.
  assert (Hth1 : MaatGovernor.threshold (ASCPI.governor e1) = 0.75).
  { unfold e1. eng_simpl. exact Hth. }
  destruct (judge_no_gain (ASCPI.governor e1) ψ_lang cur0 Hth1 Hlang Hcur0)
    as (d & score & gv' & Ej & _ & _ & Hre & _).
  cbn [ASCPI.v_current]. rewrite Ej.
  assert (Hd : d = REBUILD).
  { apply Hre. rewrite HC. apply Hcur0. }
  subst d. cbv beta iota. wp_go.
  unfold wp at 1. rewrite rebuild_unbound by reflexivity. cbn [fst snd].
  unfold e1. eng_simpl. repeat split; reflexivity.
Qed.

(** C8, at the input [process("A", max_steps=0)] on a fresh engine, with
    the shared [KERNEL] at its initial values.  The call runs no iteration
    and writes no log entry, but it does not return a result with
    [steps = 0]: the governor sends the projection to the rebuild, whose
    first statement after raising the damping rate reads [coherences],
    bound only inside the evolution loop.  The call raises
    UnboundLocalError and leaves the damping rate at 1.5 times its value. *)
Theorem process_zero_steps_does_not_return :
  let s := (ASCPI.__init__ (P := sample_platform) (lit "ascpi_9") 0, KERNEL) in
  let run := ASCPI.process (P := sample_platform) (lit "A") None None 0 s in
  fst run = Raise UnboundLocalError
  /\ (forall r, fst run <> Ok r)
  /\ ASCPI.log (fst (snd run)) = ASCPI.log (fst s)
  /\ snd (snd run) = set_α KERNEL (α KERNEL * 1.5).
Proof.
  intros s run.
  destruct (one_glyph_text (P := sample_platform) (lit "A") (lit "lang") 65%N [] eq_refl)
    as (ψ & Eψ & HC & _).
  pose proof (process_zero_steps (P := sample_platform) (lit "A") None 0
                (ASCPI.__init__ (P := sample_platform) (lit "ascpi_9") 0) KERNEL ψ
                (wf_init (P := sample_platform) (lit "ascpi_9") 0)
                eq_refl eq_refl ltac:(lia) Eψ HC) as H.
  unfold wp in H. fold s in H. fold run in H.
  destruct run as [[r | x] [e' p']]; [contradiction |].
  cbn [fst snd] in *. destruct H as (-> & -> & _ & _ & Hlog & _).
  split; [reflexivity |]. split; [discriminate |]. split; [exact Hlog | reflexivity].
Qed.

(** X25. A call of [process] with [max_steps <= 0] and no world, on a
    text whose encoding has coherence 1, does not return: on any
    well-formed engine without a world field and with the default
    governor threshold it raises the unbound local of the rebuild.  The
    call has by then counted the step, and leaves the damping rate of the
    shared [KERNEL] multiplied by 1.5; the engine's [current], log and
    memory are untouched. *)
Theorem process_without_steps_raises {P : Platform}
    (text : str) (code : option str) (max_steps : Z) (e : ASCPI.obj) (p : KernelParams)
    (ψ_lang : Ψ) :
  wf e ->
  WorldCurvature.field (ASCPI.world e) = None ->
  MaatGovernor.threshold (ASCPI.governor e) = 0.75 ->
  (max_steps <= 0)%Z ->
  Encoder.text text (lit "lang") = Ok ψ_lang -> C ψ_lang = 1 ->
  exists e',
    ASCPI.process text code None max_steps (e, p)
    = (Raise UnboundLocalError, (e', set_α p (α p * 1.5)))
    /\ ASCPI.step e' = (ASCPI.step e + 1)%Z
    /\ ASCPI.current e' = ASCPI.current e
    /\ ASCPI.log e' = ASCPI.log e
    /\ ASCPI.memory e' = ASCPI.memory e.
Proof.
  intros Hwf HW Hth Hms Elang HC.
  pose proof (process_zero_steps text code max_steps e p ψ_lang Hwf HW Hth Hms Elang HC)
    as H. unfold wp in H.
  destruct (ASCPI.process text code None max_steps (e, p)) as [[r | x] [e' p']];
    [contradiction |].
  cbn [fst snd] in H. destruct H as (-> & -> & H).
  exists e'. split; [reflexivity | exact H].
Qed.

(** The one-letter text A on a fresh engine, with zero steps. *)
Lemma process_without_steps_witness :
  exists e',
    ASCPI.process (P := sample_platform) [65%N] None None 0
      (ASCPI.__init__ (P := sample_platform) (lit "ascpi_9") 0, KERNEL)
    = (Raise UnboundLocalError, (e', set_α KERNEL (α KERNEL * 1.5))).
Proof.
  destruct (one_glyph_text (P := sample_platform) [65%N] (lit "lang") 65%N [] eq_refl)
    as (ψ & Eψ & HC & _).
  destruct (process_without_steps_raises (P := sample_platform) [65%N] None 0
              (ASCPI.__init__ (P := sample_platform) (lit "ascpi_9") 0) KERNEL ψ)
    as (e' & E & _).
  - apply (wf_init (P := sample_platform)).
  - reflexivity.
  - reflexivity.
  - lia.
  - exact Eψ.
  - exact HC.
  - exists e'. exact E.
Defined.


(** ** Learning a limit cycle *)

Lemma absorb_limit_cycle (m : MemoryField.obj) (ψ : Ψ) (rate : R) :
  MemoryField._limit_cycle (MemoryField.absorb m ψ rate)
  = MemoryField._detect_limit_cycle
      (MemoryField._history (MemoryField.absorb m ψ rate))
      (MemoryField._limit_cycle m).
Proof.
  unfold MemoryField.absorb. cbv zeta.
  destruct (3 <=? _)%nat; reflexivity.
Qed.

Lemma absorb_all_history_length (inputs : list (Ψ * R)) :
  List.length (MemoryField._history (absorb_all MemoryField.__init__ inputs))
  = Nat.min 100 (List.length inputs).
Proof.
  induction inputs as [| [ψ rate] inputs IH] using rev_ind.
  - reflexivity.
  - rewrite absorb_all_snoc, absorb_history, length_app. cbn [List.length].
    rewrite deque_append_length by lia. rewrite IH. lia.
Qed.

(** X26. A memory learns no limit cycle before its tenth absorption:
    after fewer than ten [absorb] calls on a fresh memory [_limit_cycle]
    is still unset and [attractor()] is [M_inf] itself. *)
Theorem no_limit_cycle_before_ten_absorptions (inputs : list (Ψ * R)) :
  (List.length inputs < 10)%nat ->
  let m := absorb_all MemoryField.__init__ inputs in
  MemoryField._limit_cycle m = None
  /\ MemoryField.attractor m = MemoryField.M_inf m.
Proof.
  intros Hlen m.
  assert (Hlc : MemoryField._limit_cycle m = None).
  { unfold m. clear m. induction inputs as [| [ψ rate] inputs IH] using rev_ind.
    - reflexivity.
    - rewrite length_app in Hlen. cbn [List.length] in Hlen.
      rewrite absorb_all_snoc, absorb_limit_cycle, <- absorb_all_snoc.
      unfold MemoryField._detect_limit_cycle.
      rewrite absorb_all_history_length, length_app. cbn [List.length].
      replace (Nat.min 100 (List.length inputs + 1) <? 10)%nat with true
        by (symmetry; apply Nat.ltb_lt; lia).
      apply IH. lia. }
  split; [exact Hlc |].
  unfold MemoryField.attractor. rewrite Hlc.
  pose proof (absorb_all_enforced inputs) as HM. fold m in HM.
  unfold copy, new_Ψ.
  replace (mkΨ (ΔΦ (MemoryField.M_inf m)) (κ (MemoryField.M_inf m))
               (θ (MemoryField.M_inf m)) (N (MemoryField.M_inf m))
               (C (MemoryField.M_inf m)) (t (MemoryField.M_inf m))
               (src (MemoryField.M_inf m)))
    with (MemoryField.M_inf m) by (destruct (MemoryField.M_inf m); reflexivity).
  exact HM.
Qed.

Lemma no_limit_cycle_witness :
  let m := absorb_all MemoryField.__init__ [(default_Ψ default_src, 0.2)] in
  MemoryField._limit_cycle m = None
  /\ MemoryField.attractor m = MemoryField.M_inf m.
Proof.
  apply (no_limit_cycle_before_ten_absorptions [(default_Ψ default_src, 0.2)]).
  simpl. lia.
Defined.

(** ** The forensic log as a ring buffer *)

(** A run of consecutive [log] calls on one logger. *)
Definition log_all {P : Platform} (l : ForensicLogger.obj) (inputs : list (Ψ * R * Ψ))
  : ForensicLogger.obj :=
  fold_left (fun l i => ForensicLogger.log l (fst (fst i)) (snd (fst i)) (snd i)) inputs l.

(** Entry numbers [n - k + 1 .. n], for [k] the smaller of [cap] and [n]. *)
Definition recent_numbers (cap n : nat) : list Z :=
  map Z.of_nat (seq (S (n - Nat.min cap n)) (Nat.min cap n)).

Lemma recent_numbers_step (cap n : nat) :
  (0 < cap)%nat ->
  deque_append cap (recent_numbers cap n) (Z.of_nat n + 1)%Z
  = recent_numbers cap (S n).
Proof.
  intros Hcap. unfold deque_append, recent_numbers.
  rewrite length_app, length_map, length_seq. cbn [List.length].
  replace (Z.of_nat n + 1)%Z with (Z.of_nat (S n)) by lia.
  destruct (Nat.le_gt_cases cap n) as [Hfull | Hroom].
  - replace (cap <? Nat.min cap n + 1)%nat with true
      by (symmetry; apply Nat.ltb_lt; lia).
    replace (Nat.min cap n) with cap by lia.
    replace (Nat.min cap (S n)) with cap by lia.
    destruct cap as [| c]; [lia |].
    replace (S n - S c)%nat with (S (n - S c)) by lia.
    set (a := S (n - S c)).
    change (tl (map Z.of_nat (seq a (S c)) ++ [Z.of_nat (S n)]))
      with (map Z.of_nat (seq (S a) c) ++ [Z.of_nat (S n)]).
    rewrite (seq_S c (S a)), map_app. cbn [map]. repeat f_equal. unfold a. lia.
  - replace (cap <? Nat.min cap n + 1)%nat with false
      by (symmetry; apply Nat.ltb_ge; lia).
    replace (Nat.min cap n) with n by lia.
    replace (Nat.min cap (S n)) with (S n) by lia.
    replace (n - n)%nat with O by lia. replace (S n - S n)%nat with O by lia.
    rewrite seq_S, map_app. cbn [map]. repeat f_equal.
Qed.

Lemma log_all_snoc {P : Platform} l inputs i :
  log_all l (inputs ++ [i])
  = ForensicLogger.log (log_all l inputs) (fst (fst i)) (snd (fst i)) (snd i).
Proof. unfold log_all. rewrite fold_left_app. reflexivity. Qed.

(** X27. The forensic log is a ring buffer of the 2000 most recent
    entries: after [n] calls of [log] on a fresh logger the counter is
    [n], and the entries kept are numbered consecutively, oldest first,
    from [n - min(2000, n) + 1] up to [n]; capacity and session tag do
    not change. *)
Theorem log_keeps_the_most_recent_entries {P : Platform}
    (now : R) (inputs : list (Ψ * R * Ψ)) :
  let l := log_all (ForensicLogger.__init__ now) inputs in
  let n := List.length inputs in
  ForensicLogger.count l = Z.of_nat n
  /\ map ForensicLogger.e_i (ForensicLogger.entries l) = recent_numbers 2000 n
  /\ List.length (ForensicLogger.entries l) = Nat.min 2000 n
  /\ ForensicLogger.max_entries l = 2000%nat
  /\ ForensicLogger.session l = ForensicLogger.session (ForensicLogger.__init__ now).
Proof.
  cbv zeta.
  assert (H : ForensicLogger.count (log_all (ForensicLogger.__init__ now) inputs)
              = Z.of_nat (List.length inputs)
              /\ map ForensicLogger.e_i
                   (ForensicLogger.entries (log_all (ForensicLogger.__init__ now) inputs))
                 = recent_numbers 2000 (List.length inputs)
              /\ ForensicLogger.max_entries (log_all (ForensicLogger.__init__ now) inputs)
                 = 2000%nat
              /\ ForensicLogger.session (log_all (ForensicLogger.__init__ now) inputs)
                 = ForensicLogger.session (ForensicLogger.__init__ now)).
  { induction inputs as [| i inputs IH] using rev_ind.
    - unfold recent_numbers. cbn [List.length Nat.min Nat.sub seq map].
      repeat split; reflexivity.
    - destruct IH as (Hc & He & Hm & Hs).
      rewrite log_all_snoc, length_app. cbn [List.length].
      replace (List.length inputs + 1)%nat with (S (List.length inputs)) by lia.
      unfold ForensicLogger.log.
      cbn [ForensicLogger.count ForensicLogger.entries ForensicLogger.max_entries
           ForensicLogger.session].
      split; [rewrite Hc; lia |]. split; [| split; assumption].
      rewrite Hm, <- recent_numbers_step by lia. rewrite <- He, Hc.
      unfold deque_append. rewrite !length_app, length_map. cbn [List.length].
      destruct (_ <? _)%nat.
      + destruct (ForensicLogger.entries _) as [| e0 es]; [reflexivity |].
        cbn [app tl map]. rewrite map_app. reflexivity.
      + rewrite map_app. reflexivity. }
  destruct H as (Hc & He & Hm & Hs).
  split; [exact Hc |]. split; [exact He |]. split; [| split; assumption].
  rewrite <- (length_map ForensicLogger.e_i), He.
  unfold recent_numbers. rewrite length_map, length_seq. reflexivity.
Qed.

(** ** How fast the awareness field changes *)

(** Names the value of a [let] of the goal, keeping it shared. *)
Ltac name_let :=
  match goal with
  | |- context G [let x := ?v in @?b x] =>
    let y := fresh "v" in
    pose (y := v);
    let g := context G [b y] in
    change g; cbv beta
  end.

(** X28. Without a world field one call of [AwarenessField.evolve] moves
    the awareness field by small steps only: its coherence falls by at
    most 0.005 and rises by at most 0.015, its curvature changes by a
    factor between 0.95 and 1.02, its tension stays in [-1, 1], and an
    energy of at most 1 stays at most 1. *)
Theorem awareness_changes_slowly
    (aw : AwarenessField.obj) (ψ M_inf : Ψ) :
  bounded (AwarenessField.field aw) -> bounded ψ -> bounded M_inf ->
  exists out aw',
    AwarenessField.evolve aw ψ M_inf None = Ok (out, aw')
    /\ (let f := AwarenessField.field aw in
        let f' := AwarenessField.field aw' in
        C f - 0.005 <= C f' <= C f + 0.015
        /\ 0.95 * κ f <= κ f' <= 1.02 * κ f
        /\ -1 <= ΔΦ f' <= 1
        /\ (N f <= 1 -> N f' <= 1)).
Proof.
  intros (Hκ & _ & HC & HN) Hψ HM. unfold κ_MIN, κ_MAX in Hκ.
  cbv beta delta [AwarenessField.evolve].
  destruct (dist_total ψ M_inf Hψ HM) as [d Ed].
  destruct (inner_total_bounded ψ M_inf Hψ HM) as [a Ea].
  rewrite Ed, Ea. cbv beta iota delta [obind].
  repeat name_let.
  eexists. eexists. split; [reflexivity |].
  intros f0 f'. subst f0 f'. set (f := AwarenessField.field aw) in *.
  cbv beta iota delta [AwarenessField.field].
  repeat match goal with
         | x := ?b : Ψ |- _ => lazymatch b with context [copy ψ] => clear x end
         end.
  repeat match goal with
         | x := _ : bool |- _ => clearbody x
         | x := _ : nat |- _ => clearbody x
         | x := _ : R |- _ => clearbody x
         end.
  repeat match goal with
         | x := _ : Ψ |- _ => subst x
         end.
  repeat match goal with
         | |- context [if ?c then _ else _] => destruct c
         end;
    cbn [ΔΦ κ θ N C _enforce set_C set_N set_θ set_κ set_ΔΦ];
    unfold κ_MIN, κ_MAX, ε;
    (split; [| split; [| split]]);
    try (intros HN1);
    try (rewrite Rabs_right by nra);
    unfold Rmax, Rmin; repeat destruct (Rle_dec _ _); lra.
Qed.

Lemma awareness_changes_slowly_witness :
  exists out aw',
    AwarenessField.evolve AwarenessField.__init__ (default_Ψ default_src)
      (MemoryField.M_inf MemoryField.__init__) None = Ok (out, aw')
    /\ C (AwarenessField.field aw')
       <= C (AwarenessField.field AwarenessField.__init__) + 0.015.
Proof.
  destruct (awareness_changes_slowly AwarenessField.__init__ (default_Ψ default_src)
              (MemoryField.M_inf MemoryField.__init__))
    as (out & aw' & E & H & _).
  - apply new_Ψ_bounded.
  - apply new_Ψ_bounded.
  - apply new_Ψ_bounded.
  - exists out, aw'. split; [exact E | apply H].
Defined.

(** ** Leading whitespace *)

Section LeadingSpace.
Context {P : Platform}.

(** The outer loop's result does not depend on the iteration bound once
    the bound covers the characters left. *)
Lemma clusters_loop_fuel (fuel1 : nat) :
  forall fuel2 rest clusters,
    (List.length rest <= fuel1)%nat -> (List.length rest <= fuel2)%nat ->
    Encoder.clusters_loop fuel1 clusters [] rest
    = Encoder.clusters_loop fuel2 clusters [] rest.
Proof.
  induction fuel1 as [| fuel1 IH]; intros fuel2 rest clusters H1 H2.
  - destruct rest; [| simpl in H1; lia]. destruct fuel2; reflexivity.
  - destruct rest as [| c rest1]; [destruct fuel2; reflexivity |].
    destruct fuel2 as [| fuel2]; [simpl in H2; lia |].
    simpl in H1, H2. cbn [Encoder.clusters_loop].
    destruct (isspace c).
    + apply IH; lia.
    + cbn [app].
      pose proof (extend_cluster_spec (List.length rest1) rest1 [c] (le_n _)) as [Hlen _].
      destruct (Encoder.extend_cluster [c] rest1) as [cluster rest2].
      cbn [snd] in Hlen. apply IH; lia.
Qed.

Lemma graphemes_leading_space (c : codepoint) (txt : str) :
  isspace c = true -> Encoder.graphemes (c :: txt) = Encoder.graphemes txt.
Proof.
  intros Hc. unfold Encoder.graphemes. cbn [List.length Encoder.clusters_loop].
  rewrite Hc. destruct txt as [| c' txt'].
  - reflexivity.
  - apply clusters_loop_fuel; simpl; lia.
Qed.

End LeadingSpace.

(** X29. Whitespace in front of a text changes nothing: the clusters,
    and with them the encoded state, are those of the text without it. *)
Theorem leading_whitespace_is_ignored {P : Platform} (ws txt source : str) :
  Forall (fun c => isspace c = true) ws ->
  Encoder.graphemes (ws ++ txt) = Encoder.graphemes txt
  /\ Encoder.text (ws ++ txt) source = Encoder.text txt source.
Proof.
  intros Hws.
  assert (Hg : Encoder.graphemes (ws ++ txt) = Encoder.graphemes txt).
  { induction Hws as [| c ws Hc Hws IH]; [reflexivity |].
    cbn [app]. rewrite (graphemes_leading_space c (ws ++ txt) Hc). exact IH. }
  split; [exact Hg |]. unfold Encoder.text. rewrite Hg. reflexivity.
Qed.

(** Two spaces in front of the letter A. *)
Lemma leading_whitespace_witness :
  Encoder.text (P := sample_platform) ([32; 32] ++ [65])%N (lit "lang")
  = Encoder.text (P := sample_platform) [65%N] (lit "lang").
Proof.
  apply (leading_whitespace_is_ignored (P := sample_platform) [32; 32]%N [65%N] (lit "lang")).
  apply Forall_cons; [reflexivity |]. apply Forall_cons; [reflexivity | apply Forall_nil].
Defined.
(** * Phase continuity through an iteration *)

(** ** Phases modulo 2π *)

Lemma pymod_period (y : R) (k : Z) : pymod (y + IZR k * τ) τ = pymod y τ.
Proof.
  pose proof τ_pos as Hτ. pose proof (pymod_bounds y τ Hτ) as Hb.
  assert (E : pymod y τ = y - τ * IZR (Int_part (y / τ))) by reflexivity.
  rewrite (pymod_shift (y + IZR k * τ) τ (- Int_part (y / τ) - k) Hτ);
    rewrite minus_IZR, opp_IZR; lra.
Qed.

Lemma pymod_pymod_add (a b : R) : pymod (pymod a τ + b) τ = pymod (a + b) τ.
Proof.
  assert (E : pymod a τ = a - τ * IZR (Int_part (a / τ))) by reflexivity.
  rewrite E.
  replace (a - τ * IZR (Int_part (a / τ)) + b)
    with (a + b + IZR (- Int_part (a / τ)) * τ) by (rewrite opp_IZR; ring).
  apply pymod_period.
Qed.

Lemma sin_cos_period_nat (x : R) (n : nat) :
  sin (x - INR n * τ) = sin x /\ cos (x - INR n * τ) = cos x.
Proof.
  unfold τ, π. split.
  - rewrite <- (sin_period (x - INR n * (2 * PI)) n). f_equal. ring.
  - rewrite <- (cos_period (x - INR n * (2 * PI)) n). f_equal. ring.
Qed.

Lemma sin_cos_period (x : R) (k : Z) :
  sin (x + IZR k * τ) = sin x /\ cos (x + IZR k * τ) = cos x.
Proof.
  destruct (Z_le_gt_dec 0 k) as [Hk | Hk].
  - rewrite <- (Z2Nat.id k Hk), <- INR_IZR_INZ. unfold τ, π.
    replace (x + INR (Z.to_nat k) * (2 * PI)) with (x + 2 * INR (Z.to_nat k) * PI) by ring.
    split; [apply sin_period | apply cos_period].
  - assert (Hn : k = (- Z.of_nat (Z.to_nat (- k)))%Z) by lia.
    rewrite Hn, opp_IZR, <- INR_IZR_INZ.
    replace (x + - INR (Z.to_nat (- k)) * τ) with (x - INR (Z.to_nat (- k)) * τ) by ring.
    apply sin_cos_period_nat.
Qed.

Lemma sin_pymod (x : R) : sin (pymod x τ) = sin x.
Proof.
  assert (E : pymod x τ = x + IZR (- Int_part (x / τ)) * τ)
    by (unfold pymod; rewrite opp_IZR; ring).
  rewrite E. apply sin_cos_period.
Qed.

Lemma cos_pymod (x : R) : cos (pymod x τ) = cos x.
Proof.
  assert (E : pymod x τ = x + IZR (- Int_part (x / τ)) * τ)
    by (unfold pymod; rewrite opp_IZR; ring).
  rewrite E. apply sin_cos_period.
Qed.

(** The angle of a point on a circle, for any angle. *)
Lemma atan2_polar_any (r y : R) :
  0 < r -> pymod (atan2 (r * sin y) (r * cos y)) τ = pymod y τ.
Proof.
  intros Hr. rewrite <- (sin_pymod y), <- (cos_pymod y).
  apply atan2_polar; [exact Hr | apply pymod_bounds, τ_pos].
Qed.

(** The wrapped difference of two phases reached from a common one. *)
Lemma wrapped_diff_shifts (x a b : R) :
  Rabs (a - b) <= π ->
  wrapped_diff (pymod (x + a) τ) (pymod (x + b) τ) = Rabs (a - b).
Proof.
  intros H.
  replace (x + a) with (x + b + (a - b)) by ring.
  rewrite <- pymod_pymod_add.
  apply wrapped_diff_shift; [apply pymod_bounds, τ_pos | exact H].
Qed.

(** Two phases in [0, 2π) differ by a shift of the size of their wrapped
    difference. *)
Lemma wrapped_diff_as_shift (a b : R) :
  0 <= a < τ -> 0 <= b < τ ->
  exists d, a = pymod (b + d) τ /\ Rabs d = wrapped_diff a b /\ Rabs d <= π.
Proof.
  intros Ha Hb. unfold wrapped_diff. cbv zeta. unfold τ, π in *.
  pose proof PI_RGT_0 as Hpi.
  destruct (Rlt_dec PI (Rabs (a - b))) as [Hbig | Hsmall].
  - destruct (Rle_lt_dec b a) as [Hle | Hlt].
    + rewrite Rabs_right in * by lra. exists (a - b - 2 * PI). split; [| split].
      * rewrite (pymod_shift _ _ 1); lra.
      * rewrite Rabs_left1; lra.
      * rewrite Rabs_left1; lra.
    + rewrite (Rabs_left1 (a - b)) in * by lra. exists (a - b + 2 * PI). split; [| split].
      * rewrite (pymod_shift _ _ (-1)); lra.
      * rewrite Rabs_right; lra.
      * rewrite Rabs_right; lra.
  - exists (a - b). split; [| split].
    + rewrite pymod_small; lra.
    + reflexivity.
    + lra.
Qed.

(** ** The circular mean of two phases *)

(** The direction of [A + iB] for a positive real part. *)
Lemma direction (A B : R) :
  0 < A ->
  exists ρ, 0 < ρ /\ A = ρ * cos (atan (B / A)) /\ B = ρ * sin (atan (B / A)).
Proof.
  intros HA. set (φ := atan (B / A)).
  assert (Hc : 0 < cos φ).
  { pose proof (atan_bound (B / A)) as [H1 H2]. apply cos_gt_0; unfold φ; lra. }
  exists (A / cos φ). split; [apply Rdiv_lt_0_compat; assumption |]. split.
  - field. lra.
  - assert (Ht : tan φ = B / A) by apply tan_atan.
    unfold tan in Ht.
    assert (Hs : sin φ = B / A * cos φ).
    { rewrite <- Ht. field. lra. }
    rewrite Hs. field. split; lra.
Qed.

(** The phase of the superposition of [x], with weight [w], and [x + d],
    with weight [1 - w], for a heavier first state: it is [x] moved by an
    angle below a quarter turn, which lies between 0 and [d] when [d] is
    below a quarter turn itself. *)
Lemma mean_phase (w x d : R) :
  1 / 2 < w <= 1 ->
  exists φ,
    pymod (atan2 (w * sin x + (1 - w) * sin (x + d))
                 (w * cos x + (1 - w) * cos (x + d))) τ
    = pymod (x + φ) τ
    /\ Rabs φ < π / 2
    /\ (0 <= d < π / 2 -> 0 <= φ <= d)
    /\ (- (π / 2) < d <= 0 -> d <= φ <= 0).
Proof.
  intros Hw. unfold π.
  set (A := w + (1 - w) * cos d). set (B := (1 - w) * sin d).
  assert (HA : 0 < A).
  { unfold A. pose proof (COS_bound d) as [H1 H2]. nra. }
  destruct (direction A B HA) as (ρ & Hρ & EA & EB).
  set (φ := atan (B / A)) in *.
  exists φ. split; [| split; [| split]].
  - replace (w * sin x + (1 - w) * sin (x + d)) with (ρ * sin (x + φ)).
    2:{ rewrite !sin_plus. 
        replace (ρ * (sin x * cos φ + cos x * sin φ))
          with ((ρ * cos φ) * sin x + (ρ * sin φ) * cos x) by ring.
        rewrite <- EA, <- EB. unfold A, B. ring. }
    replace (w * cos x + (1 - w) * cos (x + d)) with (ρ * cos (x + φ)).
    2:{ rewrite !cos_plus.
        replace (ρ * (cos x * cos φ - sin x * sin φ))
          with ((ρ * cos φ) * cos x - (ρ * sin φ) * sin x) by ring.
        rewrite <- EA, <- EB. unfold A, B. ring. }
    apply atan2_polar_any, Hρ.
  - pose proof (atan_bound (B / A)) as [H1 H2].
    apply Rabs_def1; unfold φ; lra.
  - intros [Hd0 Hd1].
    assert (Hs : 0 <= sin d) by (apply sin_ge_0; pose proof PI_RGT_0; lra).
    assert (Hcd : 0 < cos d) by (apply cos_gt_0; pose proof PI_RGT_0; lra).
    assert (HB : 0 <= B / A).
    { apply Rmult_le_pos; [unfold B; nra | left; apply Rinv_0_lt_compat, HA]. }
    split.
    + unfold φ. rewrite <- atan_0.
      destruct HB as [HB | HB]; [left; apply atan_increasing, HB | rewrite <- HB; right; reflexivity].
    + assert (Ht : B / A <= tan d).
      { unfold tan. apply (Rmult_le_reg_r (A * cos d)); [nra |].
        replace (B / A * (A * cos d)) with (B * cos d) by (field; lra).
        replace (sin d / cos d * (A * cos d)) with (sin d * A) by (field; lra).
        unfold A, B. nra. }
      unfold φ. rewrite <- (atan_tan d) by (pose proof PI_RGT_0; lra).
      destruct Ht as [Ht | Ht]; [left; apply atan_increasing, Ht | rewrite Ht; right; reflexivity].
  - intros [Hd0 Hd1].
    assert (Hs : sin d <= 0).
    { rewrite <- (Ropp_involutive d), sin_neg.
      pose proof (sin_ge_0 (- d)) as H. pose proof PI_RGT_0. lra. }
    assert (Hcd : 0 < cos d) by (apply cos_gt_0; pose proof PI_RGT_0; lra).
    assert (HB : B / A <= 0).
    { unfold Rdiv. assert (0 < / A) by apply Rinv_0_lt_compat, HA.
      assert (B <= 0) by (unfold B; nra). nra. }
    split.
    + assert (Ht : tan d <= B / A).
      { unfold tan. apply (Rmult_le_reg_r (A * cos d)); [nra |].
        replace (B / A * (A * cos d)) with (B * cos d) by (field; lra).
        replace (sin d / cos d * (A * cos d)) with (sin d * A) by (field; lra).
        unfold A, B. nra. }
      unfold φ. rewrite <- (atan_tan d) by (pose proof PI_RGT_0; lra).
      destruct Ht as [Ht | Ht]; [left; apply atan_increasing, Ht | rewrite Ht; right; reflexivity].
    + unfold φ. rewrite <- atan_0.
      destruct HB as [HB | HB]; [left; apply atan_increasing, HB | rewrite HB; right; reflexivity].
Qed.

(** ** The phase through the pieces of an iteration *)

(** The kernel adds its clamped shift to the phase. *)
Lemma kernel_phase_shift (self : UnifiedTensorKernel.obj) (p : KernelParams)
    (ψ A M_inf : Ψ) (W : option Ψ) (grad_C : R) :
  exists sh,
    θ (fst (UnifiedTensorKernel.__call__ self p ψ A M_inf W grad_C))
    = pymod (θ ψ + sh) τ
    /\ Rabs sh <= PHASE_MAX /\ Rabs sh <= Rabs (K p).
Proof.
  assert (Hout : exists x, -1 <= x <= 1 /\
            θ (fst (UnifiedTensorKernel.__call__ self p ψ A M_inf W grad_C))
            = pymod (θ ψ + Rmax (- PHASE_MAX) (Rmin PHASE_MAX (K p * x))) τ).
  { unfold UnifiedTensorKernel.__call__. cbv zeta. cbn [fst].
    unfold new_Ψ, _enforce; cbn [θ]. rewrite !pymod_idem by apply τ_pos.
    eexists. split; [| reflexivity]. apply SIN_bound. }
  destruct Hout as (x & Hx & E).
  destruct (clamp_shift_bound (K p) x Hx) as [H1 H2]. cbv zeta in H1, H2.
  eexists. split; [exact E |]. split; assumption.
Qed.

(** The awareness field adds its correction, of at most 0.1, to the phase. *)
Lemma evolve_phase (aw aw' : AwarenessField.obj) (ψ M_inf out : Ψ) (W : option Ψ) :
  AwarenessField.evolve aw ψ M_inf W = Ok (out, aw') ->
  exists c, θ out = pymod (θ ψ + c) τ /\ Rabs c <= 0.1.
Proof.
  cbv beta delta [AwarenessField.evolve].
  destruct (dist ψ M_inf) as [d |]; cbv beta iota delta [obind].
  2:{ repeat name_let. discriminate. }
  destruct (inner ψ M_inf) as [a |]; cbv beta iota delta [obind].
  2:{ repeat name_let. discriminate. }
  repeat name_let.
  intros E. injection E as E _. subst out.
  repeat match goal with
         | x := ?b : Ψ |- _ =>
           lazymatch b with
           | context [copy ψ] => subst x
           end
         end.
  match goal with
  | |- context [Rlt_dec 0.3 ?c] => destruct (Rlt_dec 0.3 c) as [Hhi | Hlo]
  end.
  - cbn [θ set_θ]. rewrite θ_copy, pymod_pymod_add.
    eexists. split; [reflexivity |].
    match goal with
    | |- Rabs (0.1 * ?c * sin ?x) <= _ =>
      assert (Hc : 0 <= c <= 1);
        [| pose proof (SIN_bound x) as [S1 S2]; apply Rabs_le; split; nra]
    end.
    match goal with
    | |- 0 <= C ?f <= 1 => assert (Hb : bounded f); [| apply Hb]
    end.
    repeat match goal with x := _ : Ψ |- _ => subst x end.
    apply _enforce_bounded.
  - exists 0. rewrite θ_copy, Rplus_0_r, Rabs_R0. split; [reflexivity | lra].
Qed.

(** The phase of the INV-5 blend of the before-state with a result whose
    phase is the before-phase moved by [d]. *)
Lemma guardian_blend_phase (before r : Ψ) (d : R) :
  θ r = pymod (θ before + d) τ ->
  exists φ,
    θ (_enforce (blend before r 0.7)) = pymod (θ before + φ) τ
    /\ Rabs φ < π / 2
    /\ (0 <= d < π / 2 -> 0 <= φ <= d)
    /\ (- (π / 2) < d <= 0 -> d <= φ <= 0).
Proof.
  intros Hr.
  destruct (mean_phase 0.7 (θ before) d ltac:(lra)) as (φ & E & Hφ).
  exists φ. split; [| exact Hφ].
  unfold blend. cbv zeta. unfold new_Ψ, _enforce; cbn [θ].
  rewrite !pymod_idem by apply τ_pos.
  rewrite Hr, sin_pymod, cos_pymod. exact E.
Qed.

(** Up to the blend, the guardian's result has a phase in [0, 2π) within
    a quarter turn of the before-phase; it is the after-phase when that
    is within a quarter turn already. *)
Lemma guardian_clipped_phase (before after : Ψ) (c : R) :
  0 <= θ before < τ ->
  let r := InvariantGuardian.clip_phase before
             (InvariantGuardian.conserve_energy before
                (set_κ (set_C (copy after) c)
                       (Rmax κ_MIN (Rmin κ_MAX (κ (set_C (copy after) c)))))) in
  0 <= θ r < τ
  /\ wrapped_diff (θ r) (θ before) <= PHASE_MAX
  /\ (wrapped_diff (pymod (θ after) τ) (θ before) <= PHASE_MAX ->
      θ r = pymod (θ after) τ).
Proof.
  intros Hb r.
  set (r1 := InvariantGuardian.conserve_energy before _) in r.
  assert (Hθ1 : θ r1 = pymod (θ after) τ).
  { unfold r1. rewrite θ_conserve_energy. reflexivity. }
  assert (Hr1 : 0 <= θ r1 < τ) by (rewrite Hθ1; apply pymod_bounds, τ_pos).
  destruct (clip_phase_bound before r1 Hb Hr1) as [Hrange Hdiff].
  split; [exact Hrange |]. split; [exact Hdiff |].
  intros Hsmall. unfold r, InvariantGuardian.clip_phase. cbv zeta.
  change (if Rlt_dec π (Rabs (θ r1 - θ before)) then τ - Rabs (θ r1 - θ before)
          else Rabs (θ r1 - θ before)) with (wrapped_diff (θ r1) (θ before)).
  rewrite Hθ1 in *.
  destruct (Rlt_dec PHASE_MAX (wrapped_diff (pymod (θ after) τ) (θ before))); [lra |].
  exact Hθ1.
Qed.

(** The guardian returns a phase within a quarter turn of the
    before-phase, with or without the blend. *)
Lemma guardian_phase_bound (g : InvariantGuardian.obj) (before after : Ψ) (L : R) :
  0 <= θ before < τ ->
  wrapped_diff (θ (fst (InvariantGuardian.enforce g before after L))) (θ before)
  <= PHASE_MAX.
Proof.
  intros Hb. unfold InvariantGuardian.enforce. cbv zeta. cbn [fst].
  match goal with
  | |- context [InvariantGuardian.clip_phase before ?x] =>
    set (r := InvariantGuardian.clip_phase before x)
  end.
  destruct (guardian_clipped_phase before after
              (Rmax (C (copy after))
                    (Rmax (Rmax 0 (InvariantGuardian._C_floor g - 0.002))
                          (C before - 0.1))) Hb) as (Hrange & Hdiff & _).
  fold r in Hrange, Hdiff.
  destruct (exceeds L (InvariantGuardian._L_prev g)).
  - destruct (wrapped_diff_as_shift (θ r) (θ before) Hrange Hb) as (d & Ed & _ & _).
    destruct (guardian_blend_phase before r d Ed) as (φ & E & Hφ & _).
    rewrite E. rewrite wrapped_diff_shift; [| exact Hb |].
    + unfold PHASE_MAX. lra.
    + pose proof π_pos. lra.
  - unfold _enforce; cbn [θ]. rewrite pymod_small by exact Hrange. exact Hdiff.
Qed.

(** When the after-phase is the before-phase moved by less than a quarter
    turn, the guardian returns the before-phase moved by an angle between
    0 and that shift. *)
Lemma guardian_phase_between (g : InvariantGuardian.obj) (before after : Ψ) (L d : R) :
  0 <= θ before < τ ->
  pymod (θ after) τ = pymod (θ before + d) τ ->
  Rabs d < π / 2 ->
  exists u,
    θ (fst (InvariantGuardian.enforce g before after L)) = pymod (θ before + u) τ
    /\ (0 <= d -> 0 <= u <= d) /\ (d <= 0 -> d <= u <= 0).
Proof.
  intros Hb Ha Hd. unfold InvariantGuardian.enforce. cbv zeta. cbn [fst].
  match goal with
  | |- context [InvariantGuardian.clip_phase before ?x] =>
    set (r := InvariantGuardian.clip_phase before x)
  end.
  destruct (guardian_clipped_phase before after
              (Rmax (C (copy after))
                    (Rmax (Rmax 0 (InvariantGuardian._C_floor g - 0.002))
                          (C before - 0.1))) Hb) as (Hrange & _ & Hkeep).
  fold r in Hrange, Hkeep.
  assert (Hr : θ r = pymod (θ before + d) τ).
  { rewrite <- Ha. apply Hkeep. rewrite Ha.
    rewrite wrapped_diff_shift; [unfold PHASE_MAX; lra | exact Hb |].
    pose proof π_pos. lra. }
  apply Rabs_def2 in Hd.
  destruct (exceeds L (InvariantGuardian._L_prev g)).
  - destruct (guardian_blend_phase before r d Hr) as (φ & E & _ & Hpos & Hneg).
    exists φ. split; [exact E |]. split; intros H; [apply Hpos | apply Hneg]; lra.
  - exists d. split; [| split; intros; lra].
    unfold _enforce; cbn [θ]. rewrite pymod_small by exact Hrange. exact Hr.
Qed.

(** ** The kernel outputs of a run of the evolution loop *)

(** Every two neighbours of a list are related. *)
Fixpoint consecutive {A} (R : A -> A -> Prop) (l : list A) : Prop :=
  match l with
  | a :: (b :: _) as rest => R a b /\ consecutive R rest
  | _ => True
  end.

(** The phase-continuity bound between a state and its successor. *)
Definition phase_continuous (a b : Ψ) : Prop :=
  wrapped_diff (θ b) (θ a) <= PHASE_MAX.

Section PhaseContinuity.
Context {P : Platform}.

(** [evolution_loop], returning with the locals the states the kernel
    returned, one per iteration and in order: the loop itself is the
    second component. *)
Fixpoint evolution_trace (n : nat) (ψ_lang : Ψ) (ψ_code W : option Ψ) (v : ASCPI.locals)
  : ASCPI.M (list Ψ * ASCPI.locals) :=
  match n with
  | O => ASCPI.ret ([], v)
  | S n' =>
    ASCPI.bind (ASCPI.evolve_kernel ψ_lang ψ_code W v) (fun '(before, v1) =>
    ASCPI.bind (ASCPI.evolve_settle ψ_lang ψ_code W before v1) (fun '(v2, stop) =>
      if stop : bool then ASCPI.ret ([ASCPI.v_current v1], v2)
      else
        ASCPI.bind (evolution_trace n' ψ_lang ψ_code W v2) (fun '(tr, v') =>
        ASCPI.ret (ASCPI.v_current v1 :: tr, v'))))
  end.

(** Forgetting the kernel outputs gives the loop back. *)
Lemma evolution_trace_loop (ψ_lang : Ψ) (ψ_code W : option Ψ) (n : nat) :
  forall v s,
    ASCPI.evolution_loop n ψ_lang ψ_code W v s
    = match evolution_trace n ψ_lang ψ_code W v s with
      | (Ok r, s') => (Ok (snd r), s')
      | (Raise e, s') => (Raise e, s')
      end.
Proof.
  induction n as [| n IH]; intros v s; [reflexivity |].
  cbn [ASCPI.evolution_loop evolution_trace]. unfold ASCPI.bind.
  destruct (ASCPI.evolve_kernel ψ_lang ψ_code W v s) as [[[before v1] | e] s1];
    [| reflexivity].
  destruct (ASCPI.evolve_settle ψ_lang ψ_code W before v1 s1) as [[[v2 stop] | e] s2];
    [| reflexivity].
  destruct stop; [reflexivity |].
  rewrite IH.
  destruct (evolution_trace n ψ_lang ψ_code W v2 s2) as [[[tr v'] | e] s3]; reflexivity.
Qed.

Lemma wp_conj {A} (m : ASCPI.M A) s (Q1 Q2 : A -> ASCPI.state -> Prop) :
  wp m s Q1 never -> wp m s Q2 (fun _ _ => True) ->
  wp m s (fun a s' => Q1 a s' /\ Q2 a s') never.
Proof. unfold wp. destruct (m s) as [[a | e] s']; auto. Qed.

Lemma evolve_kernel_phase (ψ_lang : Ψ) (ψ_code W : option Ψ) (v : ASCPI.locals)
    (s : ASCPI.state) :
  wp (ASCPI.evolve_kernel ψ_lang ψ_code W v) s
     (fun r _ =>
        exists sh,
          θ (ASCPI.v_current (snd r)) = pymod (θ (ASCPI.v_current v) + sh) τ
          /\ Rabs sh <= PHASE_MAX /\ Rabs sh <= Rabs (K (snd s)))
     (fun _ _ => True).
Proof.
  unfold ASCPI.evolve_kernel. destruct s as [e p]. cbv zeta.
  wp_go.
  destruct (CoherenceForce.compute _ _) as [[grad_C C_fused] cf'].
  wp_go.
  match goal with
  | |- context [UnifiedTensorKernel.__call__ ?k ?q ?a ?b ?c ?d ?g] =>
    pose proof (kernel_phase_shift k q a b c d g) as Hk;
    destruct (UnifiedTensorKernel.__call__ k q a b c d g) as [ψ' k']
  end.
  wp_go. cbn [fst snd ASCPI.v_current] in *. exact Hk.
Qed.

(** Awareness and guardian after a kernel step of less than a quarter
    turn less 0.1: the phase ends between the before-phase and the
    corrected kernel phase. *)
Lemma settle_phase (W : option Ψ) (before current : Ψ) (sh : R) (s : ASCPI.state) :
  0 <= θ before < τ ->
  θ current = pymod (θ before + sh) τ ->
  Rabs sh + 0.1 < π / 2 ->
  wp (ASCPI.settle W before current) s
     (fun r _ =>
        exists e, θ (fst r) = pymod (θ current + e) τ
                  /\ Rabs e <= Rmax (Rabs sh) 0.1)
     (fun _ _ => True).
Proof.
  intros Hb Hcur Hsh. unfold ASCPI.settle. destruct s as [en p].
  wp_go. apply wp_lift.
  destruct (AwarenessField.evolve _ _ _ W) as [[out aw'] |] eqn:Eev; [| exact I].
  destruct (evolve_phase _ _ _ _ _ _ Eev) as (c & Eout & Hc).
  cbn [θ set_C] in Eout. rewrite Hcur, pymod_pymod_add in Eout.
  cbv beta iota. wp_go. apply wp_lift.
  destruct (MaatFunctional.__call__ _ out _ 0.0) as [L |]; [| exact I].
  wp_go.
  assert (Hc' : - (0.1) <= c <= 0.1) by (apply Rabs_le_bounds, Hc).
  assert (Hs' : Rabs (sh + c) < π / 2).
  { pose proof (Rabs_triang sh c). pose proof (Rabs_pos sh). lra. }
  match goal with
  | |- context [InvariantGuardian.enforce ?g before out L] =>
    destruct (guardian_phase_between g before out L (sh + c) Hb) as (u & Eu & Hpos & Hneg);
      [rewrite Eout, pymod_idem by apply τ_pos; f_equal; ring | exact Hs' |];
      destruct (InvariantGuardian.enforce g before out L) as [cur' g']
  end.
  wp_go. cbn [fst] in *.
  exists (u - sh). split.
  - rewrite Eu, Hcur, pymod_pymod_add. f_equal. ring.
  - assert (Hm1 : Rabs sh <= Rmax (Rabs sh) 0.1) by apply Rmax_l.
    assert (Hm2 : 0.1 <= Rmax (Rabs sh) 0.1) by apply Rmax_r.
    pose proof (Rle_abs sh). pose proof (Rle_abs (- sh)) as Hn. rewrite Rabs_Ropp in Hn.
    apply Rabs_le.
    destruct (Rle_lt_dec 0 (sh + c)) as [Hd | Hd].
    + specialize (Hpos Hd). lra.
    + specialize (Hneg ltac:(lra)). lra.
Qed.

Lemma evolve_settle_phase (ψ_lang : Ψ) (ψ_code W : option Ψ) (before : Ψ)
    (v : ASCPI.locals) (sh : R) (s : ASCPI.state) :
  0 <= θ before < τ ->
  θ (ASCPI.v_current v) = pymod (θ before + sh) τ ->
  Rabs sh + 0.1 < π / 2 ->
  wp (ASCPI.evolve_settle ψ_lang ψ_code W before v) s
     (fun r _ =>
        exists e, θ (ASCPI.v_current (fst r)) = pymod (θ (ASCPI.v_current v) + e) τ
                  /\ Rabs e <= Rmax (Rabs sh) 0.1)
     (fun _ _ => True).
Proof.
  intros Hb Hcur Hsh. unfold ASCPI.evolve_settle. destruct s as [en p].
  wp_go.
  eapply wp_mono; [apply (settle_phase W before _ sh _ Hb Hcur Hsh) | | auto].
  intros [cur L] s' (e & Ee & He). cbn [fst snd] in *.
  wp_go. cbv zeta. cbn [fst ASCPI.v_current].
  exists e. split; assumption.
Qed.

(** The loop returns, and with it the instrumented loop. *)
Lemma evolution_trace_total (ψ_lang : Ψ) (ψ_code W : option Ψ) (n : nat) :
  forall v s,
    bounded (ASCPI.v_current v) ->
    exists tr v' s', evolution_trace n ψ_lang ψ_code W v s = (Ok (tr, v'), s').
Proof.
  intros v s Hb.
  pose proof (evolution_loop_spec ψ_lang ψ_code W n v s Hb) as H.
  unfold wp in H. rewrite evolution_trace_loop in H.
  destruct (evolution_trace n ψ_lang ψ_code W v s) as [[[tr v'] | e] s'].
  - exists tr, v', s'. reflexivity.
  - contradiction.
Qed.

(** Neighbouring kernel outputs of a run, given the kernel output [prev]
    of the iteration before the run, if there was one. *)
Lemma evolution_trace_spec (ψ_lang : Ψ) (ψ_code W : option Ψ) (n : nat) :
  forall (v : ASCPI.locals) (s : ASCPI.state) (prev : option Ψ),
    bounded (ASCPI.v_current v) ->
    Rabs (K (snd s)) <= π / 4 ->
    (forall k, prev = Some k ->
       0 <= θ k < τ
       /\ exists e, θ (ASCPI.v_current v) = pymod (θ k + e) τ
                    /\ Rabs e <= Rmax (Rabs (K (snd s))) 0.1) ->
    wp (evolution_trace n ψ_lang ψ_code W v) s
       (fun r _ => consecutive phase_continuous (ASCPI.opt_list prev ++ fst r))
       never.
Proof.
  pose proof PI2_3_2 as Hpi.
  induction n as [| n IH]; intros v s prev Hcur HK Hprev.
  - simpl. apply wp_ret. cbn [fst]. rewrite app_nil_r.
    destruct prev; simpl; auto.
  - cbn [evolution_trace]. apply wp_bind.
    eapply wp_mono;
      [apply wp_conj; [apply evolve_kernel_spec | apply evolve_kernel_phase] | | intros ? ? []].
    intros [before v1] s1
      ((Hbef & Hb1 & _ & _ & _ & Hf1 & _) & (sh & Esh & Hsh1 & Hsh2)).
    cbn [fst snd] in *.
    assert (HK1 : K (snd s1) = K (snd s)) by (f_equal; apply Hf1).
    assert (Hθb : θ before = θ (ASCPI.v_current v)).
    { rewrite Hbef, θ_copy. apply pymod_small, Hcur. }
    assert (Hbr : 0 <= θ before < τ) by (rewrite Hθb; apply Hcur).
    rewrite <- Hθb in Esh.
    assert (Hsmall : Rabs sh + 0.1 < π / 2) by (unfold π in *; lra).
    apply wp_bind.
    eapply wp_mono;
      [apply wp_conj;
       [apply evolve_settle_spec, Hb1
       | apply (evolve_settle_phase ψ_lang ψ_code W before v1 sh s1 Hbr Esh Hsmall)]
      | | intros ? ? []].
    intros [v2 stop] s2. cbv zeta. cbn [fst snd].
    intros ((Hb2 & _ & _ & _ & _ & Hf2 & _) & (e & Ee & He)).
    assert (HK2 : K (snd s2) = K (snd s)) by (rewrite <- HK1; f_equal; apply Hf2).
    assert (Hlink : forall k, prev = Some k -> phase_continuous k (ASCPI.v_current v1)).
    { intros k Hk. destruct (Hprev k Hk) as (Hkr & e0 & Ee0 & He0).
      unfold phase_continuous. rewrite Esh, Hθb, Ee0, pymod_pymod_add.
      replace (θ k + e0 + sh) with (θ k + (e0 + sh)) by ring.
      assert (Hsum : Rabs (e0 + sh) <= π / 2).
      { pose proof (Rabs_triang e0 sh).
        assert (Rmax (Rabs (K (snd s))) 0.1 <= π / 4 + 0.1 - 0.1 \/
                Rmax (Rabs (K (snd s))) 0.1 = 0.1).
        { unfold Rmax. destruct (Rle_dec _ _); [right; reflexivity | left; lra]. }
        unfold π in *. lra. }
      rewrite wrapped_diff_shift; [exact Hsum | exact Hkr |].
      pose proof π_pos. lra. }
    assert (Hnext : 0 <= θ (ASCPI.v_current v1) < τ
                    /\ exists e, θ (ASCPI.v_current v2)
                                 = pymod (θ (ASCPI.v_current v1) + e) τ
                                 /\ Rabs e <= Rmax (Rabs (K (snd s2))) 0.1).
    { split; [apply Hb1 |]. exists e. split; [exact Ee |].
      rewrite HK2. eapply Rle_trans; [exact He |].
      apply Rle_max_compat_r. exact Hsh2. }
    destruct stop.
    + apply wp_ret. cbn [fst].
      destruct prev as [k |]; simpl; [| exact I].
      split; [apply Hlink; reflexivity | exact I].
    + apply wp_bind.
      eapply wp_mono;
        [apply (IH v2 s2 (Some (ASCPI.v_current v1)) Hb2) | | intros ? ? []].
      * rewrite HK2. exact HK.
      * intros k Hk. injection Hk as <-. exact Hnext.
      * intros [tr v'] s3 Hcons. apply wp_ret. cbn [fst ASCPI.opt_list app] in *.
        destruct prev as [k |]; cbn [ASCPI.opt_list app].
        -- split; [apply Hlink; reflexivity | exact Hcons].
        -- exact Hcons.
Qed.

End PhaseContinuity.

(** C5. Phase continuity (INV-4), with differences measured the short way
    round.  The kernel moves the phase of its input by at most π/2: it
    clamps its shift to that bound.  The guardian returns a phase within
    π/2 of the before-state's, whatever the after-state and whether or not
    the INV-5 blend applies: it clips what goes beyond.  And in every run
    of the evolution loop any two consecutive kernel outputs are within
    π/2 of each other, for a coupling constant [K] of at most π/4 in
    absolute value in the shared [KERNEL] dictionary; the module sets
    [K] to 0.5 and no operation of the engine changes it. *)
Theorem phase_continuity {P : Platform} :
  (forall self p ψ A M_inf W grad_C,
      0 <= θ ψ < τ ->
      phase_continuous ψ (fst (UnifiedTensorKernel.__call__ self p ψ A M_inf W grad_C)))
  /\ (forall g before after L,
         0 <= θ before < τ ->
         phase_continuous before (fst (InvariantGuardian.enforce g before after L)))
  /\ (forall ψ_lang ψ_code W n v s tr v' s',
         bounded (ASCPI.v_current v) ->
         Rabs (K (snd s)) <= π / 4 ->
         evolution_trace n ψ_lang ψ_code W v s = (Ok (tr, v'), s') ->
         ASCPI.evolution_loop n ψ_lang ψ_code W v s = (Ok v', s')
         /\ consecutive phase_continuous tr).
Proof.
  split; [| split].
  - intros self p ψ A M_inf W grad_C Hθ. unfold phase_continuous.
    destruct (kernel_phase_shift self p ψ A M_inf W grad_C) as (sh & E & H1 & _).
    rewrite E, wrapped_diff_shift; [exact H1 | exact Hθ |].
    unfold PHASE_MAX in H1. pose proof π_pos. lra.
  - intros g before after L Hb. apply guardian_phase_bound, Hb.
  - intros ψ_lang ψ_code W n v s tr v' s' Hcur HK E. split.
    + rewrite evolution_trace_loop, E. reflexivity.
    + pose proof (evolution_trace_spec ψ_lang ψ_code W n v s None Hcur HK) as H.
      unfold wp in H. rewrite E in H. apply H. discriminate.
Qed.

(** Twenty-five iterations from the default state on a fresh engine, with
    the module's [KERNEL]. *)
Lemma phase_continuity_witness :
  let v := {| ASCPI.v_current := default_Ψ (lit "lang");
              ASCPI.v_trajectory := [];
              ASCPI.v_coherences := None;
              ASCPI.v_attractor := None |} in
  let s := (ASCPI.__init__ (P := sample_platform) (lit "ascpi_9") 0, KERNEL) in
  exists tr v' s',
    evolution_trace (P := sample_platform) 25 (default_Ψ (lit "lang")) None None v s
    = (Ok (tr, v'), s')
    /\ consecutive phase_continuous tr.
Proof.
  intros v s.
  destruct (evolution_trace_total (P := sample_platform)
              (default_Ψ (lit "lang")) None None 25%nat v s (default_Ψ_bounded _))
    as (tr & v' & s' & E).
  exists tr, v', s'. split; [exact E |].
  apply (proj2 (proj2 (phase_continuity (P := sample_platform)))
           (default_Ψ (lit "lang")) None None 25%nat v s tr v' s'
           (default_Ψ_bounded _)); [| exact E].
  unfold s. cbn [snd]. unfold KERNEL. cbn [K]. rewrite Rabs_right by lra.
  pose proof PI2_3_2. unfold π. lra.
Defined.
